(** * BIM viewer: metadata correlation and categorisation engine

    A shallow embedding of the engine functions of the viewer component
    ([parseJsonMetadata], [getElementMetadata], [extractMeaningfulName],
    [getMeshDisplayName], [extractCategory], [buildModelTree], the
    visibility toggles and [getFilteredModelTree]) and the properties
    the specification states about them, followed by further properties
    of these functions and of the ones around them ([getParentChain],
    [toggleTextVisibility], [toggleCategoryExpanded], [handleFileUpload],
    [addToHistory], the load pass of [loadModel]).

    Strings are sequences of code units below 256 (Basic Latin and
    Latin-1): [toLowerCase], [trim] and the character classes of the
    regular expressions are those of JavaScript on that range.  A plain
    object that is read under keys coming from the data ([objectsMapRef],
    [expandedCategories]) is the map of its own entries together with
    what every object inherits from [Object.prototype]; [categoryMap] and
    [categories], read under category labels, are kept as their own
    entries.  Scene nodes have the fields three.js gives them.  The
    records of the metadata index have the string fields of the export
    format; [parseJsonMetadata] is modelled on arbitrary JSON values, and
    module [Raw] has the element lookup on the records as the parser
    stores them. *)

From Stdlib Require Import Ascii QArith.
From stdpp Require Import base sorting pretty functions option gmap strings list.

Local Open Scope stdpp_scope.
Set Warnings "-register-all".

(** ** JavaScript strings *)

Module Js.

Definition code (c : ascii) : nat := nat_of_ascii c.

(** [\d] *)
Definition isDigit (c : ascii) : bool :=
  (48 <=? code c)%nat && (code c <=? 57)%nat.

(** [[a-f0-9]] under the [i] flag *)
Definition isHex (c : ascii) : bool :=
  isDigit c
  || ((97 <=? code c)%nat && (code c <=? 102)%nat)
  || ((65 <=? code c)%nat && (code c <=? 70)%nat).

(** [\s], which is also the white space that [trim] strips: tab to
    carriage return, space and the no-break space. *)
Definition isSpace (c : ascii) : bool :=
  ((9 <=? code c)%nat && (code c <=? 13)%nat)
  || (code c =? 32)%nat || (code c =? 160)%nat.

(** [[-_\s]] *)
Definition isSep (c : ascii) : bool :=
  (code c =? 45)%nat || (code c =? 95)%nat || isSpace c.

(** The lowercase of a code unit: [A]-[Z] and the Latin-1 capitals
    (192 to 222, without the multiplication sign 215) are 32 below their
    small letters. *)
Definition lowerChar (c : ascii) : ascii :=
  if ((65 <=? code c)%nat && (code c <=? 90)%nat)
     || ((192 <=? code c)%nat && (code c <=? 222)%nat
         && negb (code c =? 215)%nat)
  then ascii_of_nat (code c + 32) else c.

(** [s.toLowerCase()] *)
Fixpoint toLowerCase (s : string) : string :=
  match s with
  | EmptyString => EmptyString
  | String c s' => String (lowerChar c) (toLowerCase s')
  end.

(** [s.startsWith(p)] *)
Fixpoint startsWith (p s : string) : bool :=
  match p, s with
  | EmptyString, _ => true
  | String a p', String b s' => bool_decide (a = b) && startsWith p' s'
  | String _ _, EmptyString => false
  end.

(** [s.includes(p)] *)
Fixpoint includes (s p : string) : bool :=
  startsWith p s
  || match s with
     | EmptyString => false
     | String _ s' => includes s' p
     end.

Fixpoint takeWhile (f : ascii → bool) (s : string) : string :=
  match s with
  | EmptyString => EmptyString
  | String c s' => if f c then String c (takeWhile f s') else EmptyString
  end.

Fixpoint dropWhile (f : ascii → bool) (s : string) : string :=
  match s with
  | EmptyString => EmptyString
  | String c s' => if f c then dropWhile f s' else s
  end.

Fixpoint trimEnd (s : string) : string :=
  match s with
  | EmptyString => EmptyString
  | String c s' =>
      match trimEnd s' with
      | EmptyString => if isSpace c then EmptyString else String c EmptyString
      | r => String c r
      end
  end.

(** [s.trim()] *)
Definition trim (s : string) : string := trimEnd (dropWhile isSpace s).

(** [s.substring(0, n)] *)
Fixpoint substring0 (n : nat) (s : string) : string :=
  match n, s with
  | S n', String c s' => String c (substring0 n' s')
  | _, _ => EmptyString
  end.

(** The rest of [s] after the literal [p], compared as under the [i]
    flag; [None] when [s] does not start with [p]. *)
Fixpoint stripPrefixCI (p s : string) : option string :=
  match p, s with
  | EmptyString, _ => Some s
  | String a p', String b s' =>
      if bool_decide (lowerChar a = lowerChar b) then stripPrefixCI p' s' else None
  | String _ _, EmptyString => None
  end.

(** An alternation of literals [(p1|p2|...)] tried at the start of [s]:
    the rest after the first alternative that matches. *)
Fixpoint stripAlt (ps : list string) (s : string) : option string :=
  match ps with
  | [] => None
  | p :: ps' =>
      match stripPrefixCI p s with
      | Some rest => Some rest
      | None => stripAlt ps' s
      end
  end.

(** JavaScript truthiness of a string. *)
Definition truthy (s : string) : bool := negb (bool_decide (s = EmptyString)).

(** [a || b] on strings. *)
Definition orElse (a b : string) : string := if truthy a then a else b.

End Js.

(** ** Code that may throw *)

(** Result of running code that may throw. *)
Inductive Outcome (A : Type) :=
| Returns (a : A)
| Throws (error : string).
Arguments Returns {A} a.
Arguments Throws {A} error.

Definition bindOutcome {A B} (m : Outcome A) (f : A → Outcome B) : Outcome B :=
  match m with
  | Returns a => f a
  | Throws e => Throws e
  end.

Notation "x ←! m ; k" := (bindOutcome m (λ x, k))
  (at level 20, m at level 100, k at level 200, right associativity,
   format "x  ←!  m ;  '/' k").

(** [l.forEach(f)] with a callback that may throw: the first exception
    ends the loop. *)
Fixpoint forEachOutcome {A S} (f : S → A → Outcome S) (l : list A) (s : S)
  : Outcome S :=
  match l with
  | [] => Returns s
  | x :: rest => s ←! f s x; forEachOutcome f rest s
  end.

(** ** Plain objects *)

(** The property names that every plain object inherits from
    [Object.prototype]: its methods, and the accessor [__proto__]. *)
Definition prototypeMethods : list string :=
  [ "constructor"; "__defineGetter__"; "__defineSetter__"; "hasOwnProperty";
    "__lookupGetter__"; "__lookupSetter__"; "isPrototypeOf";
    "propertyIsEnumerable"; "toString"; "valueOf"; "toLocaleString" ].

Definition prototypeNames : list string := prototypeMethods ++ ["__proto__"].

(** [expandedCategories[key]] as a condition, [expandedCategories] being
    a plain object of flags: an entry of its own decides; without one,
    an inherited name reads as a function (or as the prototype), which
    counts as true, and any other name as [undefined]. *)
Definition isExpanded (expandedCategories : gmap string bool)
    (categoryId : string) : bool :=
  match expandedCategories !! categoryId with
  | Some expanded => expanded
  | None => bool_decide (categoryId ∈ prototypeNames)
  end.

(** ** Name cleanup *)

(** [str.match(/\d{4,}/)]: the search tries each start position from the
    left; [\d{4,}] is greedy, so the match is the whole digit run that
    starts there. *)
Fixpoint matchDigitRun (str : string) : option string :=
  match str with
  | EmptyString => None
  | String _ rest =>
      let run := Js.takeWhile Js.isDigit str in
      if (4 <=? String.length run)%nat then Some run else matchDigitRun rest
  end.

(** Does the string start, or end, with a digit? *)
Definition startsWithDigit (s : string) : bool :=
  match s with
  | String c _ => Js.isDigit c
  | EmptyString => false
  end.

Fixpoint endsWithDigit (s : string) : bool :=
  match s with
  | EmptyString => false
  | String c EmptyString => Js.isDigit c
  | String _ rest => endsWithDigit rest
  end.

Fixpoint allDigits (s : string) : bool :=
  match s with
  | EmptyString => true
  | String c rest => Js.isDigit c && allDigits rest
  end.

Definition genericTokens : list string :=
  ["node"; "mesh"; "geometry"; "object"; "element"; "shape"; "geom"].

(** [.replace(/^(node|mesh|geometry|object|element|shape|geom)[-_\s]*/gi, '')]:
    [^] only holds at index 0, so at most one replacement happens. *)
Definition stripLeadingToken (s : string) : string :=
  match Js.stripAlt genericTokens s with
  | Some rest => Js.dropWhile Js.isSep rest
  | None => s
  end.

(** Does [[-_\s]*(node|mesh|...|geom)$] match at the start of [s], up to
    its end?  The separators are tried greedily with backtracking, which
    comes to: some separator prefix is followed by exactly a token. *)
Fixpoint matchTrailingAt (s : string) : bool :=
  bool_decide (Js.toLowerCase s ∈ genericTokens)
  || match s with
     | EmptyString => false
     | String c s' => Js.isSep c && matchTrailingAt s'
     end.

(** [.replace(/[-_\s]*(node|mesh|geometry|object|element|shape|geom)$/gi, '')]:
    the leftmost start position that matches is cut off with all that
    follows; a match reaches the end of the string, so there is no second. *)
Fixpoint stripTrailingToken (s : string) : string :=
  if matchTrailingAt s then EmptyString
  else match s with
       | EmptyString => EmptyString
       | String c s' => String c (stripTrailingToken s')
       end.

(** [.replace(/^(ID|id)[-_\s]*/gi, '')] *)
Definition stripLeadingId (s : string) : string :=
  match Js.stripAlt ["ID"; "id"] s with
  | Some rest => Js.dropWhile Js.isSep rest
  | None => s
  end.

(** [extractMeaningfulName]: [None] is the source's [null]. *)
Definition extractMeaningfulName (str : string) : option string :=
  if negb (Js.truthy str) then None
  else match matchDigitRun str with
       | Some idMatch => Some ("Element_" +:+ idMatch)
       | None =>
           let cleaned :=
             Js.trim (stripLeadingId (stripTrailingToken (stripLeadingToken str))) in
           if (2 <? String.length cleaned)%nat
              && negb (bool_decide (Js.toLowerCase cleaned = "node"))
              && negb (bool_decide (Js.toLowerCase cleaned = "unnamed"))
           then Some cleaned
           else None
       end.

(** ** Scene graph *)

(** Reference to a scene object: its position below the model root
    (the child indices on the way down).  Two visits are the same
    JavaScript object exactly when their references are equal. *)
Definition ObjRef := list nat.

Record Geometry := {
  geo_name : string;            (* [geometry.name], [""] when unset *)
  geo_index : option N;         (* [geometry.index.count] *)
  geo_position : option N       (* [geometry.attributes.position?.count] *)
}.

(** [node.material]: absent, one material or an array of materials
    (a name is [""] for an unnamed or null entry). *)
Inductive Material :=
| NoMaterial
| SingleMaterial (mat_name : string)
| MultiMaterial (mat_names : list string).

Record UserData := {
  isText : bool;
  revitId : string;
  guid : string;
  ud_elementId : string
}.

(** What a [THREE.Mesh] adds to an [Object3D]; a mesh always has a
    geometry. *)
Record MeshData := {
  geometry : Geometry;
  material : Material
}.

Record NodeData := {
  node_name : string;
  node_uuid : string;
  node_id : N;
  node_type : string;
  node_visible : bool;
  node_userData : UserData;
  node_mesh : option MeshData   (* [Some] exactly for [isMesh] objects *)
}.

Inductive Object3D := Obj (data : NodeData) (children : list Object3D).

Definition obj_data (o : Object3D) : NodeData := let 'Obj d _ := o in d.
Definition obj_children (o : Object3D) : list Object3D := let 'Obj _ cs := o in cs.

Definition isMesh (node : NodeData) : bool := bool_decide (is_Some (node_mesh node)).

(** [node.geometry?.name] *)
Definition geometryName (node : NodeData) : string :=
  match node_mesh node with
  | Some m => geo_name (geometry m)
  | None => ""
  end.

(** [node.material?.name]: an array has no [name]. *)
Definition materialName (node : NodeData) : string :=
  match node_mesh node with
  | Some {| material := SingleMaterial n |} => n
  | _ => ""
  end.

(** One call of a [traverse] callback: the object, where it is, and its
    [parent] chain, nearest ancestor first. *)
Record Visit := {
  v_ref : ObjRef;
  v_parents : list NodeData;
  v_obj : Object3D
}.

Definition v_node (v : Visit) : NodeData := obj_data (v_obj v).

(** [for (let i = 0; i < children.length; i++) children[i].traverse(...)]:
    the visits of each child in turn, [i] being the index of the first. *)
Fixpoint forEachChild (visitChild : nat → Object3D → list Visit) (i : nat)
    (children : list Object3D) : list Visit :=
  match children with
  | [] => []
  | child :: rest => visitChild i child ++ forEachChild visitChild (S i) rest
  end.

(** [Object3D.traverse]: the object itself, then each child's subtree,
    in order. *)
Fixpoint traverse (ref : ObjRef) (parents : list NodeData) (o : Object3D)
  : list Visit :=
  match o with
  | Obj d cs =>
      {| v_ref := ref; v_parents := parents; v_obj := o |}
      :: forEachChild (λ i child, traverse (ref ++ [i]) (d :: parents) child)
                      0%nat cs
  end.

Definition traverseFrom (v : Visit) : list Visit :=
  traverse (v_ref v) (v_parents v) (v_obj v).

(** ** Metadata records and element lookup *)

(** A record of the index, with the string fields the export format and
    the data model give it. *)
Record MetadataRecord := {
  elementId : string;
  externalId : string;
  familyName : string;
  typeName : string;
  category : string;
  displayName : string
}.

(** A JavaScript [Map] from string keys: entries in insertion order,
    keys unique. *)
Abbreviation JsMap V := (list (string * V)).

Fixpoint mapGet {V} (m : JsMap V) (k : string) : option V :=
  match m with
  | [] => None
  | (k', v) :: m' => if bool_decide (k' = k) then Some v else mapGet m' k
  end.

(** [Map.set]: an existing key keeps its place. *)
Fixpoint mapSet {V} (m : JsMap V) (k : string) (v : V) : JsMap V :=
  match m with
  | [] => [(k, v)]
  | (k', v') :: m' =>
      if bool_decide (k' = k) then (k, v) :: m' else (k', v') :: mapSet m' k v
  end.

Abbreviation MetadataIndex := (JsMap MetadataRecord).

(** Exactly [n] characters of [[a-f0-9]]: the rest of the string. *)
Fixpoint hexRun (n : nat) (s : string) : option string :=
  match n, s with
  | O, _ => Some s
  | S n', String c s' => if Js.isHex c then hexRun n' s' else None
  | S _, EmptyString => None
  end.

Definition dash (s : string) : option string :=
  match s with
  | String c s' => if bool_decide (c = "-"%char) then Some s' else None
  | EmptyString => None
  end.

(** The GUID pattern
    [[a-f0-9]{8}-[a-f0-9]{4}-[a-f0-9]{4}-[a-f0-9]{4}-[a-f0-9]{12}(?:-[a-f0-9]{8})?]
    at the start of [s]: the matched text.  The optional last segment is
    greedy: it is taken whenever it is there. *)
(** Hex segments of the given lengths with a dash between two of them:
    the rest of the string. *)
Fixpoint hexSegments (segs : list nat) (s : string) : option string :=
  match segs with
  | [] => Some s
  | n :: segs' =>
      match hexRun n s with
      | Some rest =>
          match segs' with
          | [] => Some rest
          | _ :: _ =>
              match dash rest with
              | Some rest' => hexSegments segs' rest'
              | None => None
              end
          end
      | None => None
      end
  end.

Definition matchGuidAt (s : string) : option string :=
  match hexSegments [8; 4; 4; 4; 12]%nat s with
  | Some rest =>
      match dash rest ≫= hexRun 8 with
      | Some _ => Some (Js.substring0 45 s)
      | None => Some (Js.substring0 36 s)
      end
  | None => None
  end.

(** [str.match(/(...guid...)/i)[1]]: the leftmost match. *)
Fixpoint matchGuid (str : string) : option string :=
  match matchGuidAt str with
  | Some g => Some g
  | None =>
      match str with
      | EmptyString => None
      | String _ rest => matchGuid rest
      end
  end.

Definition idPrefixes : list string := ["Element_"; "ID_"; "element-"; "id-"].

(** [(?:Element_|ID_|element-|id-)(\d+)] at the start of [s], under the
    [i] flag: the digits captured.  An alternative whose prefix matches
    but is followed by no digit fails, and the next one is tried. *)
Fixpoint matchIdAlt (ps : list string) (s : string) : option string :=
  match ps with
  | [] => None
  | p :: ps' =>
      match Js.stripPrefixCI p s with
      | Some rest =>
          let digits := Js.takeWhile Js.isDigit rest in
          if Js.truthy digits then Some digits else matchIdAlt ps' s
      | None => matchIdAlt ps' s
      end
  end.

(** [str.match(/(?:Element_|ID_|element-|id-)(\d+)/i)[1]] *)
Fixpoint matchElementId (str : string) : option string :=
  match matchIdAlt idPrefixes str with
  | Some d => Some d
  | None =>
      match str with
      | EmptyString => None
      | String _ rest => matchElementId rest
      end
  end.

(** The strings searched for a GUID, in the order of the source. *)
Definition searchStrings (node : NodeData) : list string :=
  filter (λ s, Js.truthy s)
    [ node_name node; geometryName node; materialName node;
      pretty (node_id node);
      revitId (node_userData node); guid (node_userData node);
      ud_elementId (node_userData node) ].

(** The inner loop [for (const [, metadata] of metadataRef.current)]. *)
Fixpoint findByGuid (index : MetadataIndex) (guid : string)
  : option MetadataRecord :=
  match index with
  | [] => None
  | (_, metadata) :: rest =>
      if Js.truthy (externalId metadata)
         && Js.includes (Js.toLowerCase (externalId metadata)) guid
      then Some metadata
      else findByGuid rest guid
  end.

(** The outer loop [for (const str of searchStrings)]. *)
Fixpoint guidLoop (index : MetadataIndex) (strs : list string)
  : option MetadataRecord :=
  match strs with
  | [] => None
  | str :: rest =>
      match matchGuid str with
      | Some guidMatch =>
          match findByGuid index (Js.toLowerCase guidMatch) with
          | Some metadata => Some metadata
          | None => guidLoop index rest
          end
      | None => guidLoop index rest
      end
  end.

(** The [elementId] the second half of [getElementMetadata] settles on;
    [None] is [null]. *)
Definition numericElementId (node : NodeData) : option string :=
  let elementId : option string := None in
  let elementId :=
    if Js.truthy (node_name node)
    then match matchElementId (node_name node) with
         | Some d => Some d
         | None => elementId
         end
    else elementId in
  let elementId :=
    match elementId with
    | None =>
        if Js.truthy (geometryName node)
        then matchElementId (geometryName node)
        else None
    | Some _ => elementId
    end in
  let elementId :=
    match elementId with
    | None =>
        if Js.truthy (materialName node)
        then matchElementId (materialName node)
        else None
    | Some _ => elementId
    end in
  match elementId with
  | None =>
      if Js.truthy (ud_elementId (node_userData node))
      then Some (ud_elementId (node_userData node))
      else None
  | Some _ => elementId
  end.

(** [getElementMetadata]; [metadataRef] is [metadataRef.current], [None]
    when it is [null]. *)
Definition getElementMetadata (metadataRef : option MetadataIndex)
    (node : NodeData) : option MetadataRecord :=
  match metadataRef with
  | None => None
  | Some index =>
      if (length index =? 0)%nat then None
      else
        match guidLoop index (searchStrings node) with
        | Some metadata => Some metadata
        | None =>
            match numericElementId node with
            | Some elementId => mapGet index elementId
            | None => None
            end
        end
  end.

(** The shape of a GUID in words: five groups of 8, 4, 4, 4 and 12
    hexadecimal digits with a dash between two of them, and the optional
    ninth group, a dash and 8 more digits. *)
Definition hexChars : string := "0123456789abcdefABCDEF".

Definition hexDigits (n : nat) (s : string) : Prop :=
  String.length s = n
  ∧ ∀ c, c ∈ String.list_ascii_of_string s
         → c ∈ String.list_ascii_of_string hexChars.

Definition guidCore (core : string) : Prop :=
  ∃ a b c d e,
    core = a +:+ "-" +:+ b +:+ "-" +:+ c +:+ "-" +:+ d +:+ "-" +:+ e
    ∧ hexDigits 8 a ∧ hexDigits 4 b ∧ hexDigits 4 c ∧ hexDigits 4 d
    ∧ hexDigits 12 e.

Definition ninthGroup (tail : string) : Prop :=
  ∃ h, tail = "-" +:+ h ∧ hexDigits 8 h.

(** The GUID-shaped candidates of a node as the specification lists
    them: the first match of each searched string, in search order. *)
Definition guidCandidates (node : NodeData) : list string :=
  omap matchGuid (searchStrings node).

(** The first record, in the iteration order of the index, whose
    [externalId] contains the candidate, case-insensitively. *)
Definition firstContaining (index : MetadataIndex) (candidate : string)
  : option MetadataRecord :=
  head (filter (λ metadata,
                  Js.includes (Js.toLowerCase (externalId metadata))
                              (Js.toLowerCase candidate))
               index.*2).

(** ** Display names *)

(** The loop over [materials] in [getMeshDisplayName]. *)
Fixpoint firstMaterialName (materials : list string) : option string :=
  match materials with
  | [] => None
  | mat :: rest =>
      if Js.truthy mat
      then match extractMeaningfulName mat with
           | Some matName => Some matName
           | None => firstMaterialName rest
           end
      else firstMaterialName rest
  end.

(** [while (current && current.type !== 'Scene' && depth < 3)]; the
    parent chain of [current] is [current :: up]. *)
Fixpoint parentNameLoop (chain : list NodeData) (depth index : nat)
  : option string :=
  match chain with
  | [] => None
  | current :: up =>
      if bool_decide (node_type current = "Scene") || negb (depth <? 3)%nat
      then None
      else
        let next := parentNameLoop up (S depth) index in
        if Js.truthy (node_name current)
           && negb (bool_decide (node_name current = "node"))
        then match extractMeaningfulName (node_name current) with
             | Some parentName => Some (parentName +:+ "_" +:+ pretty (index + 1)%nat)
             | None => next
             end
        else next
  end.

Definition materialsOf (m : Material) : list string :=
  match m with
  | NoMaterial => []
  | SingleMaterial n => [n]
  | MultiMaterial ns => ns
  end.

(** The three cleaned names tried before the parents: geometry name,
    material names, the node's own name. *)
Definition nameFromGeometry (node : NodeData) : option string :=
  if Js.truthy (geometryName node)
  then extractMeaningfulName (geometryName node) else None.

Definition nameFromMaterial (node : NodeData) : option string :=
  match node_mesh node with
  | Some m => firstMaterialName (materialsOf (material m))
  | None => None
  end.

Definition nameFromNode (node : NodeData) : option string :=
  if Js.truthy (node_name node) && negb (bool_decide (node_name node = "node"))
  then extractMeaningfulName (node_name node) else None.

(** The part of [getMeshDisplayName] after the metadata lookup: the
    cascade over geometry, materials, node and parents. *)
Definition fallbackName (parents : list NodeData) (node : NodeData)
    (index : nat) : string :=
  match nameFromGeometry node with
  | Some geomName => geomName
  | None =>
      match nameFromMaterial node with
      | Some matName => matName
      | None =>
          match nameFromNode node with
          | Some nodeName => nodeName
          | None =>
              match parentNameLoop parents 0 index with
              | Some fromParent => fromParent
              | None => "Element_" +:+ Js.substring0 8 (node_uuid node)
              end
          end
      end
  end.

(** [getMeshDisplayName(node, index)]; [parents] is the [parent] chain of
    [node]. *)
Definition getMeshDisplayName (metadataRef : option MetadataIndex)
    (parents : list NodeData) (node : NodeData) (index : nat) : string :=
  match getElementMetadata metadataRef node with
  | Some metadata => displayName metadata
  | None => fallbackName parents node index
  end.

(** ** Categories *)

Definition categoryMap : JsMap string :=
  [ ("OST_CurtainWallPanels", "Curtain Panels");
    ("OST_CurtainWallMullions", "Curtain Wall Mullions");
    ("OST_Walls", "Walls");
    ("OST_Floors", "Floors");
    ("OST_Roofs", "Roofs");
    ("OST_Windows", "Windows");
    ("OST_Doors", "Doors");
    ("OST_Columns", "Columns");
    ("OST_StructuralColumns", "Structural Columns");
    ("OST_StructuralFraming", "Structural Framing");
    ("OST_Furniture", "Furniture");
    ("OST_GenericModel", "Generic Models") ].

(** [categoryMap[ostCategory] || ostCategory], the object literal read as
    the table of its own entries: for a category that is one of the
    names of [prototypeNames] the source returns the inherited member, a
    function and no string, which the string-valued categories of this
    model cannot hold. *)
Definition getCategoryFromOST (ostCategory : string) : string :=
  match mapGet categoryMap ostCategory with
  | Some label => label
  | None => ostCategory
  end.

Definition categoryPatterns : JsMap (list string) :=
  [ ("Curtain Panels", ["curtain panel"; "pannello"; "panel"]);
    ("Curtain Wall Mullions", ["mullion"; "montante"; "curtain wall mullion"]);
    ("Structural Columns", ["column"; "pilastri"; "pillar"; "post"; "colum"]);
    ("Structural Framing",
       ["beam"; "travi"; "frame"; "brace"; "joist"; "girder"; "purlin"]);
    ("Structural Foundations",
       ["foundation"; "fondazioni"; "footing"; "pile"; "base"; "plinth"]);
    ("Structural Connections",
       ["connection"; "connessioni"; "connector"; "plate"; "bolt"; "weld"; "gusset"]);
    ("Walls", ["wall"; "muro"; "pareti"; "partition"]);
    ("Floors", ["floor"; "pavimento"; "slab"; "deck"; "pianta"]);
    ("Roofs", ["roof"; "tetto"; "copertura"]);
    ("Ceilings", ["ceiling"; "soffitto"; "soffit"]);
    ("Doors", ["door"; "porta"]);
    ("Windows", ["window"; "finestra"]);
    ("Stairs", ["stair"; "scala"; "ramp"; "rampa"; "step"]);
    ("Railings", ["railing"; "ringhiera"; "handrail"; "guardrail"; "balustrade"]);
    ("Specialty Equipment",
       ["equipment"; "antenna"; "device"; "rru"; "parabola"; "apparatus"]);
    ("Generic Models", ["generic"; "model"]);
    ("Structural Stiffeners", ["stiffener"; "stiffening"; "brace"]);
    ("Pipes", ["pipe"; "tubo"; "conduit"; "piping"]);
    ("Ducts", ["duct"; "condotto"; "ductwork"]);
    ("Cable Trays", ["cable"; "tray"; "cavo"; "conduit"]);
    ("Lighting Fixtures", ["light"; "lamp"; "fixture"; "luminaire"]);
    ("Electrical Fixtures", ["electrical"; "elettrico"; "outlet"; "switch"]);
    ("Electrical Equipment", ["transformer"; "panel"; "switchboard"]);
    ("Plumbing Fixtures", ["plumbing"; "sink"; "toilet"; "faucet"]);
    ("Mechanical Equipment", ["hvac"; "mechanical"; "fan"; "pump"]);
    ("Site", ["site"; "planimetria"; "topography"; "terrain"]);
    ("Data Devices", ["data"; "device"; "sensor"]);
    ("Sections", ["sezione"; "section"]) ].

(** The categories a node without metadata can get. *)
Definition fallbackCategories : list string :=
  "Text & Annotations" :: (fst <$> categoryPatterns) ++ ["Generic Models"].

(** [for (const pattern of patterns) if (str.includes(pattern)) ...] *)
Fixpoint anyPattern (patterns : list string) (str : string) : bool :=
  match patterns with
  | [] => false
  | pattern :: rest => if Js.includes str pattern then true else anyPattern rest str
  end.

(** [for (const [category, patterns] of Object.entries(categoryPatterns))] *)
Fixpoint patternCategory (table : JsMap (list string)) (str : string)
  : option string :=
  match table with
  | [] => None
  | (category, patterns) :: rest =>
      if anyPattern patterns str then Some category else patternCategory rest str
  end.

(** The parent walk of [extractCategory]. *)
Fixpoint parentCategoryLoop (chain : list NodeData) (depth : nat)
  : option string :=
  match chain with
  | [] => None
  | current :: up =>
      if bool_decide (node_type current = "Scene") || negb (depth <? 3)%nat
      then None
      else
        let here :=
          if Js.truthy (node_name current)
          then patternCategory categoryPatterns (Js.toLowerCase (node_name current))
          else None in
        match here with
        | Some category => Some category
        | None => parentCategoryLoop up (S depth)
        end
  end.

(** [searchStr] of [extractCategory]. *)
Definition searchStr (node : NodeData) (displayName : string) : string :=
  Js.toLowerCase (displayName +:+ " " +:+ node_name node +:+ " "
                  +:+ geometryName node +:+ " " +:+ materialName node).

Definition extractCategory (metadataRef : option MetadataIndex)
    (parents : list NodeData) (node : NodeData) (displayName : string) : string :=
  let fromMetadata :=
    match getElementMetadata metadataRef node with
    | Some metadata =>
        if Js.truthy (category metadata)
        then Some (getCategoryFromOST (category metadata)) else None
    | None => None
    end in
  match fromMetadata with
  | Some label => label
  | None =>
      if isText (node_userData node) then "Text & Annotations"
      else
        match patternCategory categoryPatterns (searchStr node displayName) with
        | Some category => category
        | None =>
            match parentCategoryLoop parents 0 with
            | Some category => category
            | None => "Generic Models"
            end
        end
  end.

(** [extractCategoryFromNode]; [None] is [null]. *)
Definition extractCategoryFromNode (node : NodeData) : option string :=
  let fromMaterial :=
    if Js.truthy (materialName node) then
      let matName := Js.toLowerCase (materialName node) in
      if Js.includes matName "column" then Some "Structural Columns"
      else if Js.includes matName "beam" then Some "Structural Framing"
      else if Js.includes matName "wall" then Some "Walls"
      else if Js.includes matName "floor" || Js.includes matName "slab"
      then Some "Floors"
      else if Js.includes matName "door" then Some "Doors"
      else if Js.includes matName "window" then Some "Windows"
      else if Js.includes matName "roof" then Some "Roofs"
      else if Js.includes matName "foundation" then Some "Structural Foundations"
      else if Js.includes matName "stair" then Some "Stairs"
      else if Js.includes matName "railing" then Some "Railings"
      else if Js.includes matName "antenna" || Js.includes matName "equipment"
      then Some "Specialty Equipment"
      else None
    else None in
  match fromMaterial with
  | Some c => Some c
  | None =>
      if Js.truthy (geometryName node) then
        let geomName := Js.toLowerCase (geometryName node) in
        if Js.includes geomName "column" then Some "Structural Columns"
        else if Js.includes geomName "beam" then Some "Structural Framing"
        else None
      else None
  end.

(** [while (current && current.name) { path.unshift(current.name); ... }] *)
Fixpoint pathLoop (chain : list NodeData) (path : list string) : list string :=
  match chain with
  | [] => path
  | current :: up =>
      if Js.truthy (node_name current)
      then pathLoop up (node_name current :: path)
      else path
  end.

Definition getNodePath (parents : list NodeData) (node : NodeData) : string :=
  String.concat " > " (pathLoop (node :: parents) []).

Definition getNodeDepth (parents : list NodeData) : nat := length parents.

(** [getParentChain]: [parents] is the [parent] chain of the node,
    nearest ancestor first; each ancestor is put at the front of the
    chain. *)
Definition getParentChain (parents : list NodeData) : list (string * string) :=
  fold_left (λ chain parent,
               (Js.orElse (node_name parent) "unnamed", node_type parent) :: chain)
            parents [].

(** ** The browse tree *)

Inductive ItemType := TextItem | MeshItem.
Inductive NodeKind := GroupKind | CategoryKind.

Record TreeItem := {
  item_id : string;
  item_name : string;
  item_object : Visit;
  item_type : ItemType;
  item_category : string;
  item_fullPath : string
}.

Record TreeNode := {
  tn_id : string;
  tn_name : string;
  tn_count : nat;
  tn_items : list TreeItem;
  tn_expanded : bool;
  tn_type : NodeKind;
  tn_depth : option nat        (* group entries only *)
}.

(** The [info] record of the first traversal, with the fields that are
    read later. *)
Record NodeInfo := {
  info_depth : nat;
  info_name : string;
  info_uuid : string;
  info_type : string;
  info_isGroup : bool;
  info_childCount : nat
}.

Definition nodeInfo (child : Visit) : NodeInfo :=
  {| info_depth := getNodeDepth (v_parents child);
     info_name := Js.orElse (node_name (v_node child)) "unnamed";
     info_uuid := node_uuid (v_node child);
     info_type := node_type (v_node child);
     info_isGroup := bool_decide (node_type (v_node child) = "Group")
                     || bool_decide (node_type (v_node child) = "Object3D");
     info_childCount := length (obj_children (v_obj child)) |}.

(** [groupNodes] after the first traversal. *)
Definition groupNodesOf (visits : list Visit) : list NodeInfo :=
  filter (λ info, info_isGroup info && (0 <? info_childCount info)%nat)
         (nodeInfo <$> visits).

(** [findNodeByUuid]: the callback overwrites [found], so the last object
    with the uuid is returned. *)
Definition findNodeByUuid (visits : list Visit) (uuid : string) : option Visit :=
  fold_left (λ found child,
               if bool_decide (node_uuid (v_node child) = uuid)
               then Some child else found)
            visits None.

(** The maps and the set that the two passes fill. *)
Record Claimed := {
  objectsMap : gmap string ObjRef;
  visibilityMap : gmap string bool;
  processedMeshes : gset string
}.

Definition claim (child : Visit) (c : Claimed) : Claimed :=
  let objectId := node_uuid (v_node child) in
  {| objectsMap := <[objectId := v_ref child]> (objectsMap c);
     visibilityMap := <[objectId := node_visible (v_node child)]> (visibilityMap c);
     processedMeshes := {[ objectId ]} ∪ processedMeshes c |}.

(** The entry pushed for a mesh. *)
Definition treeItem (metadataRef : option MetadataIndex) (child : Visit)
    (index : nat) : TreeItem :=
  let node := v_node child in
  let name := getMeshDisplayName metadataRef (v_parents child) node index in
  {| item_id := node_uuid node;
     item_name := name;
     item_object := child;
     item_type := if isText (node_userData node) then TextItem else MeshItem;
     item_category := extractCategory metadataRef (v_parents child) node name;
     item_fullPath := getNodePath (v_parents child) node |}.

(** State of one mesh-collecting traversal: the maps, the entries pushed
    and the running index. *)
Definition Collect : Type := Claimed * list TreeItem * nat.

(** Callback of [groupNode.traverse]. *)
Definition groupVisit (metadataRef : option MetadataIndex) (groupNode : Visit)
    (acc : Collect) (child : Visit) : Collect :=
  let '(c, meshChildren, meshIndex) := acc in
  if isMesh (v_node child)
     && negb (bool_decide (v_ref child = v_ref groupNode))
     && negb (bool_decide (node_uuid (v_node child) ∈ processedMeshes c))
  then (claim child c,
        meshChildren ++ [treeItem metadataRef child meshIndex],
        S meshIndex)
  else acc.

(** Callback of [groupNodes.forEach].  The [expanded] of an entry,
    [expandedCategories[categoryName] || false], is only ever used as a
    condition and is kept as one. *)
Definition groupStep (metadataRef : option MetadataIndex)
    (expandedCategories : gmap string bool) (visits : list Visit)
    (acc : Claimed * list TreeNode) (groupInfo : NodeInfo)
  : Claimed * list TreeNode :=
  let '(c, tree) := acc in
  match findNodeByUuid visits (info_uuid groupInfo) with
  | None => acc
  | Some groupNode =>
      let '(c', meshChildren, _) :=
        fold_left (groupVisit metadataRef groupNode) (traverseFrom groupNode)
                  (c, [], 0%nat) in
      if (0 <? length meshChildren)%nat then
        let categoryName := info_name groupInfo in
        let categoryName :=
          if negb (Js.truthy categoryName)
             || bool_decide (categoryName = "node")
             || bool_decide (categoryName = "unnamed")
          then match meshChildren with
               | firstChild :: _ =>
                   default (item_category firstChild)
                           (extractCategoryFromNode (v_node (item_object firstChild)))
               | [] => "Group_" +:+ pretty (length tree + 1)%nat
               end
          else categoryName in
        (c', tree ++ [ {| tn_id := info_uuid groupInfo;
                          tn_name := categoryName;
                          tn_count := length meshChildren;
                          tn_items := meshChildren;
                          tn_expanded := isExpanded expandedCategories categoryName;
                          tn_type := GroupKind;
                          tn_depth := Some (info_depth groupInfo) |} ])
      else (c', tree)
  end.

(** Callback of the second [modelScene.traverse]. *)
Definition uncategorizedVisit (metadataRef : option MetadataIndex)
    (acc : Collect) (child : Visit) : Collect :=
  let '(c, uncategorizedMeshes, uncategorizedIndex) := acc in
  if isMesh (v_node child)
     && negb (bool_decide (node_uuid (v_node child) ∈ processedMeshes c))
  then (claim child c,
        uncategorizedMeshes ++ [treeItem metadataRef child uncategorizedIndex],
        S uncategorizedIndex)
  else acc.

(** [if (!categories[category]) categories[category] = [];
     categories[category].push(meshItem)] on a plain object, kept as its
    own entries in creation order. *)
Fixpoint pushCategory (categories : JsMap (list TreeItem)) (category : string)
    (meshItem : TreeItem) : JsMap (list TreeItem) :=
  match categories with
  | [] => [(category, [meshItem])]
  | (k, items) :: rest =>
      if bool_decide (k = category) then (k, items ++ [meshItem]) :: rest
      else (k, items) :: pushCategory rest category meshItem
  end.

(** The value of a decimal string. *)
Definition decimalValue (s : string) : N :=
  fold_left (λ n c, n * 10 + N.of_nat (Js.code c - 48))%N
            (String.list_ascii_of_string s) 0%N.

(** A key that is an array index: the canonical decimal of a number
    below [2^32 - 1]. *)
Definition arrayIndex (k : string) : option N :=
  if Js.truthy k && allDigits k
     && bool_decide (pretty (decimalValue k) = k)
     && (decimalValue k <? 4294967295)%N
  then Some (decimalValue k) else None.

Definition indexLe {V} (a b : N * (string * V)) : Prop := (a.1 ≤ b.1)%N.

#[local] Instance indexLe_dec {V} (a b : N * (string * V)) : Decision (indexLe a b) :=
  N.le_dec a.1 b.1.

(** [Object.entries]: array-index keys first, in ascending order, then
    the other keys in creation order. *)
Definition objectEntries {V} (o : JsMap V) : list (string * V) :=
  (snd <$> merge_sort indexLe
             (omap (λ e, (λ n, (n, e)) <$> arrayIndex e.1) o))
  ++ filter (λ e, arrayIndex e.1 = None) o.

Definition categoryNode (expandedCategories : gmap string bool)
    (entry : string * list TreeItem) : TreeNode :=
  let '(categoryName, items) := entry in
  {| tn_id := categoryName;
     tn_name := categoryName;
     tn_count := length items;
     tn_items := items;
     tn_expanded := isExpanded expandedCategories categoryName;
     tn_type := CategoryKind;
     tn_depth := None |}.

(** What [buildModelTree] stores: [objectsMapRef.current] and the three
    state setters. *)
Record BuildResult := {
  br_objectsMap : gmap string ObjRef;
  br_objectVisibility : gmap string bool;
  br_expandedCategories : gmap string bool;
  br_modelTree : list TreeNode
}.

Definition noneClaimed : Claimed :=
  {| objectsMap := ∅; visibilityMap := ∅; processedMeshes := ∅ |}.

(** [if (groupNodes.length > 1) groupNodes.forEach(...)] *)
Definition groupPass (metadataRef : option MetadataIndex)
    (expandedCategories : gmap string bool) (visits : list Visit)
  : Claimed * list TreeNode :=
  let groupNodes := groupNodesOf visits in
  if (1 <? length groupNodes)%nat
  then fold_left (groupStep metadataRef expandedCategories visits)
                 groupNodes (noneClaimed, [])
  else (noneClaimed, []).

(** The second [modelScene.traverse]. *)
Definition uncategorizedPass (metadataRef : option MetadataIndex)
    (visits : list Visit) (c : Claimed) : Collect :=
  fold_left (uncategorizedVisit metadataRef) visits (c, [], 0%nat).

(** [uncategorizedMeshes.forEach(...)] filling [categories]. *)
Definition categorise (uncategorizedMeshes : list TreeItem)
  : JsMap (list TreeItem) :=
  fold_left (λ categories meshItem,
               pushCategory categories (item_category meshItem) meshItem)
            uncategorizedMeshes [].

(** [buildModelTree(modelScene)]; [sceneParents] is the [parent] chain of
    [modelScene] itself, [metadataRef] and [expandedCategories] are the
    component state it reads. *)
Definition buildModelTree (metadataRef : option MetadataIndex)
    (expandedCategories : gmap string bool)
    (sceneParents : list NodeData) (modelScene : Object3D) : BuildResult :=
  let visits := traverse [] sceneParents modelScene in
  let '(c, tree) := groupPass metadataRef expandedCategories visits in
  let '(c, uncategorizedMeshes, _) := uncategorizedPass metadataRef visits c in
  let tree :=
    if (0 <? length uncategorizedMeshes)%nat
    then tree ++ (categoryNode expandedCategories
                    <$> objectEntries (categorise uncategorizedMeshes))
    else tree in
  {| br_objectsMap := objectsMap c;
     br_objectVisibility := visibilityMap c;
     br_expandedCategories :=
       fold_left (λ initialExpanded category,
                    <[tn_id category := tn_expanded category]> initialExpanded)
                 tree ∅;
     br_modelTree := tree |}.

(** ** Load-time pass over the meshes *)

(** [index.count / 3], or [(position?.count || 0) / 3] without an index:
    a quotient of integers, kept exact. *)
Definition triangles (g : Geometry) : Q :=
  match geo_index g with
  | Some count => inject_Z (Z.of_N count) / 3
  | None => inject_Z (Z.of_N (default 0%N (geo_position g))) / 3
  end.

(** The vertex or index count the triangle count is taken from. *)
Definition elementCount (g : Geometry) : N :=
  match geo_index g with
  | Some count => count
  | None => default 0%N (geo_position g)
  end.

(** What the mesh callback of [loadModel] leaves on a node: the text flag
    and [visible = true].  The callback also replaces every material by
    a clone made double-sided and opaque, and keeps clones of the
    materials in [userData]: a clone has the name of its original, which
    is all that is modelled of a material, and those entries of
    [userData] are read by no function below. *)
Definition prepareMesh (child : NodeData) : NodeData :=
  match node_mesh child with
  | Some m =>
      let userData := node_userData child in
      {| node_name := node_name child;
         node_uuid := node_uuid child;
         node_id := node_id child;
         node_type := node_type child;
         node_visible := true;
         node_userData :=
           if Qlt_le_dec (triangles (geometry m)) 100
           then {| isText := true;
                   revitId := revitId userData;
                   guid := guid userData;
                   ud_elementId := ud_elementId userData |}
           else userData;
         node_mesh := node_mesh child |}
  | None => child
  end.

(** [collada.scene.traverse] with that callback. *)
Fixpoint prepareScene (o : Object3D) : Object3D :=
  match o with
  | Obj d cs => Obj (prepareMesh d) (map prepareScene cs)
  end.

(** What the load pass guarantees of a node: a mesh is visible, and
    flagged text-like when its element count is below 300. *)
Definition prepared (node : NodeData) : Prop :=
  match node_mesh node with
  | Some m =>
      node_visible node = true
      ∧ ((elementCount (geometry m) < 300)%N → isText (node_userData node) = true)
  | None => True
  end.

(** An object as the ColladaLoader creates it: [userData] is still the
    empty object that the [Object3D] constructor leaves, so there is no
    field for it. *)
Record LoadedNode := {
  ld_name : string;
  ld_uuid : string;
  ld_id : N;
  ld_type : string;
  ld_visible : bool;
  ld_mesh : option MeshData
}.

Inductive LoadedObject :=
  Loaded (data : LoadedNode) (children : list LoadedObject).

(** [userData] as long as nothing has been written to it: [{}]. *)
Definition emptyUserData : UserData :=
  {| isText := false; revitId := ""; guid := ""; ud_elementId := "" |}.

Definition loadedNode (d : LoadedNode) : NodeData :=
  {| node_name := ld_name d;
     node_uuid := ld_uuid d;
     node_id := ld_id d;
     node_type := ld_type d;
     node_visible := ld_visible d;
     node_userData := emptyUserData;
     node_mesh := ld_mesh d |}.

(** [collada.scene] as the pass finds it. *)
Fixpoint fromLoader (o : LoadedObject) : Object3D :=
  match o with
  | Loaded d cs => Obj (loadedNode d) (map fromLoader cs)
  end.

(** The triangle count in the words of the specification: the count of
    the index buffer divided by 3, or, for a geometry without an index,
    the vertex count divided by 3 (no vertices without a position
    attribute). *)
Definition triangleCount (g : Geometry) : Q :=
  match geo_index g, geo_position g with
  | Some indexCount, _ => Z.of_N indexCount # 3
  | None, Some vertexCount => Z.of_N vertexCount # 3
  | None, None => 0
  end.

(** ** Viewer state, toggles and search *)

(** The part of the state the toggles and the search read and write.
    [visible] holds the [visible] flag of every scene object.
    [builtinVisible] holds the [visible] property that toggles have put
    on objects that are not of the scene: on a method of
    [Object.prototype], under the method's name, and on
    [Object.prototype] itself, under [__proto__]; at the start it is
    empty. *)
Record ViewerState := {
  modelTree : list TreeNode;
  objectsMapRef : gmap string ObjRef;
  objectVisibility : gmap string bool;
  visible : ObjRef → bool;
  builtinVisible : gmap string bool;
  modelBrowserSearch : string
}.

(** What [objectsMapRef.current[id]] can be, besides [undefined]. *)
Inductive Found :=
| SceneObject (object : ObjRef)  (* an entry of the map *)
| Builtin (name : string)        (* a method inherited from [Object.prototype],
                                    or, for [__proto__], that prototype *)
| Inherited (flag : bool).       (* the [visible] that a toggle has put on
                                    [Object.prototype], found under that name *)

(** [objectsMapRef.current[id]]: the map is a plain object, so a name
    that is not a key of its own is looked up in [Object.prototype]. *)
Definition lookupObject (st : ViewerState) (id : string) : option Found :=
  match objectsMapRef st !! id with
  | Some object => Some (SceneObject object)
  | None =>
      if bool_decide (id ∈ prototypeNames) then Some (Builtin id)
      else if bool_decide (id = "visible")
      then Inherited <$> builtinVisible st !! "__proto__"
      else None
  end.

(** [if (object)] *)
Definition truthyFound (object : Found) : bool :=
  match object with
  | SceneObject _ | Builtin _ => true
  | Inherited flag => flag
  end.

(** [object.visible], [None] being [undefined]: a scene object has the
    flag as its own property; a function or a boolean finds it, if at
    all, in [Object.prototype] at the end of its prototype chain. *)
Definition visibleOf (st : ViewerState) (object : Found) : option bool :=
  match object with
  | SceneObject o => Some (visible st o)
  | Builtin name =>
      match builtinVisible st !! name with
      | Some flag => Some flag
      | None => builtinVisible st !! "__proto__"
      end
  | Inherited _ => builtinVisible st !! "__proto__"
  end.

(** [object.visible = newVisibility].  The module is strict code, where
    the assignment to a property of a primitive throws. *)
Definition setVisibleOf (object : Found) (newVisibility : bool)
    (st : ViewerState) : Outcome ViewerState :=
  match object with
  | SceneObject o =>
      Returns {| modelTree := modelTree st;
                 objectsMapRef := objectsMapRef st;
                 objectVisibility := objectVisibility st;
                 visible := <[o := newVisibility]> (visible st);
                 builtinVisible := builtinVisible st;
                 modelBrowserSearch := modelBrowserSearch st |}
  | Builtin name =>
      Returns {| modelTree := modelTree st;
                 objectsMapRef := objectsMapRef st;
                 objectVisibility := objectVisibility st;
                 visible := visible st;
                 builtinVisible := <[name := newVisibility]> (builtinVisible st);
                 modelBrowserSearch := modelBrowserSearch st |}
  | Inherited _ => Throws "TypeError"
  end.

(** [setObjectVisibility(prev => ({...prev, [objectId]: newVisibility}))] *)
Definition recordVisibility (objectId : string) (newVisibility : bool)
    (st : ViewerState) : ViewerState :=
  {| modelTree := modelTree st;
     objectsMapRef := objectsMapRef st;
     objectVisibility := <[objectId := newVisibility]> (objectVisibility st);
     visible := visible st;
     builtinVisible := builtinVisible st;
     modelBrowserSearch := modelBrowserSearch st |}.

Definition toggleObjectVisibility (objectId : string) (st : ViewerState)
  : Outcome ViewerState :=
  match lookupObject st objectId with
  | Some object =>
      if truthyFound object then
        let newVisibility := negb (default false (visibleOf st object)) in
        st ←! setVisibleOf object newVisibility st;
        Returns (recordVisibility objectId newVisibility st)
      else Returns st
  | None => Returns st
  end.

(** [category.items.every(item => { obj = objectsMapRef.current[item.id];
    return obj && obj.visible === true })] *)
Definition allVisible (st : ViewerState) (category : TreeNode) : bool :=
  forallb (λ item,
             match lookupObject st (item_id item) with
             | Some obj =>
                 truthyFound obj && bool_decide (visibleOf st obj = Some true)
             | None => false
             end)
          (tn_items category).

(** Callback of [category.items.forEach]. *)
Definition setItemVisible (newVisibility : bool) (st : ViewerState)
    (item : TreeItem) : Outcome ViewerState :=
  match lookupObject st (item_id item) with
  | Some obj =>
      if truthyFound obj then
        st ←! setVisibleOf obj newVisibility st;
        Returns (recordVisibility (item_id item) newVisibility st)
      else Returns st
  | None => Returns st
  end.

Definition toggleCategoryVisibility (categoryId : string) (st : ViewerState)
  : Outcome ViewerState :=
  match List.find (λ cat, bool_decide (tn_id cat = categoryId)) (modelTree st) with
  | None => Returns st
  | Some category =>
      let newVisibility := negb (allVisible st category) in
      forEachOutcome (setItemVisible newVisibility) (tn_items category) st
  end.

(** A member of a group together with its scene object. *)
Definition member (st : ViewerState) (category : TreeNode) (item : TreeItem)
    (obj : ObjRef) : Prop :=
  item ∈ tn_items category ∧ objectsMapRef st !! item_id item = Some obj.

(** The names under which the object map finds something that it does
    not hold itself. *)
Definition inheritedName (st : ViewerState) (id : string) : Prop :=
  id ∈ prototypeNames
  ∨ (id = "visible" ∧ is_Some (builtinVisible st !! "__proto__")).

(** [toggleCategoryExpanded]: [prev => ({...prev, [categoryId]:
    !prev[categoryId]})]. *)
Definition toggleCategoryExpanded (categoryId : string)
    (prev : gmap string bool) : gmap string bool :=
  <[categoryId := negb (isExpanded prev categoryId)]> prev.

(** Is the visit one of a text-like mesh? *)
Definition isTextMesh (child : Visit) : bool :=
  isMesh (v_node child) && isText (node_userData (v_node child)).

(** Callback of [sceneRef.current.traverse] in [toggleTextVisibility]. *)
Definition setTextVisible (hideText : bool) (visible : ObjRef → bool)
    (child : Visit) : ObjRef → bool :=
  if isTextMesh child then <[v_ref child := hideText]> visible else visible.

(** [toggleTextVisibility]: [sceneVisits] are the visits of
    [sceneRef.current.traverse], [None] without a scene; the result is
    the [visible] flags and the [hideText] state afterwards. *)
Definition toggleTextVisibility (sceneVisits : option (list Visit))
    (hideText : bool) (visible : ObjRef → bool) : (ObjRef → bool) * bool :=
  match sceneVisits with
  | Some visits =>
      (fold_left (setTextVisible hideText) visits visible, negb hideText)
  | None => (visible, hideText)
  end.

(** The predicate of [category.items.filter]. *)
Definition searchHit (searchLower : string) (category : TreeNode)
    (item : TreeItem) : bool :=
  Js.includes (Js.toLowerCase (item_name item)) searchLower
  || Js.includes (Js.toLowerCase (tn_name category)) searchLower.

(** [{...category, items: filteredItems, count: filteredItems.length}] *)
Definition withItems (category : TreeNode) (filteredItems : list TreeItem)
  : TreeNode :=
  {| tn_id := tn_id category;
     tn_name := tn_name category;
     tn_count := length filteredItems;
     tn_items := filteredItems;
     tn_expanded := tn_expanded category;
     tn_type := tn_type category;
     tn_depth := tn_depth category |}.

(** One group after the search with a query that is not blank. *)
Definition searched (searchLower : string) (category : TreeNode) : TreeNode :=
  withItems category
    (filter (λ item, searchHit searchLower category item) (tn_items category)).

(** [getFilteredModelTree] over a tree and a search string. *)
Definition filterTree (modelTree : list TreeNode) (modelBrowserSearch : string)
  : list TreeNode :=
  if negb (Js.truthy (Js.trim modelBrowserSearch)) then modelTree
  else
    let searchLower := Js.toLowerCase modelBrowserSearch in
    filter (λ category, (0 <? length (tn_items category))%nat)
      ((λ category,
          withItems category
            (filter (λ item, searchHit searchLower category item)
                    (tn_items category)))
       <$> modelTree).

Definition getFilteredModelTree (st : ViewerState) : list TreeNode :=
  filterTree (modelTree st) (modelBrowserSearch st).

(** [category.items.length > 0] for the category object at an address. *)
Definition hasItemsAt (heap : list TreeNode) (address : nat) : bool :=
  match heap !! address with
  | Some category => (0 <? length (tn_items category))%nat
  | None => false
  end.

(** The same function on category objects that have an identity: [heap]
    holds the category objects by address and [modelTree] lists the
    addresses of the tree.  A blank query returns [modelTree] itself;
    otherwise [map] creates one object for each category, in order, and
    [filter] selects among the new ones.  The result is the list returned
    and the heap afterwards. *)
Definition filterObjects (heap : list TreeNode) (modelTree : list nat)
    (modelBrowserSearch : string) : list nat * list TreeNode :=
  if negb (Js.truthy (Js.trim modelBrowserSearch)) then (modelTree, heap)
  else
    let searchLower := Js.toLowerCase modelBrowserSearch in
    let created :=
      (λ category,
         withItems category
           (filter (λ item, searchHit searchLower category item)
                   (tn_items category)))
      <$> omap (λ address, heap !! address) modelTree in
    let heap' := heap ++ created in
    (filter (λ address, hasItemsAt heap' address)
            (seq (length heap) (length created)),
     heap').

(** The tree that a list of addresses stands for. *)
Definition readTree (heap : list TreeNode) (addresses : list nat)
  : list TreeNode :=
  omap (λ address, heap !! address) addresses.

(** The search in the words of the specification.  White space is what
    [trim] removes; a query is blank when it has nothing else. *)
Definition whiteSpace : list nat := [9; 10; 11; 12; 13; 32; 160]%nat.

Definition blank (q : string) : Prop :=
  ∀ c, c ∈ String.list_ascii_of_string q → nat_of_ascii c ∈ whiteSpace.

(** [s] contains [q], ignoring the case of letters. *)
Definition containsIgnoringCase (s q : string) : Prop :=
  ∃ pre post, Js.toLowerCase s = pre +:+ Js.toLowerCase q +:+ post.

(** An entry matches when its name or the name of its group contains
    the query. *)
Definition matchesQuery (q : string) (category : TreeNode) (item : TreeItem)
  : Prop :=
  containsIgnoringCase (item_name item) q
  ∨ containsIgnoringCase (tn_name category) q.

(** [kept] is [items] without the entries that fail [P], in the order of
    [items]. *)
Inductive keeps (P : TreeItem → Prop) : list TreeItem → list TreeItem → Prop :=
| keeps_nil : keeps P [] []
| keeps_in item items kept :
    P item → keeps P items kept → keeps P (item :: items) (item :: kept)
| keeps_out item items kept :
    ¬ P item → keeps P items kept → keeps P (item :: items) kept.

(** [result] is [tree] searched for [q]: each group with its matching
    entries and their number, the groups left without entries omitted. *)
Inductive searchOf (q : string) : list TreeNode → list TreeNode → Prop :=
| searchOf_nil : searchOf q [] []
| searchOf_keep category tree kept result :
    keeps (matchesQuery q category) (tn_items category) kept →
    kept ≠ [] →
    searchOf q tree result →
    searchOf q (category :: tree)
             ({| tn_id := tn_id category;
                 tn_name := tn_name category;
                 tn_count := length kept;
                 tn_items := kept;
                 tn_expanded := tn_expanded category;
                 tn_type := tn_type category;
                 tn_depth := tn_depth category |} :: result)
| searchOf_omit category tree result :
    keeps (matchesQuery q category) (tn_items category) [] →
    searchOf q tree result →
    searchOf q (category :: tree) result.

(** ** Parsing the metadata payload *)

(** A value of the parsed JSON payload ([undefined] only arises from
    reading a missing property).  Numbers are the integers that a double
    holds exactly and prints digit by digit, those of at most 2^53 in
    size, as the element pointers of an export are; fractions and larger
    numbers are outside of what is modelled. *)
Inductive JsVal :=
| JUndefined
| JNull
| JBool (b : bool)
| JNum (n : Z)
| JStr (s : string)
| JArr (elems : list JsVal)
| JObj (props : list (string * JsVal)).

Definition truthyVal (v : JsVal) : bool :=
  match v with
  | JUndefined | JNull => false
  | JBool b => b
  | JNum n => negb (n =? 0)%Z
  | JStr s => Js.truthy s
  | JArr _ | JObj _ => true
  end.

(** [a || b] *)
Definition orVal (a b : JsVal) : JsVal := if truthyVal a then a else b.

Fixpoint ownProp (props : list (string * JsVal)) (k : string) : option JsVal :=
  match props with
  | [] => None
  | (k', v) :: rest => if bool_decide (k' = k) then Some v else ownProp rest k
  end.

(** [v[k]] for the property names the parser reads (none of them is
    defined on a primitive, an array or [Object.prototype]): a missing
    property reads as [undefined], and reading from [null] throws. *)
Definition readProp (v : JsVal) (k : string) : Outcome JsVal :=
  match v with
  | JUndefined | JNull => Throws "TypeError"
  | JObj props => Returns (default JUndefined (ownProp props k))
  | _ => Returns JUndefined
  end.

(** [readProp] on a value known to be truthy. *)
Definition prop (v : JsVal) (k : string) : JsVal :=
  match v with
  | JObj props => default JUndefined (ownProp props k)
  | _ => JUndefined
  end.

(** [Array.prototype.join]: the strings of the elements with commas
    between them, [null] and [undefined] giving the empty string. *)
Fixpoint joinVals (str : JsVal → Outcome string) (l : list JsVal)
  : Outcome string :=
  match l with
  | [] => Returns ""
  | x :: rest =>
      s ←! match x with
           | JUndefined | JNull => Returns ""
           | _ => str x
           end;
      match rest with
      | [] => Returns s
      | _ :: _ => r ←! joinVals str rest; Returns (s +:+ "," +:+ r)
      end
  end.

(** [String(v)], as [v.toString()] and the template literal compute it.
    A parsed object that carries its own [toString] entry has lost the
    inherited method, and the conversion throws. *)
Fixpoint toStringVal (v : JsVal) : Outcome string :=
  match v with
  | JUndefined => Returns "undefined"
  | JNull => Returns "null"
  | JBool b => Returns (if b then "true" else "false")
  | JNum n => Returns (pretty n)
  | JStr s => Returns s
  | JArr elems => joinVals toStringVal elems
  | JObj props =>
      match ownProp props "toString" with
      | Some _ => Throws "TypeError"
      | None => Returns "[object Object]"
      end
  end.

(** A record as the parser stores it: the values as found. *)
Record RawRecord := {
  raw_elementId : JsVal;
  raw_externalId : JsVal;
  raw_familyName : JsVal;
  raw_typeName : JsVal;
  raw_category : JsVal;
  raw_displayName : JsVal
}.

(** The [for] loop over [obj.properties]: the entry after the first
    ['Invalid group'] that has one. *)
Fixpoint invalidGroupSection (properties : list JsVal) : option JsVal :=
  match properties with
  | item :: rest =>
      match rest with
      | metadata :: _ =>
          match item with
          | JStr "Invalid group" => Some metadata
          | _ => invalidGroupSection rest
          end
      | [] => None
      end
  | [] => None
  end.

(** The body of [if (obj.object && obj.externalId)].  For the first ten
    elements it ends in a [console.log] of a template literal; what the
    parser can observe of it is that the conversion of the three values
    to strings may throw. *)
Definition addElement (obj : JsVal) (elementMap : JsMap RawRecord)
  : Outcome (JsMap RawRecord) :=
  let elementId := prop obj "object" in
  section ←!
    match prop obj "properties" with
    | JArr properties =>
        match invalidGroupSection properties with
        | Some metadata =>
            family ←! (a ←! readProp metadata "Family";
                       if truthyVal a then Returns a
                       else b ←! readProp metadata "Family Name";
                            Returns (orVal b (JStr "")));
            type ←! (a ←! readProp metadata "Type";
                     if truthyVal a then Returns a
                     else b ←! readProp metadata "Type Name";
                          Returns (orVal b (JStr "")));
            category ←! readProp metadata "Category";
            familyAndType ←! readProp metadata "Family and Type";
            Returns (family, type, orVal category (JStr ""),
                     orVal familyAndType (JStr ""))
        | None => Returns (JStr "", JStr "", JStr "", JStr "")
        end
    | _ => Returns (JStr "", JStr "", JStr "", JStr "")
    end;
  let '(family, type, category, familyAndType) := section in
  displayName ←!
    (if truthyVal familyAndType then Returns familyAndType
     else if truthyVal family then Returns family
     else if truthyVal type then Returns type
     else s ←! toStringVal elementId; Returns (JStr ("Element_" +:+ s)));
  key ←! toStringVal elementId;
  let elementMap :=
    mapSet elementMap key
      {| raw_elementId := elementId;
         raw_externalId := prop obj "externalId";
         raw_familyName := family;
         raw_typeName := type;
         raw_category := category;
         raw_displayName := displayName |} in
  _ ←! (if (length elementMap <=? 10)%nat
        then _ ←! toStringVal elementId;
             _ ←! toStringVal displayName;
             toStringVal category
        else Returns "");
  Returns elementMap.

(** The inner [traverse] of [parseJsonMetadata].  [fuel] bounds the depth
    of the recursion; [parseJsonMetadata] passes more than the payload is
    deep. *)
Fixpoint traverseJson (fuel : nat) (obj : JsVal) (elementMap : JsMap RawRecord)
  : Outcome (JsMap RawRecord) :=
  match fuel with
  | O => Throws "RangeError"
  | S fuel' =>
      if negb (truthyVal obj) then Returns elementMap
      else
        let each := fix each (children : list JsVal) (elementMap : JsMap RawRecord) :=
          match children with
          | [] => Returns elementMap
          | child :: rest =>
              elementMap ←! traverseJson fuel' child elementMap;
              each rest elementMap
          end in
        elementMap ←!
          (if truthyVal (prop obj "object") && truthyVal (prop obj "externalId")
           then addElement obj elementMap
           else Returns elementMap);
        elementMap ←!
          match prop obj "objects" with
          | JArr children => each children elementMap
          | _ => Returns elementMap
          end;
        match obj with
        | JArr children => each children elementMap
        | _ => Returns elementMap
        end
  end.

(** Nesting depth of a value. *)
Fixpoint depthVal (v : JsVal) : nat :=
  match v with
  | JArr elems => S (foldr (λ x d, depthVal x `max` d) 0%nat elems)
  | JObj props => S (foldr (λ kv d, depthVal kv.2 `max` d) 0%nat props)
  | _ => 0%nat
  end.

Definition parseJsonMetadata (jsonData : JsVal) : Outcome (JsMap RawRecord) :=
  let fuel := S (depthVal jsonData) in
  if truthyVal jsonData && truthyVal (prop jsonData "data")
  then traverseJson fuel (prop jsonData "data") []
  else if truthyVal jsonData && truthyVal (prop jsonData "objects")
  then traverseJson fuel jsonData []
  else Returns [].

(** A value whose conversion to a string goes through: no object with an
    entry of its own named [toString] is reached by it. *)
Fixpoint printable (v : JsVal) : bool :=
  match v with
  | JArr elems => forallb printable elems
  | JObj props => negb (bool_decide (is_Some (ownProp props "toString")))
  | _ => true
  end.

(** The labels the parser reads from a section. *)
Definition sectionLabels : list string :=
  ["Family"; "Family Name"; "Type"; "Type Name"; "Category"; "Family and Type"].

(** An element record the parser gets through: its pointer is printable
    and its labelled section, if it has one, is not [null] and has
    printable values under the labels that are read. *)
Definition elementOk (obj : JsVal) : bool :=
  if truthyVal (prop obj "object") && truthyVal (prop obj "externalId")
  then printable (prop obj "object")
       && match prop obj "properties" with
          | JArr properties =>
              match invalidGroupSection properties with
              | Some JNull | Some JUndefined => false
              | Some metadata =>
                  forallb (λ label, printable (prop metadata label))
                          sectionLabels
              | None => true
              end
          | _ => true
          end
  else true.

(** A payload in which every record is such an element. *)
Fixpoint regular (v : JsVal) : bool :=
  elementOk v
  && match v with
     | JArr elems => forallb regular elems
     | JObj props => forallb (λ kv, let '(_, x) := kv in regular x) props
     | _ => true
     end.

(** The record the engine functions work on, when the stored values are
    the strings of the export format. *)
Definition typedRecord (key : string) (r : RawRecord) : option MetadataRecord :=
  match raw_externalId r, raw_familyName r, raw_typeName r,
        raw_category r, raw_displayName r with
  | JStr ext, JStr fam, JStr typ, JStr cat, JStr disp =>
      Some {| elementId := key; externalId := ext; familyName := fam;
              typeName := typ; category := cat; displayName := disp |}
  | _, _, _, _, _ => None
  end.

Definition typedIndex (m : JsMap RawRecord) : option MetadataIndex :=
  mapM (λ kr, (λ r, (kr.1, r)) <$> typedRecord kr.1 kr.2) m.

(** What every record of a parsed index satisfies: it is stored under
    the string of its element pointer, and pointer, external id and
    display name are not falsy. *)
Definition wellFormedEntry (entry : string * RawRecord) : Prop :=
  toStringVal (raw_elementId entry.2) = Returns entry.1
  ∧ truthyVal (raw_elementId entry.2) = true
  ∧ truthyVal (raw_externalId entry.2) = true
  ∧ truthyVal (raw_displayName entry.2) = true.

(** ** Element lookup on the records as stored *)

(** [getElementMetadata] and [getMeshDisplayName] on the index that
    [parseJsonMetadata] returns, whose records hold the values of the
    payload as they were found. *)
Module Raw.

(** [metadata.externalId && metadata.externalId.toLowerCase().includes(guid)]:
    of the values that are not falsy only a string has a method
    [toLowerCase]; on any other the call throws. *)
Definition externalIdIncludes (metadata : RawRecord) (guid : string)
  : Outcome bool :=
  match raw_externalId metadata with
  | JStr s => Returns (Js.truthy s && Js.includes (Js.toLowerCase s) guid)
  | externalId =>
      if truthyVal externalId then Throws "TypeError" else Returns false
  end.

(** The inner loop [for (const [, metadata] of metadataRef.current)]. *)
Fixpoint findByGuid (index : JsMap RawRecord) (guid : string)
  : Outcome (option RawRecord) :=
  match index with
  | [] => Returns None
  | (_, metadata) :: rest =>
      hit ←! externalIdIncludes metadata guid;
      if hit then Returns (Some metadata) else findByGuid rest guid
  end.

(** The outer loop [for (const str of searchStrings)]. *)
Fixpoint guidLoop (index : JsMap RawRecord) (strs : list string)
  : Outcome (option RawRecord) :=
  match strs with
  | [] => Returns None
  | str :: rest =>
      match matchGuid str with
      | Some guidMatch =>
          found ←! findByGuid index (Js.toLowerCase guidMatch);
          match found with
          | Some metadata => Returns (Some metadata)
          | None => guidLoop index rest
          end
      | None => guidLoop index rest
      end
  end.

Definition getElementMetadata (metadataRef : option (JsMap RawRecord))
    (node : NodeData) : Outcome (option RawRecord) :=
  match metadataRef with
  | None => Returns None
  | Some index =>
      if (length index =? 0)%nat then Returns None
      else
        found ←! guidLoop index (searchStrings node);
        match found with
        | Some metadata => Returns (Some metadata)
        | None =>
            Returns (match numericElementId node with
                     | Some elementId => mapGet index elementId
                     | None => None
                     end)
        end
  end.

(** [getMeshDisplayName]: the [displayName] of the record found, as it
    is stored, or else the name of the cascade. *)
Definition getMeshDisplayName (metadataRef : option (JsMap RawRecord))
    (parents : list NodeData) (node : NodeData) (index : nat) : Outcome JsVal :=
  metadata ←! getElementMetadata metadataRef node;
  match metadata with
  | Some metadata => Returns (raw_displayName metadata)
  | None => Returns (JStr (fallbackName parents node index))
  end.

End Raw.

(** ** Uploads and the file history *)

(** [s.endsWith(suffix)] *)
Fixpoint endsWith (s suffix : string) : bool :=
  bool_decide (s = suffix)
  || match s with
     | EmptyString => false
     | String _ s' => endsWith s' suffix
     end.

(** [s.replace(/\.dae$/i, replacement)]: the pattern matches at the one
    position that leaves four characters, when these are [.dae] in any
    letter case. *)
Fixpoint replaceDaeSuffix (s replacement : string) : string :=
  if bool_decide (Js.toLowerCase s = ".dae") then replacement
  else match s with
       | EmptyString => EmptyString
       | String c s' => String c (replaceDaeSuffix s' replacement)
       end.

(** [metadataPath] of [loadModel]: [jsonPath ||
    modelPath.replace(/\.dae$/i, '.metadata.json')], [None] being
    [null]. *)
Definition metadataPath (modelPath : string) (jsonPath : option string) : string :=
  match jsonPath with
  | Some path =>
      if Js.truthy path then path
      else replaceDaeSuffix modelPath ".metadata.json"
  | None => replaceDaeSuffix modelPath ".metadata.json"
  end.

(** A [File] of the upload, as far as the handler reads it. *)
Record File := {
  file_name : string;
  file_size : N
}.

(** What [handleFileUpload] does with the files chosen. *)
Inductive Upload :=
| Ignored                      (* no file: the handler returns *)
| Rejected (message : string)  (* [setError(message)] *)
| Chosen (daeFile : File) (jsonFile : option File).
                               (* [addToHistory] and [loadModel] with the two *)

Definition isDae (f : File) : bool :=
  endsWith (Js.toLowerCase (file_name f)) ".dae".

Definition handleFileUpload (files : list File) : Upload :=
  if (length files =? 0)%nat then Ignored
  else
    match List.find isDae files with
    | None => Rejected "Please select a DAE file"
    | Some daeFile =>
        let baseName := replaceDaeSuffix (file_name daeFile) "" in
        let jsonFile :=
          List.find (λ f, bool_decide (file_name f = baseName +:+ ".metadata.json")
                          || bool_decide (file_name f = baseName +:+ ".json"))
                    files in
        Chosen daeFile jsonFile
    end.

(** An entry of the file history, as [saveFileToIndexedDB] builds it. *)
Record HistoryItem := {
  h_id : N;
  h_daeName : string;
  h_daeSize : N;
  h_daeFile : File;
  h_jsonName : option string;
  h_jsonSize : option N;
  h_jsonFile : option File;
  h_timestamp : string
}.

(** The object store [fileHistory] of the database, keyed by [id]. *)
Abbreviation FileStore := (gmap N HistoryItem).

(** [saveFileToIndexedDB]: the item built and the store after
    [store.put(item)], when the transaction completes.  [timestamp] is
    [new Date().toISOString()]. *)
Definition saveFileToIndexedDB (id : N) (daeFile : File) (jsonFile : option File)
    (timestamp : string) (store : FileStore) : HistoryItem * FileStore :=
  let item :=
    {| h_id := id;
       h_daeName := file_name daeFile;
       h_daeSize := file_size daeFile;
       h_daeFile := daeFile;
       h_jsonName :=
         match jsonFile with
         | Some json => if Js.truthy (file_name json) then Some (file_name json)
                        else None
         | None => None
         end;
       h_jsonSize :=
         match jsonFile with
         | Some json => if (file_size json =? 0)%N then None
                        else Some (file_size json)
         | None => None
         end;
       h_jsonFile := jsonFile;
       h_timestamp := timestamp |} in
  (item, <[id := item]> store).

(** [addToHistory], when the store operations succeed: [now] is
    [Date.now()], the state is the [fileHistory] of the component and
    the object store. *)
Definition addToHistory (now : N) (timestamp : string) (daeFile : File)
    (jsonFile : option File) (state : list HistoryItem * FileStore)
  : list HistoryItem * FileStore :=
  let '(fileHistory, store) := state in
  let '(item, store) := saveFileToIndexedDB now daeFile jsonFile timestamp store in
  let newHistory := take 10 (item :: fileHistory) in
  let store :=
    if (10 <=? length fileHistory)%nat then
      match last fileHistory with
      | Some oldestItem => delete (h_id oldestItem) store
      | None => store
      end
    else store in
  (newHistory, store).

(** The history shown and the store agree: at most ten entries, no id
    twice, and the store holds exactly the entries shown, each under its
    id. *)
Definition historyInSync (state : list HistoryItem * FileStore) : Prop :=
  let '(fileHistory, store) := state in
  (length fileHistory ≤ 10)%nat
  ∧ NoDup (h_id <$> fileHistory)
  ∧ dom store = list_to_set (h_id <$> fileHistory)
  ∧ Forall (λ item, store !! h_id item = Some item) fileHistory.

(** ** Invariants of the tree *)

(** The entries of a tree, their identities, and the identities of the
    meshes among some visits. *)
Definition treeItems (tree : list TreeNode) : list TreeItem :=
  tree ≫= tn_items.

Definition treeIds (tree : list TreeNode) : list string :=
  item_id <$> treeItems tree.

Definition meshUuids (visits : list Visit) : list string :=
  (λ child, node_uuid (v_node child))
    <$> filter (λ child, isMesh (v_node child)) visits.

(** An entry built for a mesh among the visits. *)
Definition entryOf (metadataRef : option MetadataIndex) (visits : list Visit)
    (item : TreeItem) : Prop :=
  ∃ child index,
    child ∈ visits ∧ isMesh (v_node child)
    ∧ item = treeItem metadataRef child index.

(** The set of claimed identities and the entries pushed so far agree. *)
Definition claimedBy (metadataRef : option MetadataIndex) (visits : list Visit)
    (c : Claimed) (items : list TreeItem) : Prop :=
  NoDup (item_id <$> items)
  ∧ (∀ u, u ∈ processedMeshes c ↔ u ∈ item_id <$> items)
  ∧ Forall (entryOf metadataRef visits) items
  ∧ Forall (λ item,
              objectsMap c !! item_id item = Some (v_ref (item_object item))
              ∧ visibilityMap c !! item_id item
                = Some (node_visible (v_node (item_object item))))
           items.

(** [w] is visited below [g]: in its subtree, and another object. *)
Definition below (g w : Visit) : Prop :=
  w ∈ traverseFrom g ∧ v_ref w ≠ v_ref g.

(** A node that the first traversal records in [groupNodes]: of type
    Group or Object3D, with at least one child. *)
Definition groupNode (v : Visit) : Prop :=
  info_isGroup (nodeInfo v) ∧ (0 < info_childCount (nodeInfo v))%nat.

(** A structural node: of type Group or Object3D. *)
Definition structural (v : Visit) : bool :=
  String.eqb (node_type (v_node v)) "Group"
  || String.eqb (node_type (v_node v)) "Object3D".

(** The trigger as amended: the structural nodes that have at least one
    child, renderable or not. *)
Definition structuralGroups (visits : list Visit) : list Visit :=
  filter (λ v, structural v
               && match obj_children (v_obj v) with
                  | [] => false
                  | _ :: _ => true
                  end)
         visits.

(** The trigger as the specification words it: the structural nodes
    that have a mesh below them. *)
Definition meshBelow (g : Visit) : bool :=
  existsb (λ w, isMesh (v_node w) && negb (bool_decide (v_ref w = v_ref g)))
          (traverseFrom g).

Definition renderableGroups (visits : list Visit) : list Visit :=
  filter (λ v, structural v && meshBelow v) visits.

(** The maps hold exactly the claimed identities, each with the
    reference and the [visible] flag of a mesh that carries it. *)
Definition registered (visits : list Visit) (c : Claimed) : Prop :=
  dom (objectsMap c) = processedMeshes c
  ∧ dom (visibilityMap c) = processedMeshes c
  ∧ ∀ objectId, objectId ∈ processedMeshes c →
      ∃ child, child ∈ visits ∧ isMesh (v_node child)
               ∧ node_uuid (v_node child) = objectId
               ∧ objectsMap c !! objectId = Some (v_ref child)
               ∧ visibilityMap c !! objectId = Some (node_visible (v_node child)).

(** Everything claimed so far lies below one of the group nodes already
    done. *)
Definition claimedBelow (visits : list Visit) (done : list NodeInfo)
    (c : Claimed) : Prop :=
  ∀ objectId, objectId ∈ processedMeshes c →
    ∃ groupInfo g w,
      groupInfo ∈ done ∧ findNodeByUuid visits (info_uuid groupInfo) = Some g
      ∧ below g w ∧ isMesh (v_node w) ∧ node_uuid (v_node w) = objectId.

(** A group entry as [groupNodes.forEach] pushes it for [groupInfo]. *)
Definition groupEntry (metadataRef : option MetadataIndex)
    (expandedCategories : gmap string bool) (visits : list Visit)
    (groupInfo : NodeInfo) (entry : TreeNode) : Prop :=
  tn_id entry = info_uuid groupInfo
  ∧ tn_type entry = GroupKind
  ∧ tn_depth entry = Some (info_depth groupInfo)
  ∧ tn_count entry = length (tn_items entry)
  ∧ tn_items entry ≠ []
  ∧ tn_expanded entry = isExpanded expandedCategories (tn_name entry)
  ∧ ∃ g, findNodeByUuid visits (info_uuid groupInfo) = Some g
         ∧ Forall (λ item, ∃ child index,
                      below g child ∧ isMesh (v_node child)
                      ∧ item = treeItem metadataRef child index)
                  (tn_items entry).

(** ** Sample data *)

Module Sample.

Definition userData : UserData :=
  {| isText := false; revitId := ""; guid := ""; ud_elementId := "" |}.

Definition group (name uuid : string) (children : list Object3D) : Object3D :=
  Obj {| node_name := name; node_uuid := uuid; node_id := 1;
         node_type := "Group"; node_visible := true;
         node_userData := userData; node_mesh := None |} children.

Definition meshData (geometryName : string) (position : N) (material : Material)
  : MeshData :=
  {| geometry := {| geo_name := geometryName; geo_index := None;
                    geo_position := Some position |};
     material := material |}.

Definition meshNode (name uuid : string) (m : MeshData) : NodeData :=
  {| node_name := name; node_uuid := uuid; node_id := 2;
     node_type := "Mesh"; node_visible := true;
     node_userData := userData; node_mesh := Some m |}.

Definition mesh (name uuid materialName : string) : Object3D :=
  Obj (meshNode name uuid (meshData "" 900 (SingleMaterial materialName))) [].

(** A mesh of 30 triangles without an index buffer. *)
Definition label : NodeData := meshNode "Label" "u7" (meshData "" 90 NoMaterial).

(** A mesh without any name. *)
Definition unnamed : NodeData :=
  meshNode "" "0a1b2c3d-0000-4000-8000-000000000000" (meshData "" 900 NoMaterial).

(** A mesh whose name carries an element number. *)
Definition wall4821 : NodeData :=
  meshNode "Wall-Element_4821-mesh" "u8" (meshData "" 900 NoMaterial).

Definition guidA : string := "00000000-0000-0000-0000-000000000001".
Definition guidB : string := "AAAAAAAA-bbbb-cccc-dddd-eeeeeeeeeeee".

Definition record (elementId externalId displayName : string) : MetadataRecord :=
  {| elementId := elementId; externalId := externalId; familyName := "";
     typeName := ""; category := ""; displayName := displayName |}.

(** The composite external identifier of the specification's example. *)
Definition segmented : MetadataRecord :=
  record "12" "00000000-0000-0000-0000-000000000001-abcdef12" "Basic Wall".

Definition other : MetadataRecord :=
  record "13" "aaaaaaaa-BBBB-cccc-dddd-eeeeeeeeeeee" "Door".

(** A node whose name holds the GUID of the example. *)
Definition wallGuid : NodeData :=
  meshNode "Wall [00000000-0000-0000-0000-000000000001]" "u5"
           (meshData "" 900 NoMaterial).

(** A node with two candidates: one in its name, one in its geometry
    name. *)
Definition twoGuids : NodeData :=
  meshNode guidA "u6" (meshData guidB 900 NoMaterial).

(** A scene with two structural groups: the root, which holds the two
    meshes, and a group of groups without any mesh. *)
Definition scene : Object3D :=
  group "model" "g1"
    [ mesh "Wall-Element_4821-mesh" "m1" "";
      group "" "g2" [group "" "g3" []];
      mesh "" "m2" "Structural_Column_Concrete" ].

(** Two visits of its traversal: the root, and the second mesh. *)
Definition rootVisit : Visit :=
  {| v_ref := []; v_parents := []; v_obj := scene |}.

Definition columnVisit : Visit :=
  {| v_ref := [2]%nat; v_parents := [obj_data scene];
     v_obj := mesh "" "m2" "Structural_Column_Concrete" |}.

(** The same meshes below a root that is the only group. *)
Definition flatScene : Object3D :=
  group "model" "g1"
    [ mesh "Wall-Element_4821-mesh" "m1" "";
      mesh "" "m2" "Structural_Column_Concrete" ].

(** A payload with one element whose labelled section is [null]:
    [{"data": {"object": 1, "externalId": "x",
               "properties": ["Invalid group", null]}}]. *)
Definition nullSection : JsVal :=
  JObj [("data",
         JObj [("object", JNum 1); ("externalId", JStr "x");
               ("properties", JArr [JStr "Invalid group"; JNull])])].

(** A well-formed payload of two elements, one nested in a list. *)
Definition payload : JsVal :=
  JObj [("data",
         JObj [("objects",
                JArr [ JObj [("object", JNum 12);
                             ("externalId",
                              JStr "00000000-0000-0000-0000-000000000001-abcdef12");
                             ("properties",
                              JArr [JStr "Constraints"; JObj [];
                                    JStr "Invalid group";
                                    JObj [("Family Name", JStr "Basic Wall");
                                          ("Type", JStr "Generic 200");
                                          ("Category", JStr "OST_Walls")]])];
                       JArr [JObj [("object", JStr "7");
                                   ("externalId", JStr "e7")]] ])])].

(** A payload whose one element has a number as its external id:
    [{"data": {"object": 1, "externalId": 7}}]. *)
Definition numericExternalId : JsVal :=
  JObj [("data", JObj [("object", JNum 1); ("externalId", JNum 7)])].

(** The index the parser returns for it. *)
Definition numericIndex : JsMap RawRecord :=
  [("1", {| raw_elementId := JNum 1; raw_externalId := JNum 7;
            raw_familyName := JStr ""; raw_typeName := JStr "";
            raw_category := JStr ""; raw_displayName := JStr "Element_1" |})].

(** The mesh of 30 triangles as the loader delivers it, below a root. *)
Definition loadedLabel : LoadedObject :=
  Loaded {| ld_name := "model"; ld_uuid := "g1"; ld_id := 1;
            ld_type := "Group"; ld_visible := true; ld_mesh := None |}
         [ Loaded {| ld_name := "Label"; ld_uuid := "u7"; ld_id := 2;
                     ld_type := "Mesh"; ld_visible := true;
                     ld_mesh := Some (meshData "" 90 NoMaterial) |} [] ].

Definition item (uuid name : string) (ref : ObjRef) : TreeItem :=
  {| item_id := uuid; item_name := name;
     item_object := {| v_ref := ref; v_parents := [];
                       v_obj := mesh name uuid "" |};
     item_type := MeshItem; item_category := "Walls"; item_fullPath := name |}.

(** A group of three members. *)
Definition walls : TreeNode :=
  {| tn_id := "Walls"; tn_name := "Walls"; tn_count := 3;
     tn_items := [item "u1" "Wall_1" [0]; item "u2" "Wall_2" [1];
                  item "u3" "Wall_3" [2]]%nat;
     tn_expanded := false; tn_type := CategoryKind; tn_depth := None |}.

(** The three members are in the object map; the third is hidden. *)
Definition state : ViewerState :=
  {| modelTree := [walls];
     objectsMapRef := {[ "u1" := [0]; "u2" := [1]; "u3" := [2] ]}%nat;
     objectVisibility := {[ "u1" := true; "u2" := true; "u3" := false ]};
     visible := λ ref, negb (bool_decide (ref = [2]%nat));
     builtinVisible := ∅;
     modelBrowserSearch := " " |}.

(** The same state with all three members visible. *)
Definition shown : ViewerState :=
  {| modelTree := [walls];
     objectsMapRef := {[ "u1" := [0]; "u2" := [1]; "u3" := [2] ]}%nat;
     objectVisibility := {[ "u1" := true; "u2" := true; "u3" := true ]};
     visible := λ _, true;
     builtinVisible := ∅;
     modelBrowserSearch := "" |}.

End Sample.

(** * Properties *)

(** ** Strings *)

Lemma append_cons c (s t : string) : String c s +:+ t = String c (s +:+ t).
Proof. reflexivity. Qed.

Lemma append_nil (t : string) : "" +:+ t = t.
Proof. reflexivity. Qed.

Lemma length_append (s t : string) :
  String.length (s +:+ t) = (String.length s + String.length t)%nat.
Proof.
  induction s as [|c s IH]; [done|]. rewrite append_cons. simpl. by rewrite IH.
Qed.

Lemma append_assoc (s t u : string) : (s +:+ t) +:+ u = s +:+ (t +:+ u).
Proof. induction s as [|c s IH]; [done|]. rewrite !append_cons. by rewrite IH. Qed.

Lemma append_empty_r (s : string) : s +:+ "" = s.
Proof. induction s as [|c s IH]; [done|]. by rewrite append_cons, IH. Qed.

Lemma startsWith_spec p s : Js.startsWith p s = true ↔ ∃ t, s = p +:+ t.
Proof.
  revert s. induction p as [|a p IH]; intros s; simpl.
  - split; [|done]. intros _. by exists s.
  - destruct s as [|b s].
    + split; [done|]. intros [t Ht]. by rewrite append_cons in Ht.
    + rewrite andb_true_iff, bool_decide_eq_true, IH. split.
      * intros [-> [t ->]]. exists t. by rewrite append_cons.
      * intros [t Ht]. rewrite append_cons in Ht. injection Ht as -> ->.
        split; [done|]. by exists t.
Qed.

Lemma includes_spec s p : Js.includes s p = true ↔ ∃ a b, s = a +:+ p +:+ b.
Proof.
  induction s as [|c s IH].
  - simpl. rewrite orb_false_r, startsWith_spec. split.
    + intros [t Ht]. by exists "", t.
    + intros (a & b & Hab). destruct a as [|x a]; [|by rewrite append_cons in Hab].
      by exists b.
  - cbn [Js.includes]. rewrite orb_true_iff, startsWith_spec, IH. split.
    + intros [[t Ht]|(a & b & ->)].
      * by exists "", t.
      * exists (String c a), b. by rewrite append_cons.
    + intros (a & b & Hab). destruct a as [|x a].
      * left. by exists b.
      * right. rewrite append_cons in Hab. injection Hab as -> ->. by exists a, b.
Qed.

Lemma includes_trans s p q :
  Js.includes s p = true → Js.includes p q = true → Js.includes s q = true.
Proof.
  rewrite !includes_spec. intros (a & b & ->) (a' & b' & ->).
  exists (a +:+ a'), (b' +:+ b). by rewrite !append_assoc.
Qed.

Lemma includes_refl s : Js.includes s s = true.
Proof. apply includes_spec. exists "", "". by rewrite append_nil, append_empty_r. Qed.

Lemma lowerChar_idem c : Js.lowerChar (Js.lowerChar c) = Js.lowerChar c.
Proof. by destruct c as [[] [] [] [] [] [] [] []]. Qed.

Lemma toLowerCase_idem s : Js.toLowerCase (Js.toLowerCase s) = Js.toLowerCase s.
Proof. induction s as [|c s IH]; [done|]. simpl. by rewrite lowerChar_idem, IH. Qed.

Lemma toLowerCase_append s t :
  Js.toLowerCase (s +:+ t) = Js.toLowerCase s +:+ Js.toLowerCase t.
Proof. induction s as [|c s IH]; [done|]. rewrite append_cons. simpl. by rewrite IH. Qed.

Lemma includes_toLowerCase s p :
  Js.includes s p = true → Js.includes (Js.toLowerCase s) (Js.toLowerCase p) = true.
Proof.
  rewrite !includes_spec. intros (a & b & ->).
  exists (Js.toLowerCase a), (Js.toLowerCase b). by rewrite !toLowerCase_append.
Qed.

Lemma isSpace_lowerChar c : Js.isSpace (Js.lowerChar c) = Js.isSpace c.
Proof. by destruct c as [[] [] [] [] [] [] [] []]. Qed.

(** ** Visibility toggles *)

Section toggles.

Implicit Types (st : ViewerState) (item : TreeItem) (obj : ObjRef).

(** What one call of the [forEach] callback leaves, when it returns. *)
Lemma setItemVisible_step b st item st' :
  setItemVisible b st item = Returns st' →
  modelTree st' = modelTree st
  ∧ objectsMapRef st' = objectsMapRef st
  ∧ (∀ obj, visible st' obj
            = if decide (objectsMapRef st !! item_id item = Some obj)
              then b else visible st obj)
  ∧ (∀ objectId, objectId ≠ item_id item →
                 objectVisibility st' !! objectId = objectVisibility st !! objectId)
  ∧ (objectVisibility st' !! item_id item = objectVisibility st !! item_id item
     ∨ objectVisibility st' !! item_id item = Some b)
  ∧ (is_Some (objectsMapRef st !! item_id item) →
     objectVisibility st' !! item_id item = Some b).
Proof.
  unfold setItemVisible, lookupObject.
  destruct (objectsMapRef st !! item_id item) as [o|] eqn:Ho.
  - simpl. intros [= <-]. simpl. split; [done|]. split; [done|]. split; [|split; [|split]].
    + intros obj. destruct (decide (Some o = Some obj)) as [[= ->]|Hne].
      * apply fn_lookup_insert.
      * apply fn_lookup_insert_ne. by intros ->.
    + intros objectId Hne. by rewrite lookup_insert_ne.
    + right. apply lookup_insert_eq.
    + intros _. apply lookup_insert_eq.
  - assert (∀ obj, (if decide (@None ObjRef = Some obj) then b else visible st obj)
                   = visible st obj) as Hnone by done.
    destruct (bool_decide (item_id item ∈ prototypeNames)).
    { simpl. intros [= <-]. simpl. split; [done|]. split; [done|].
      split; [done|]. split; [|split].
      - intros objectId Hne. by rewrite lookup_insert_ne.
      - right. apply lookup_insert_eq.
      - by intros [? [=]]. }
    destruct (bool_decide (item_id item = "visible")).
    2:{ intros [= <-]. split; [done|]. split; [done|]. split; [done|].
        split; [done|]. split; [by left|]. by intros [? [=]]. }
    destruct (builtinVisible st !! "__proto__") as [[]|]; simpl; [done| |].
    + intros [= <-]. split; [done|]. split; [done|]. split; [done|].
      split; [done|]. split; [by left|]. by intros [? [=]].
    + intros [= <-]. split; [done|]. split; [done|]. split; [done|].
      split; [done|]. split; [by left|]. by intros [? [=]].
Qed.

(** A flag, and a state entry, that already has the target value keeps
    it. *)
Lemma forEach_setItemVisible_stable b items st st' obj objectId :
  forEachOutcome (setItemVisible b) items st = Returns st' →
  (visible st obj = b → visible st' obj = b)
  ∧ (objectVisibility st !! objectId = Some b →
     objectVisibility st' !! objectId = Some b).
Proof.
  revert st. induction items as [|item items IH]; intros st; simpl.
  - by intros [= <-].
  - destruct (setItemVisible b st item) as [st1|] eqn:Hstep; [|done]. simpl.
    intros Hrest. destruct (IH st1 Hrest) as [IHv IHs].
    destruct (setItemVisible_step b st item st1 Hstep)
      as (_ & _ & Hvis & Hother & Hself & _).
    split.
    + intros Hv. apply IHv. rewrite Hvis. by destruct (decide _).
    + intros Hs. apply IHs.
      destruct (decide (objectId = item_id item)) as [->|Hne].
      * destruct Hself as [Hsame|Hset]; [by rewrite Hsame|done].
      * by rewrite Hother.
Qed.

(** The loop as a whole, when it returns: every member that has its
    object in the map ends with the target value, in the scene and in the
    visibility state; objects and identities outside the group are left
    alone, and so are the map and the tree. *)
Lemma forEach_setItemVisible b items st st' :
  forEachOutcome (setItemVisible b) items st = Returns st' →
  modelTree st' = modelTree st
  ∧ objectsMapRef st' = objectsMapRef st
  ∧ (∀ item obj,
       item ∈ items → objectsMapRef st !! item_id item = Some obj →
       visible st' obj = b ∧ objectVisibility st' !! item_id item = Some b)
  ∧ (∀ obj,
       (∀ item, item ∈ items → objectsMapRef st !! item_id item ≠ Some obj) →
       visible st' obj = visible st obj)
  ∧ (∀ objectId,
       (∀ item, item ∈ items → item_id item ≠ objectId) →
       objectVisibility st' !! objectId = objectVisibility st !! objectId).
Proof.
  revert st. induction items as [|x items IH]; intros st; simpl.
  - intros [= <-]. split; [done|]. split; [done|].
    split; [by intros item obj ?%elem_of_nil|done].
  - destruct (setItemVisible b st x) as [st1|] eqn:Hstep; [|done]. simpl.
    intros Hrest.
    destruct (setItemVisible_step b st x st1 Hstep)
      as (Htree & Hmap & Hvis & Hother & _ & Hself).
    destruct (IH st1 Hrest) as (IHtree & IHmap & IHmem & IHv & IHs).
    split; [by rewrite IHtree|]. split; [by rewrite IHmap|].
    split; [|split].
    + intros item obj Hin Hobj. apply elem_of_cons in Hin as [->|Hin].
      * destruct (forEach_setItemVisible_stable b items st1 st' obj (item_id x)
                    Hrest) as [Hv Hs].
        split.
        -- apply Hv. rewrite Hvis. by rewrite decide_True.
        -- apply Hs, Hself. by exists obj.
      * apply IHmem; [done|]. by rewrite Hmap.
    + intros obj Hout. rewrite IHv.
      * rewrite Hvis. rewrite decide_False; [done|]. apply Hout. by left.
      * intros item Hin. rewrite Hmap. apply Hout. by right.
    + intros objectId Hout. rewrite IHs.
      * apply Hother. intros ->. by apply (Hout x); [left|].
      * intros item Hin. apply Hout. by right.
Qed.

(** With every member in the map, the loop returns. *)
Lemma forEach_setItemVisible_returns b items st :
  (∀ item, item ∈ items → is_Some (objectsMapRef st !! item_id item)) →
  ∃ st', forEachOutcome (setItemVisible b) items st = Returns st'.
Proof.
  revert st. induction items as [|x items IH]; intros st Hall; simpl.
  - by exists st.
  - destruct (Hall x) as [o Ho]; [by left|].
    assert (∃ st1, setItemVisible b st x = Returns st1) as [st1 Hstep].
    { unfold setItemVisible, lookupObject. rewrite Ho. simpl. by eexists. }
    rewrite Hstep. simpl. apply IH. intros item Hin.
    destruct (setItemVisible_step b st x st1 Hstep) as (_ & -> & _).
    apply Hall. by right.
Qed.

(** [every] on a group whose members are all in the map. *)
Lemma allVisible_members st category :
  (∀ item, item ∈ tn_items category →
           is_Some (objectsMapRef st !! item_id item)) →
  allVisible st category = true
  ↔ ∀ item obj, member st category item obj → visible st obj = true.
Proof.
  unfold allVisible, member. intros Hall. rewrite forallb_forall. split.
  - intros Hevery item obj [Hin Hobj].
    specialize (Hevery item (proj1 (list_elem_of_In _ _) Hin)).
    unfold lookupObject in Hevery. rewrite Hobj in Hevery. simpl in Hevery.
    apply bool_decide_eq_true in Hevery. by injection Hevery.
  - intros Hshown item Hin. apply list_elem_of_In in Hin.
    destruct (Hall item Hin) as [obj Hobj].
    unfold lookupObject. rewrite Hobj. simpl.
    apply bool_decide_eq_true. f_equal. by apply (Hshown item obj).
Qed.

(** A hidden member makes [every] fail, whatever the other members
    are. *)
Lemma allVisible_hidden st category item obj :
  member st category item obj → visible st obj = false →
  allVisible st category = false.
Proof.
  intros [Hin Hobj] Hhidden. apply not_true_is_false. unfold allVisible.
  rewrite forallb_forall. intros Hevery.
  specialize (Hevery item (proj1 (list_elem_of_In _ _) Hin)).
  unfold lookupObject in Hevery. rewrite Hobj in Hevery. simpl in Hevery.
  apply bool_decide_eq_true in Hevery. injection Hevery as Hshown.
  congruence.
Qed.

(** C8. Bulk group visibility toggle.  Whenever the toggle of the group
    found for [categoryId] returns: if some member is hidden, every
    member that has an object is visible afterwards, in the scene and in
    the visibility state; objects and identities outside the group, the
    map and the tree are as before.  For a group whose members all have
    their object in the map, as in every tree that is built, the toggle
    returns and sets every member to one value, which is hidden exactly
    when all members were visible, and visible otherwise. *)
Theorem toggleCategoryVisibility_bulk st categoryId category :
  List.find (λ cat, bool_decide (tn_id cat = categoryId)) (modelTree st)
    = Some category →
  (∀ st', toggleCategoryVisibility categoryId st = Returns st' →
     ((∃ hidden obj, member st category hidden obj ∧ visible st obj = false) →
      ∀ item obj, member st category item obj →
        visible st' obj = true
        ∧ objectVisibility st' !! item_id item = Some true)
     ∧ (∀ obj,
          (∀ item, item ∈ tn_items category →
                   objectsMapRef st !! item_id item ≠ Some obj) →
          visible st' obj = visible st obj)
     ∧ (∀ objectId,
          (∀ item, item ∈ tn_items category → item_id item ≠ objectId) →
          objectVisibility st' !! objectId = objectVisibility st !! objectId)
     ∧ objectsMapRef st' = objectsMapRef st
     ∧ modelTree st' = modelTree st)
  ∧ ((∀ item, item ∈ tn_items category →
              is_Some (objectsMapRef st !! item_id item)) →
     ∃ st' newVisibility,
       toggleCategoryVisibility categoryId st = Returns st'
       ∧ (newVisibility = false
          ↔ ∀ item obj, member st category item obj → visible st obj = true)
       ∧ ∀ item obj, member st category item obj →
           visible st' obj = newVisibility
           ∧ objectVisibility st' !! item_id item = Some newVisibility).
Proof.
  intros Hfind. unfold toggleCategoryVisibility. rewrite Hfind. split.
  - intros st' Hloop.
    destruct (forEach_setItemVisible _ _ _ _ Hloop)
      as (Htree & Hmap & Hmem & Hframe & Hstate).
    split; [|done].
    intros (hidden & obj & Hhidden & Hflag) item obj' [Hin Hobj'].
    rewrite (allVisible_hidden _ _ _ _ Hhidden Hflag) in Hmem.
    by apply Hmem.
  - intros Hall.
    destruct (forEach_setItemVisible_returns (negb (allVisible st category))
                (tn_items category) st Hall) as [st' Hloop].
    exists st', (negb (allVisible st category)). split; [done|].
    destruct (forEach_setItemVisible _ _ _ _ Hloop) as (_ & _ & Hmem & _).
    split.
    + rewrite negb_false_iff. by apply allVisible_members.
    + intros item obj [Hin Hobj]. by apply Hmem.
Qed.

(** The group of three with two members visible and one hidden is shown
    as a whole; with all three visible it is hidden as a whole. *)
Lemma toggleCategoryVisibility_bulk_witness :
  (visible Sample.state [2]%nat = false
   ∧ ∃ st', toggleCategoryVisibility "Walls" Sample.state = Returns st'
            ∧ visible st' [0]%nat = true ∧ visible st' [1]%nat = true
            ∧ visible st' [2]%nat = true)
  ∧ ∃ st', toggleCategoryVisibility "Walls" Sample.shown = Returns st'
           ∧ visible st' [0]%nat = false ∧ visible st' [1]%nat = false
           ∧ visible st' [2]%nat = false.
Proof.
  assert (∀ st, tn_items Sample.walls
                = [Sample.item "u1" "Wall_1" [0]%nat;
                   Sample.item "u2" "Wall_2" [1]%nat;
                   Sample.item "u3" "Wall_3" [2]%nat]) as Hitems by done.
  assert (∀ st, objectsMapRef st = objectsMapRef Sample.state →
            ∀ item, item ∈ tn_items Sample.walls →
                    is_Some (objectsMapRef st !! item_id item)) as Hown.
  { intros st -> item Hin. apply (bool_decide_unpack _).
    repeat (apply elem_of_cons in Hin as [->|Hin]; [by vm_compute|]).
    by apply elem_of_nil in Hin. }
  assert (∀ st, objectsMapRef st = objectsMapRef Sample.state →
            member st Sample.walls (Sample.item "u1" "Wall_1" [0]%nat) [0]%nat
            ∧ member st Sample.walls (Sample.item "u2" "Wall_2" [1]%nat) [1]%nat
            ∧ member st Sample.walls (Sample.item "u3" "Wall_3" [2]%nat) [2]%nat)
    as Hmembers.
  { intros st Hmap. unfold member. rewrite Hmap.
    split; [|split]; (split; [|reflexivity]); simpl.
    - by left.
    - right. by left.
    - right. right. by left. }
  split.
  - split; [reflexivity|].
    destruct (toggleCategoryVisibility_bulk Sample.state "Walls" Sample.walls)
      as [_ Hsets]; [reflexivity|].
    destruct (Hsets (Hown Sample.state eq_refl))
      as (st' & newVisibility & Hreturns & Htarget & Hset).
    destruct (Hmembers Sample.state eq_refl) as (H1 & H2 & H3).
    exists st'. split; [exact Hreturns|].
    destruct newVisibility.
    + split; [apply (Hset _ _ H1)|]. split; [apply (Hset _ _ H2)|].
      apply (Hset _ _ H3).
    + pose proof (proj1 Htarget eq_refl _ _ H3) as Hshown. discriminate.
  - destruct (toggleCategoryVisibility_bulk Sample.shown "Walls" Sample.walls)
      as [_ Hsets]; [reflexivity|].
    destruct (Hsets (Hown Sample.shown eq_refl))
      as (st' & newVisibility & Hreturns & Htarget & Hset).
    destruct (Hmembers Sample.shown eq_refl) as (H1 & H2 & H3).
    exists st'. split; [exact Hreturns|].
    destruct newVisibility.
    + assert (true = false) as Habs; [|discriminate].
      apply Htarget. intros item obj _. reflexivity.
    + split; [apply (Hset _ _ H1)|]. split; [apply (Hset _ _ H2)|].
      apply (Hset _ _ H3).
Defined.

(** The toggle of one object finds something exactly under the keys of
    the map and the names the map inherits. *)
Lemma lookupObject_unknown st objectId :
  objectsMapRef st !! objectId = None → ¬ inheritedName st objectId →
  lookupObject st objectId = None.
Proof.
  intros Hown Hinherited. unfold lookupObject. rewrite Hown.
  rewrite bool_decide_eq_false_2 by (intros Hin; apply Hinherited; by left).
  case_bool_decide as Hvisible; [|done].
  destruct (builtinVisible st !! "__proto__") as [flag|] eqn:Hflag; [|done].
  destruct Hinherited. right. split; [done|]. rewrite Hflag. by eexists.
Qed.

(** C10 (amended). No-op on an unknown identity: a toggle of an identity
    that is neither a key of the object map nor a name that the map
    inherits returns and leaves the state as it was, every [visible]
    flag and every entry of the visibility state included; and a toggle
    that leaves the state as it was is one of an identity that is not a
    key of the map nor a name of [Object.prototype].  A group toggle with
    an id that no tree node has returns and leaves the state as it
    was. *)
Theorem toggle_unknown_identity_noop st objectId categoryId :
  (objectsMapRef st !! objectId = None → ¬ inheritedName st objectId →
     toggleObjectVisibility objectId st = Returns st)
  ∧ (toggleObjectVisibility objectId st = Returns st →
     objectsMapRef st !! objectId = None ∧ objectId ∉ prototypeNames)
  ∧ ((∀ cat, cat ∈ modelTree st → tn_id cat ≠ categoryId) →
     toggleCategoryVisibility categoryId st = Returns st).
Proof.
  split; [|split].
  - intros Hown Hinherited. unfold toggleObjectVisibility.
    by rewrite lookupObject_unknown.
  - unfold toggleObjectVisibility, lookupObject.
    destruct (objectsMapRef st !! objectId) as [o|] eqn:Ho.
    { simpl. intros [= Hsame].
      assert (visible st o = negb (visible st o)) as Hflip.
      { rewrite <- Hsame at 1. simpl. apply fn_lookup_insert. }
      by destruct (visible st o). }
    intros Hsame. split; [done|]. intros Hin.
    rewrite (bool_decide_eq_true_2 _ Hin) in Hsame. simpl in Hsame.
    injection Hsame as Hsame.
    assert (builtinVisible st !! objectId
            = Some (negb (default false
                            match builtinVisible st !! objectId with
                            | Some flag => Some flag
                            | None => builtinVisible st !! "__proto__"
                            end))) as Hflip.
    { rewrite <- Hsame at 1. simpl. apply lookup_insert_eq. }
    destruct (builtinVisible st !! objectId) as [[]|]; simpl in Hflip; done.
  - intros Hnone. unfold toggleCategoryVisibility.
    destruct (List.find _ _) as [cat|] eqn:Hfind; [|done].
    apply find_some in Hfind as [Hin Hid].
    apply bool_decide_eq_true in Hid.
    by destruct (Hnone cat (proj2 (list_elem_of_In _ _) Hin)).
Qed.

Lemma toggle_unknown_identity_noop_witness :
  toggleObjectVisibility "u9" Sample.state = Returns Sample.state
  ∧ toggleCategoryVisibility "Doors" Sample.state = Returns Sample.state.
Proof.
  destruct (toggle_unknown_identity_noop Sample.state "u9" "Doors")
    as (Hobj & _ & Hcat).
  split.
  - apply Hobj; [reflexivity|]. intros [Hin|[Hname _]]; [|discriminate].
    revert Hin. apply (bool_decide_unpack _). by vm_compute.
  - apply Hcat. intros cat Hin.
    apply list_elem_of_singleton in Hin as ->. discriminate.
Defined.

(** C10 as stated fails for an identity that the map inherits:
    ["constructor"] is not in the object map, and yet its toggle adds an
    entry to the visibility state. *)
Lemma toggle_inherited_identity_counterexample :
  objectsMapRef Sample.state !! "constructor" = None
  ∧ objectVisibility Sample.state !! "constructor" = None
  ∧ ∃ st', toggleObjectVisibility "constructor" Sample.state = Returns st'
           ∧ objectVisibility st' !! "constructor" = Some true.
Proof.
  split; [reflexivity|]. split; [reflexivity|].
  eexists. split; [reflexivity|]. reflexivity.
Qed.

End toggles.

(** ** Search *)

Section search.

Implicit Types (tree : list TreeNode) (category : TreeNode) (item : TreeItem).

Lemma filterTree_blank tree q : Js.trim q = "" → filterTree tree q = tree.
Proof. intros Hq. unfold filterTree. by rewrite Hq. Qed.

Lemma filterTree_query tree q :
  Js.trim q ≠ "" →
  filterTree tree q
  = filter (λ category, (0 <? length (tn_items category))%nat)
           (searched (Js.toLowerCase q) <$> tree).
Proof.
  intros Hq. unfold filterTree, Js.truthy.
  by rewrite (bool_decide_eq_false_2 _ Hq).
Qed.

Lemma filter_twice {A} (P : A → Prop) `{∀ x, Decision (P x)} (l : list A) :
  filter P (filter P l) = filter P l.
Proof.
  induction l as [|x l IH]; [done|].
  rewrite (filter_cons P x l). destruct (decide (P x)) as [HP|HP]; [|done].
  by rewrite (filter_cons_True P x _ HP), IH.
Qed.

Lemma searched_twice s category : searched s (searched s category) = searched s category.
Proof.
  unfold searched at 1 3. unfold withItems; simpl. unfold searchHit; simpl.
  by rewrite filter_twice.
Qed.

Lemma search_idempotent tree q : filterTree (filterTree tree q) q = filterTree tree q.
Proof.
  destruct (decide (Js.trim q = "")) as [Hq|Hq].
  - by rewrite !filterTree_blank.
  - rewrite !filterTree_query by done.
    induction tree as [|category tree IH]; [done|].
    rewrite fmap_cons, filter_cons.
    destruct (decide _) as [Hne|Hne]; [|done].
    rewrite fmap_cons, searched_twice, filter_cons.
    destruct (decide _) as [_|Hne']; [|done]. by rewrite IH.
Qed.

Lemma isSpace_whiteSpace c :
  Js.isSpace c = true ↔ nat_of_ascii c ∈ whiteSpace.
Proof.
  unfold Js.isSpace, Js.code, whiteSpace. generalize (nat_of_ascii c) as n.
  intros n. rewrite !elem_of_cons, elem_of_nil.
  rewrite !orb_true_iff, andb_true_iff, !Nat.leb_le, !Nat.eqb_eq. lia.
Qed.

Lemma trimEnd_nonspace c s : Js.isSpace c = false → Js.trimEnd (String c s) ≠ "".
Proof. intros Hc. simpl. destruct (Js.trimEnd s); by rewrite ?Hc. Qed.

Lemma trim_blank s : Js.trim s = "" ↔ Js.dropWhile Js.isSpace s = "".
Proof.
  unfold Js.trim. induction s as [|c s IH]; [done|]. simpl.
  destruct (Js.isSpace c) eqn:Hc; [done|]. split; [|done].
  intros H. by apply trimEnd_nonspace in H.
Qed.

(** The guard of the search is passed exactly by the queries that have
    nothing but white space. *)
Lemma trim_empty_blank q : Js.trim q = "" ↔ blank q.
Proof.
  rewrite trim_blank. unfold blank. induction q as [|c q IH]; simpl.
  - split; [|done]. by intros _ c ?%elem_of_nil.
  - destruct (Js.isSpace c) eqn:Hc.
    + rewrite IH. split.
      * intros Hq x [->|Hx]%elem_of_cons; [by apply isSpace_whiteSpace|by apply Hq].
      * intros Hq x Hx. apply Hq. by right.
    + split; [done|]. intros Hq.
      assert (Js.isSpace c = true) as Habs; [|congruence].
      apply isSpace_whiteSpace, Hq. by left.
Qed.

(** The predicate of the filter is containment ignoring case. *)
Lemma searchHit_matches q category item :
  searchHit (Js.toLowerCase q) category item ↔ matchesQuery q category item.
Proof.
  unfold searchHit, matchesQuery, containsIgnoringCase.
  rewrite Is_true_true, orb_true_iff, !includes_spec. done.
Qed.

Lemma filter_keeps q category items :
  keeps (matchesQuery q category) items
        (filter (λ item, searchHit (Js.toLowerCase q) category item) items).
Proof.
  induction items as [|item items IH]; [constructor|].
  rewrite filter_cons. destruct (decide _) as [Hhit|Hmiss].
  - apply keeps_in; [by apply searchHit_matches|done].
  - apply keeps_out; [by rewrite <- searchHit_matches|done].
Qed.

Lemma filterTree_searchOf tree q :
  Js.trim q ≠ "" → searchOf q tree (filterTree tree q).
Proof.
  intros Hq. rewrite (filterTree_query _ _ Hq).
  induction tree as [|category tree IH]; [constructor|].
  rewrite fmap_cons, filter_cons.
  pose proof (filter_keeps q category (tn_items category)) as Hkeeps.
  destruct (decide _) as [Hne|He].
  - apply (searchOf_keep q category tree _ _ Hkeeps); [|exact IH].
    simpl in Hne. by destruct (filter _ (tn_items category)).
  - apply searchOf_omit; [|exact IH]. simpl in He.
    by destruct (filter _ (tn_items category)) eqn:Hkept; [|destruct He].
Qed.

(** Reading back the objects that [map] created and [filter] selected. *)
Lemma readTree_created heap created :
  readTree (heap ++ created)
           (filter (λ address, hasItemsAt (heap ++ created) address)
                   (seq (length heap) (length created)))
  = filter (λ category, (0 <? length (tn_items category))%nat) created.
Proof.
  revert heap. induction created as [|category created IH]; intros heap; [done|].
  cbn [length seq]. rewrite !filter_cons.
  assert ((heap ++ category :: created) !! length heap = Some category) as Hhere.
  { by rewrite list_lookup_middle. }
  assert (hasItemsAt (heap ++ category :: created) (length heap)
          = (0 <? length (tn_items category))%nat) as Hitems.
  { unfold hasItemsAt. by rewrite Hhere. }
  assert (readTree (heap ++ category :: created)
            (filter (λ address, hasItemsAt (heap ++ category :: created) address)
                    (seq (S (length heap)) (length created)))
          = filter (λ category, (0 <? length (tn_items category))%nat) created)
    as Hrest.
  { specialize (IH (heap ++ [category])).
    rewrite <- app_assoc, length_app in IH. simpl in IH.
    by rewrite Nat.add_1_r in IH. }
  rewrite Hitems. destruct (decide _) as [Hne|He].
  - unfold readTree. cbn [omap list_omap]. rewrite Hhere.
    f_equal. exact Hrest.
  - exact Hrest.
Qed.

(** C9 (amended). Search semantics.  A query that has nothing but white
    space returns the tree as it is.  Any other query returns the tree
    searched: each group, in order, with the entries, in order, whose name
    or whose group's name contains the query ignoring case, and with
    their number; groups left without an entry are omitted.  So an entry
    of the result matches and comes from a group of the tree with the
    same id and name, and a matching entry of the tree is in the result.
    On category objects with an identity, the search leaves every object
    that existed as it was, and what it returns reads as the searched
    tree.  Searching the result again with the same query returns the
    same tree. *)
Theorem search_semantics tree q :
  (blank q → filterTree tree q = tree)
  ∧ (¬ blank q →
     searchOf q tree (filterTree tree q)
     ∧ (∀ category' item,
         category' ∈ filterTree tree q → item ∈ tn_items category' →
         matchesQuery q category' item
         ∧ ∃ category, category ∈ tree ∧ item ∈ tn_items category
                       ∧ tn_id category' = tn_id category
                       ∧ tn_name category' = tn_name category)
     ∧ (∀ category item,
         category ∈ tree → item ∈ tn_items category →
         matchesQuery q category item →
         ∃ category', category' ∈ filterTree tree q ∧ item ∈ tn_items category'
                      ∧ tn_id category' = tn_id category
                      ∧ tn_name category' = tn_name category)
     ∧ (∀ category', category' ∈ filterTree tree q →
          tn_items category' ≠ []
          ∧ tn_count category' = length (tn_items category')))
  ∧ (∀ heap addresses,
       (∀ address category,
           heap !! address = Some category →
           (filterObjects heap addresses q).2 !! address = Some category)
       ∧ readTree (filterObjects heap addresses q).2
                  (filterObjects heap addresses q).1
         = filterTree (readTree heap addresses) q)
  ∧ filterTree (filterTree tree q) q = filterTree tree q.
Proof.
  split; [|split; [|split; [|apply search_idempotent]]].
  - intros Hq. by apply filterTree_blank, trim_empty_blank.
  - intros Hq. rewrite <- trim_empty_blank in Hq.
    split; [by apply filterTree_searchOf|].
    rewrite (filterTree_query _ _ Hq). split; [|split].
    + intros category' item Hin Hitem.
      apply list_elem_of_filter in Hin as [_ Hin].
      apply list_elem_of_fmap in Hin as (category & -> & Hin).
      simpl in Hitem. apply list_elem_of_filter in Hitem as [Hhit Hitem].
      split; [by apply searchHit_matches in Hhit|]. by exists category.
    + intros category item Hin Hitem Hhit.
      assert (item ∈ tn_items (searched (Js.toLowerCase q) category)) as Hkept.
      { simpl. apply list_elem_of_filter. split; [|done].
        by apply searchHit_matches. }
      exists (searched (Js.toLowerCase q) category).
      split; [|done].
      apply list_elem_of_filter. split; [|by apply list_elem_of_fmap_2].
      destruct (tn_items (searched (Js.toLowerCase q) category)); [|done].
      by apply elem_of_nil in Hkept.
    + intros category' Hin.
      apply list_elem_of_filter in Hin as [Hlen Hin].
      apply list_elem_of_fmap in Hin as (category & -> & Hin).
      split; [|done]. intros Hnil. by rewrite Hnil in Hlen.
  - intros heap addresses. unfold filterObjects.
    destruct (decide (Js.trim q = "")) as [Hq|Hq].
    + rewrite Hq. simpl. split; [done|]. by rewrite filterTree_blank.
    + unfold Js.truthy. rewrite (bool_decide_eq_false_2 _ Hq). cbn [negb fst snd].
      split.
      * intros address category Hhere. rewrite lookup_app_l; [done|].
        by eapply lookup_lt_Some.
      * change (omap (λ address, heap !! address) addresses)
          with (readTree heap addresses).
        rewrite readTree_created. by rewrite (filterTree_query _ _ Hq).
Qed.

(** The empty query returns the tree; the query ["_2"] keeps the one
    entry of the three whose name contains it. *)
Lemma search_semantics_witness :
  filterTree [Sample.walls] "" = [Sample.walls]
  ∧ ∃ category', category' ∈ filterTree [Sample.walls] "_2"
                 ∧ Sample.item "u2" "Wall_2" [1]%nat ∈ tn_items category'
                 ∧ tn_id category' = "Walls".
Proof.
  split.
  - destruct (search_semantics [Sample.walls] "") as [Hblank _].
    apply Hblank. by intros c ?%elem_of_nil.
  - destruct (search_semantics [Sample.walls] "_2") as (_ & Hquery & _).
    destruct Hquery as (_ & _ & Hcomplete & _).
    { intros Hq. specialize (Hq "_"%char ltac:(by left)).
      revert Hq. apply (bool_decide_unpack _). by vm_compute. }
    destruct (Hcomplete Sample.walls (Sample.item "u2" "Wall_2" [1]%nat))
      as (category' & Hin & Hitem & Hid & _).
    + by left.
    + simpl. right. by left.
    + left. exists "wall", "". reflexivity.
    + by exists category'.
Defined.

(** C9 as stated fails for a query of white space: the search [" "]
    returns the whole tree, with entries whose name and whose group's name
    do not contain it. *)
Lemma search_blank_query_counterexample :
  ∃ category item,
    category ∈ getFilteredModelTree Sample.state
    ∧ item ∈ tn_items category
    ∧ Js.includes (Js.toLowerCase (item_name item))
                  (Js.toLowerCase (modelBrowserSearch Sample.state)) = false
    ∧ Js.includes (Js.toLowerCase (tn_name category))
                  (Js.toLowerCase (modelBrowserSearch Sample.state)) = false.
Proof.
  exists Sample.walls, (Sample.item "u1" "Wall_1" [0]%nat).
  split; [|split; [|split]].
  - apply list_elem_of_singleton. reflexivity.
  - simpl. apply elem_of_cons. by left.
  - reflexivity.
  - reflexivity.
Qed.

End search.

(** ** Traversal *)

Section traversal.

Implicit Types (o : Object3D) (v w : Visit).

Lemma Object3D_children_ind (P : Object3D → Prop) :
  (∀ d cs, Forall P cs → P (Obj d cs)) → ∀ o, P o.
Proof.
  intros Hstep. fix IH 1. intros [d cs]. apply Hstep.
  induction cs as [|c cs IHcs]; constructor; [apply IH|exact IHcs].
Qed.

Lemma elem_of_forEachChild visitChild i children w :
  w ∈ forEachChild visitChild i children
  ↔ ∃ k child, children !! k = Some child ∧ w ∈ visitChild (i + k)%nat child.
Proof.
  revert i. induction children as [|c cs IH]; intros i; simpl.
  - split; [by intros ?%elem_of_nil|by intros (k & child & ? & _)].
  - rewrite elem_of_app, IH. split.
    + intros [Hw|(k & child & Hk & Hw)].
      * exists 0%nat, c. by rewrite Nat.add_0_r.
      * exists (S k), child. split; [done|]. by rewrite Nat.add_succ_r.
    + intros ([|k] & child & Hk & Hw); simpl in Hk.
      * left. injection Hk as <-. by rewrite Nat.add_0_r in Hw.
      * right. exists k, child. split; [done|]. by rewrite Nat.add_succ_r in Hw.
Qed.

(** The traversal starts with the object it is called on. *)
Lemma traverse_head ref parents o :
  ∃ rest, traverse ref parents o
          = {| v_ref := ref; v_parents := parents; v_obj := o |} :: rest.
Proof. destruct o as [d cs]. by eexists. Qed.

(** A traversal from an object that is visited stays within the visits. *)
Lemma traverse_sub o ref parents v w :
  v ∈ traverse ref parents o → w ∈ traverseFrom v → w ∈ traverse ref parents o.
Proof.
  revert ref parents.
  induction o as [d cs IH] using Object3D_children_ind; intros ref parents.
  cbn [traverse]. intros Hv Hw. apply elem_of_cons in Hv as [->|Hv].
  - exact Hw.
  - apply elem_of_cons. right.
    apply elem_of_forEachChild in Hv as (k & child & Hk & Hv).
    apply elem_of_forEachChild. exists k, child. split; [done|].
    by apply (Forall_lookup_1 _ _ _ _ IH Hk).
Qed.

Lemma findNodeByUuid_fold visits uuid found :
  fold_left (λ found child,
               if bool_decide (node_uuid (v_node child) = uuid)
               then Some child else found) visits found
  = match findNodeByUuid visits uuid with
    | Some v => Some v
    | None => found
    end.
Proof.
  unfold findNodeByUuid. revert found.
  induction visits as [|x visits IH] using rev_ind; intros found; [done|].
  rewrite !fold_left_app. simpl.
  destruct (bool_decide _); [done|]. apply IH.
Qed.

(** What [findNodeByUuid] returns is a visited object with that uuid. *)
Lemma findNodeByUuid_Some visits uuid v :
  findNodeByUuid visits uuid = Some v →
  v ∈ visits ∧ node_uuid (v_node v) = uuid.
Proof.
  unfold findNodeByUuid.
  induction visits as [|x visits IH] using rev_ind; [done|].
  rewrite fold_left_app. simpl. case_bool_decide as Hx.
  - intros [= <-]. split; [|done]. apply elem_of_app. right. by left.
  - intros Hfound. destruct (IH Hfound) as [Hin Hid].
    split; [|done]. apply elem_of_app. by left.
Qed.

(** With uuids that are unique, it returns the object itself. *)
Lemma findNodeByUuid_unique visits v :
  NoDup ((λ child, node_uuid (v_node child)) <$> visits) →
  v ∈ visits → findNodeByUuid visits (node_uuid (v_node v)) = Some v.
Proof.
  unfold findNodeByUuid.
  induction visits as [|x visits IH] using rev_ind; [by intros _ ?%elem_of_nil|].
  rewrite fmap_app, fold_left_app. simpl.
  intros [Hnodup [Hfresh _]]%NoDup_app Hin.
  apply elem_of_app in Hin as [Hin|Hin].
  - rewrite bool_decide_eq_false_2; [by apply IH|].
    intros Heq. apply (Hfresh (node_uuid (v_node v))).
    + by apply (list_elem_of_fmap_2 (λ child, node_uuid (v_node child))).
    + rewrite <- Heq. by left.
  - apply list_elem_of_singleton in Hin as ->.
    by rewrite bool_decide_eq_true_2.
Qed.

End traversal.

(** ** Name cleanup and display names *)

Section names.

Implicit Types (s pre run post : string).

Lemma takeWhile_digits_run run post :
  allDigits run = true → startsWithDigit post = false →
  Js.takeWhile Js.isDigit (run +:+ post) = run.
Proof.
  intros Hrun Hpost. induction run as [|c run IH].
  - rewrite append_nil. destruct post as [|c post]; simpl in *; [done|].
    by rewrite Hpost.
  - simpl in Hrun. apply andb_true_iff in Hrun as [Hc Hrun].
    rewrite append_cons. simpl. rewrite Hc. by rewrite IH.
Qed.

Lemma takeWhile_digits_long run post :
  allDigits run = true →
  (String.length run ≤ String.length (Js.takeWhile Js.isDigit (run +:+ post)))%nat.
Proof.
  intros Hrun. induction run as [|c run IH]; [simpl; lia|].
  simpl in Hrun. apply andb_true_iff in Hrun as [Hc Hrun].
  rewrite append_cons. simpl. rewrite Hc. simpl.
  specialize (IH Hrun). lia.
Qed.

Lemma takeWhile_allDigits s : allDigits (Js.takeWhile Js.isDigit s) = true.
Proof.
  induction s as [|c s IH]; simpl; [done|].
  destruct (Js.isDigit c) eqn:Hc; simpl; [|done]. by rewrite Hc.
Qed.

(** A digit run is cut off by the non-digit a string ends with. *)
Lemma takeWhile_digits_stops pre t :
  pre ≠ "" → endsWithDigit pre = false →
  Js.takeWhile Js.isDigit (pre +:+ t) = Js.takeWhile Js.isDigit pre.
Proof.
  intros Hne Hend. induction pre as [|c pre IH]; [done|].
  rewrite append_cons. simpl. destruct (Js.isDigit c) eqn:Hc; [|done].
  destruct pre as [|c' pre]; [simpl in Hend; congruence|].
  rewrite IH; [done|done|]. exact Hend.
Qed.

(** The match of [/\d{4,}/] is the first digit run of four or more. *)
Lemma matchDigitRun_first pre run post :
  allDigits run = true → (4 ≤ String.length run)%nat →
  startsWithDigit post = false →
  endsWithDigit pre = false → matchDigitRun pre = None →
  matchDigitRun (pre +:+ run +:+ post) = Some run.
Proof.
  intros Hrun Hlen Hpost. induction pre as [|c pre IH]; intros Hend Hpre.
  - rewrite append_nil. destruct run as [|d run]; [simpl in Hlen; lia|].
    change (String d run +:+ post) with (String d (run +:+ post)).
    unfold matchDigitRun; fold matchDigitRun.
    change (String d (run +:+ post)) with (String d run +:+ post).
    rewrite (takeWhile_digits_run _ _ Hrun Hpost).
    by rewrite (proj2 (Nat.leb_le _ _) Hlen).
  - change (String c pre +:+ run +:+ post)
      with (String c (pre +:+ run +:+ post)).
    unfold matchDigitRun; fold matchDigitRun.
    change (String c (pre +:+ run +:+ post))
      with (String c pre +:+ run +:+ post).
    rewrite (takeWhile_digits_stops (String c pre)) by done.
    unfold matchDigitRun in Hpre; fold matchDigitRun in Hpre.
    destruct (4 <=? String.length (Js.takeWhile Js.isDigit (String c pre)))%nat;
      [done|].
    apply IH; [|done].
    destruct pre as [|c' pre]; [done|exact Hend].
Qed.

(** A string that holds four digits in a row has a match. *)
Lemma matchDigitRun_some pre run post :
  allDigits run = true → (4 ≤ String.length run)%nat →
  ∃ found, matchDigitRun (pre +:+ run +:+ post) = Some found
           ∧ allDigits found = true ∧ (4 ≤ String.length found)%nat.
Proof.
  intros Hrun Hlen. induction pre as [|c pre IH].
  - rewrite append_nil. destruct run as [|d run]; [simpl in Hlen; lia|].
    change (String d run +:+ post) with (String d (run +:+ post)).
    unfold matchDigitRun; fold matchDigitRun.
    change (String d (run +:+ post)) with (String d run +:+ post).
    pose proof (takeWhile_digits_long _ post Hrun) as Hlong.
    rewrite (proj2 (Nat.leb_le _ _)) by lia.
    eexists. split; [done|]. split; [apply takeWhile_allDigits|lia].
  - change (String c pre +:+ run +:+ post)
      with (String c (pre +:+ run +:+ post)).
    unfold matchDigitRun; fold matchDigitRun.
    destruct (4 <=? _)%nat eqn:Hhere; [|exact IH].
    eexists. split; [done|].
    split; [apply takeWhile_allDigits|by apply Nat.leb_le].
Qed.

Lemma extractMeaningfulName_digits str found :
  matchDigitRun str = Some found →
  extractMeaningfulName str = Some ("Element_" +:+ found).
Proof.
  intros Hfound. unfold extractMeaningfulName.
  destruct str as [|c str]; [done|]. simpl Js.truthy. simpl negb.
  cbv iota. by rewrite Hfound.
Qed.

(** C6. Digit-run precedence in name cleanup: a string that holds a run
    of at least four digits is cleaned to "Element_" followed by a digit
    run of at least four, found before any token is stripped; the run is
    the first one, taken whole.  With no metadata index, a mesh named
    "Wall-Element_4821-mesh" whose geometry and materials yield no name
    is displayed as "Element_4821". *)
Theorem digit_run_precedence pre run post :
  allDigits run = true → (4 ≤ String.length run)%nat →
  (∃ found, extractMeaningfulName (pre +:+ run +:+ post)
            = Some ("Element_" +:+ found)
            ∧ allDigits found = true ∧ (4 ≤ String.length found)%nat)
  ∧ (startsWithDigit post = false → endsWithDigit pre = false →
     matchDigitRun pre = None →
     extractMeaningfulName (pre +:+ run +:+ post) = Some ("Element_" +:+ run))
  ∧ (∀ parents node index,
       node_name node = "Wall-Element_4821-mesh" →
       nameFromGeometry node = None → nameFromMaterial node = None →
       getMeshDisplayName None parents node index = "Element_4821").
Proof.
  intros Hrun Hlen. split; [|split].
  - destruct (matchDigitRun_some pre run post Hrun Hlen)
      as (found & Hfound & Hdigits & Hlong).
    exists found. by rewrite (extractMeaningfulName_digits _ _ Hfound).
  - intros Hpost Hend Hpre. apply extractMeaningfulName_digits.
    by apply matchDigitRun_first.
  - intros parents node index Hname Hgeom Hmat.
    unfold getMeshDisplayName, fallbackName. simpl getElementMetadata. cbv iota.
    rewrite Hgeom, Hmat. unfold nameFromNode. by rewrite Hname.
Qed.

Lemma digit_run_precedence_witness :
  extractMeaningfulName "Wall-Element_4821-mesh" = Some "Element_4821"
  ∧ getMeshDisplayName None [] Sample.wall4821 0 = "Element_4821".
Proof.
  destruct (digit_run_precedence "Wall-Element_" "4821" "-mesh")
    as (_ & Hfirst & Hname); [reflexivity|simpl; lia|].
  split.
  - apply Hfirst; reflexivity.
  - apply Hname; reflexivity.
Defined.

Lemma extractMeaningfulName_nonempty str name :
  extractMeaningfulName str = Some name → name ≠ "".
Proof.
  unfold extractMeaningfulName. destruct (negb (Js.truthy str)); [done|].
  destruct (matchDigitRun str) as [found|].
  - by intros [= <-].
  - destruct (2 <? String.length _)%nat eqn:Hlen; simpl; [|done].
    destruct (negb _ && negb _); [|done]. intros [= <-].
    apply Nat.ltb_lt in Hlen. intros Hnil. rewrite Hnil in Hlen.
    simpl in Hlen. lia.
Qed.

Lemma firstMaterialName_nonempty materials name :
  firstMaterialName materials = Some name → name ≠ "".
Proof.
  induction materials as [|mat rest IH]; simpl; [done|].
  destruct (Js.truthy mat); [|done].
  destruct (extractMeaningfulName mat) eqn:Hmat; [|done].
  intros [= <-]. by eapply extractMeaningfulName_nonempty.
Qed.

Lemma parentNameLoop_nonempty chain depth index name :
  parentNameLoop chain depth index = Some name → name ≠ "".
Proof.
  revert depth. induction chain as [|current up IH]; intros depth; simpl; [done|].
  destruct (_ || _); [done|].
  destruct (_ && _); [|by apply IH].
  destruct (extractMeaningfulName (node_name current)) as [parentName|] eqn:Hp;
    [|by apply IH].
  intros [= <-]. apply extractMeaningfulName_nonempty in Hp.
  by destruct parentName.
Qed.

Lemma patternCategory_key table str label :
  patternCategory table str = Some label → label ∈ table.*1.
Proof.
  induction table as [|[k patterns] rest IH]; simpl; [done|].
  destruct (anyPattern patterns str).
  - intros [= <-]. by left.
  - intros Hrest. right. by apply IH.
Qed.

Lemma parentCategoryLoop_key chain depth label :
  parentCategoryLoop chain depth = Some label → label ∈ categoryPatterns.*1.
Proof.
  revert depth.
  induction chain as [|current up IH]; intros depth; cbn [parentCategoryLoop];
    [done|].
  destruct (_ || _); [done|].
  destruct (Js.truthy (node_name current)); [|by apply IH].
  destruct (patternCategory categoryPatterns _) eqn:Hhere; [|by apply IH].
  intros [= <-]. by eapply patternCategory_key.
Qed.

Lemma getElementMetadata_no_index node :
  getElementMetadata None node = None ∧ getElementMetadata (Some []) node = None.
Proof. done. Qed.

(** The cascade of [getMeshDisplayName] never ends in the empty
    string. *)
Lemma fallbackName_nonempty parents node index :
  fallbackName parents node index ≠ "".
Proof.
  unfold fallbackName, nameFromGeometry, nameFromMaterial, nameFromNode.
  destruct (if Js.truthy (geometryName node) then _ else None)
    as [geomName|] eqn:Hgeom.
  { destruct (Js.truthy (geometryName node)); [|done].
    by eapply extractMeaningfulName_nonempty. }
  destruct (match node_mesh node with Some _ => _ | None => None end)
    as [matName|] eqn:Hmat.
  { destruct (node_mesh node); [|done].
    by eapply firstMaterialName_nonempty. }
  destruct (if _ && _ then _ else None) as [nodeName|] eqn:Hname.
  { destruct (_ && _); [|done]. by eapply extractMeaningfulName_nonempty. }
  destruct (parentNameLoop parents 0 index) as [fromParent|] eqn:Hparent.
  { by eapply parentNameLoop_nonempty. }
  done.
Qed.

(** The fallbacks on an index of string records: with an index that is
    null, empty or without a match for the node, the name is the one of
    the cascade, which is not empty and ends in "Element_" followed by
    the first eight characters of the uuid; the category is one of the
    fixed set, and "Generic Models" when the node is not text-like and
    no keyword is found. *)
Lemma fallback_cascade metadataRef parents node index :
  metadataRef = None ∨ metadataRef = Some []
  ∨ getElementMetadata metadataRef node = None →
  let name := getMeshDisplayName metadataRef parents node index in
  let label := extractCategory metadataRef parents node name in
  getElementMetadata metadataRef node = None
  ∧ name ≠ ""
  ∧ label ∈ fallbackCategories
  ∧ (nameFromGeometry node = None → nameFromMaterial node = None →
     nameFromNode node = None → parentNameLoop parents 0 index = None →
     name = "Element_" +:+ Js.substring0 8 (node_uuid node))
  ∧ (isText (node_userData node) = false →
     patternCategory categoryPatterns (searchStr node name) = None →
     parentCategoryLoop parents 0 = None →
     label = "Generic Models").
Proof.
  intros Hindex name label.
  assert (getElementMetadata metadataRef node = None) as Hnone.
  { destruct Hindex as [->|[->|Hnone]]; [done|done|exact Hnone]. }
  subst name label. unfold getMeshDisplayName, extractCategory.
  rewrite Hnone. split; [done|]. split; [|split; [|split]].
  - apply fallbackName_nonempty.
  - unfold fallbackCategories.
    destruct (isText (node_userData node)); [by left|]. right.
    apply elem_of_app.
    destruct (patternCategory categoryPatterns _) eqn:Hpat.
    { left. by eapply patternCategory_key. }
    destruct (parentCategoryLoop parents 0) eqn:Hparent.
    { left. by eapply parentCategoryLoop_key. }
    right. by left.
  - unfold fallbackName. by intros -> -> -> ->.
  - by intros -> -> ->.
Qed.

(** On the records as stored: when the lookup returns without a record,
    the display name is the name of the cascade. *)
Lemma fallback_when_unmatched metadataRef parents node index :
  Raw.getElementMetadata metadataRef node = Returns None →
  Raw.getMeshDisplayName metadataRef parents node index
  = Returns (JStr (fallbackName parents node index))
  ∧ fallbackName parents node index ≠ "".
Proof.
  intros Hnone. unfold Raw.getMeshDisplayName. rewrite Hnone.
  split; [done|]. apply fallbackName_nonempty.
Qed.

(** The lookup returns whenever every external id of the index is a
    string or falsy. *)
Lemma findByGuid_returns index guid :
  Forall (λ entry, match raw_externalId entry.2 with
                   | JStr _ => True
                   | externalId => truthyVal externalId = false
                   end) index →
  ∃ found, Raw.findByGuid index guid = Returns found.
Proof.
  induction index as [|[key metadata] index IH]; intros Hall; [by exists None|].
  apply Forall_cons in Hall as [Hhere Hrest]. cbn [Raw.findByGuid].
  assert (∃ hit, Raw.externalIdIncludes metadata guid = Returns hit) as [hit ->].
  { unfold Raw.externalIdIncludes. simpl in Hhere.
    destruct (raw_externalId metadata) as [| |flag|n|s|elems|props];
      simpl in Hhere |- *; rewrite ?Hhere; try discriminate;
      eexists; reflexivity. }
  simpl. destruct hit; [by exists (Some metadata)|by apply IH].
Qed.

Lemma getElementMetadata_returns metadataRef node :
  match metadataRef with
  | Some index =>
      Forall (λ entry, match raw_externalId entry.2 with
                       | JStr _ => True
                       | externalId => truthyVal externalId = false
                       end) index
  | None => True
  end →
  ∃ found, Raw.getElementMetadata metadataRef node = Returns found.
Proof.
  destruct metadataRef as [index|]; [|by eexists].
  intros Hall. unfold Raw.getElementMetadata.
  destruct (length index =? 0)%nat; [by eexists|].
  assert (∃ found, Raw.guidLoop index (searchStrings node) = Returns found)
    as [found ->].
  { induction (searchStrings node) as [|str strs IH]; [by eexists|].
    cbn [Raw.guidLoop]. destruct (matchGuid str) as [guidMatch|]; [|exact IH].
    destruct (findByGuid_returns index (Js.toLowerCase guidMatch) Hall)
      as [[metadata|] ->]; simpl; [by eexists|exact IH]. }
  simpl. destruct found; by eexists.
Qed.

(** C5. Fallback totality fails on the index parsed from a payload whose
    element has a number as its external id: the node carries a
    GUID-shaped token in its name, the index has no record with an
    external id that could contain it and none under an element number of
    the node, and yet neither the lookup nor the display name is
    returned: reading [toLowerCase] off the number throws. *)
Theorem fallback_numeric_externalId_throws :
  parseJsonMetadata Sample.numericExternalId = Returns Sample.numericIndex
  ∧ matchGuid (node_name Sample.wallGuid)
    = Some "00000000-0000-0000-0000-000000000001"
  ∧ Forall (λ entry, ∀ s, raw_externalId entry.2 ≠ JStr s) Sample.numericIndex
  ∧ numericElementId Sample.wallGuid = None
  ∧ Raw.getElementMetadata (Some Sample.numericIndex) Sample.wallGuid
    = Throws "TypeError"
  ∧ Raw.getMeshDisplayName (Some Sample.numericIndex) [] Sample.wallGuid 0
    = Throws "TypeError".
Proof.
  split; [reflexivity|]. split; [reflexivity|]. split.
  { apply Forall_singleton. by intros s. }
  split; [reflexivity|]. split; reflexivity.
Qed.

Lemma fallback_cascade_witness :
  getMeshDisplayName None [] Sample.label 0 = "Label"
  ∧ getMeshDisplayName (Some []) [] Sample.unnamed 0 = "Element_0a1b2c3d"
  ∧ extractCategory (Some []) [] Sample.unnamed "Element_0a1b2c3d"
    = "Generic Models".
Proof.
  split; [reflexivity|].
  destruct (fallback_cascade (Some []) [] Sample.unnamed 0)
    as (_ & _ & _ & Hname & Hlabel); [right; left; reflexivity|].
  split.
  - apply Hname; reflexivity.
  - apply Hlabel; reflexivity.
Defined.

End names.

(** ** Element lookup by GUID *)

Section lookup.

Implicit Types (index : MetadataIndex) (node : NodeData).

Lemma matchGuidAt_nonempty s g : matchGuidAt s = Some g → g ≠ "".
Proof.
  unfold matchGuidAt.
  destruct (hexSegments _ s) as [rest|] eqn:Hseg; [|done].
  destruct s as [|c s]; [by vm_compute in Hseg|].
  by destruct (dash rest ≫= hexRun 8); intros [= <-].
Qed.

Lemma matchGuid_nonempty s g : matchGuid s = Some g → g ≠ "".
Proof.
  induction s as [|c s IH]; cbn [matchGuid].
  - destruct (matchGuidAt "") eqn:Hat; [|done].
    intros [= <-]. by eapply matchGuidAt_nonempty.
  - destruct (matchGuidAt (String c s)) eqn:Hat; [|exact IH].
    intros [= <-]. by eapply matchGuidAt_nonempty.
Qed.

Lemma toLowerCase_nonempty s : s ≠ "" → Js.toLowerCase s ≠ "".
Proof. by destruct s. Qed.

Lemma includes_empty_string p : p ≠ "" → Js.includes "" p = false.
Proof. by destruct p. Qed.

(** The inner loop finds the first record that contains the candidate. *)
Lemma findByGuid_firstContaining index g :
  g ≠ "" → findByGuid index (Js.toLowerCase g) = firstContaining index g.
Proof.
  intros Hg. unfold firstContaining.
  induction index as [|[k metadata] rest IH]; [done|].
  cbn [findByGuid]. rewrite fmap_cons, filter_cons. cbn [snd].
  destruct (decide _) as [Hinc|Hinc].
  - apply Is_true_true in Hinc. rewrite Hinc.
    assert (Js.truthy (externalId metadata) = true) as ->; [|done].
    destruct (externalId metadata); [|done].
    by rewrite includes_empty_string in Hinc by by apply toLowerCase_nonempty.
  - apply Is_true_false in Hinc. rewrite Hinc, andb_false_r. exact IH.
Qed.

Lemma guidLoop_first index pre str post guidMatch record :
  (∀ s g, s ∈ pre → matchGuid s = Some g → firstContaining index g = None) →
  matchGuid str = Some guidMatch →
  firstContaining index guidMatch = Some record →
  guidLoop index (pre ++ str :: post) = Some record.
Proof.
  intros Hpre Hstr Hrec. induction pre as [|s pre IH]; simpl.
  - rewrite Hstr, findByGuid_firstContaining by by eapply matchGuid_nonempty.
    by rewrite Hrec.
  - assert (guidLoop index (pre ++ str :: post) = Some record) as Hrest.
    { apply IH. intros s' g Hin. apply Hpre. by right. }
    destruct (matchGuid s) as [g|] eqn:Hs; [|done].
    rewrite findByGuid_firstContaining by by eapply matchGuid_nonempty.
    rewrite (Hpre s g); [done|by left|done].
Qed.

(** C3 (amended). Substring GUID matching: the searched strings of a node
    are tried in order (name, geometry name, material name, id,
    annotations); the first one whose GUID-shaped token is contained,
    case-insensitively, in the [externalId] of some record decides, and
    [getElementMetadata] returns the first record of the index that
    contains that token.  So a node with a single candidate gets the first
    record that contains it, and a node whose name has "00000000-0000-
    0000-0000-000000000001" as its GUID-shaped token gets the first record
    that contains that token. *)
Theorem guid_substring_matching index node record :
  index ≠ [] →
  (∀ pre str post guidMatch,
      searchStrings node = pre ++ str :: post →
      (∀ s g, s ∈ pre → matchGuid s = Some g → firstContaining index g = None) →
      matchGuid str = Some guidMatch →
      firstContaining index guidMatch = Some record →
      getElementMetadata (Some index) node = Some record)
  ∧ (∀ candidate,
      guidCandidates node = [candidate] →
      firstContaining index candidate = Some record →
      getElementMetadata (Some index) node = Some record)
  ∧ (matchGuid (node_name node) = Some "00000000-0000-0000-0000-000000000001" →
     firstContaining index "00000000-0000-0000-0000-000000000001" = Some record →
     getElementMetadata (Some index) node = Some record).
Proof.
  intros Hindex.
  assert (∀ pre str post guidMatch,
      searchStrings node = pre ++ str :: post →
      (∀ s g, s ∈ pre → matchGuid s = Some g → firstContaining index g = None) →
      matchGuid str = Some guidMatch →
      firstContaining index guidMatch = Some record →
      getElementMetadata (Some index) node = Some record) as Hgeneral.
  { intros pre str post guidMatch Hsplit Hpre Hstr Hrec.
    unfold getElementMetadata.
    destruct index as [|entry index]; [done|]. cbn [length Nat.eqb].
    by rewrite Hsplit, (guidLoop_first _ _ _ _ _ _ Hpre Hstr Hrec). }
  split; [exact Hgeneral|]. split.
  - intros candidate Hcands Hrec. unfold guidCandidates in Hcands.
    revert Hgeneral Hcands. generalize (searchStrings node) as strs.
    intros strs Hgeneral Hcands.
    assert (∃ pre str post, strs = pre ++ str :: post
              ∧ (∀ s, s ∈ pre → matchGuid s = None)
              ∧ matchGuid str = Some candidate) as (pre & str & post & -> & Hpre & Hstr).
    { clear Hgeneral. induction strs as [|s strs IH]; [done|].
      simpl in Hcands. destruct (matchGuid s) as [g|] eqn:Hs.
      - injection Hcands as -> Hnil. exists [], s, strs.
        split; [done|]. split; [|done]. intros s' Hin. by apply elem_of_nil in Hin.
      - destruct (IH Hcands) as (pre & str & post & -> & Hpre & Hstr).
        exists (s :: pre), str, post. split; [done|]. split; [|done].
        intros s' Hin. apply elem_of_cons in Hin as [->|Hin]; [done|by apply Hpre]. }
    apply (Hgeneral pre str post candidate); [done| |done|done].
    intros s g Hin Hg. by rewrite (Hpre s Hin) in Hg.
  - intros Hname Hrec.
    assert (Js.truthy (node_name node) = true) as Htruthy.
    { destruct (node_name node); [|done]. by vm_compute in Hname. }
    apply (Hgeneral [] (node_name node)
             (filter (λ s, Js.truthy s)
                [ geometryName node; materialName node; pretty (node_id node);
                  revitId (node_userData node); guid (node_userData node);
                  ud_elementId (node_userData node) ])
             "00000000-0000-0000-0000-000000000001"); [|by intros s g Hin; apply elem_of_nil in Hin|done|done].
    unfold searchStrings. rewrite filter_cons.
    by rewrite decide_True by by rewrite Htruthy.
Qed.

Lemma guid_substring_matching_witness :
  getElementMetadata (Some [("13", Sample.other); ("12", Sample.segmented)])
                     Sample.wallGuid
  = Some Sample.segmented.
Proof.
  destruct (guid_substring_matching
              [("13", Sample.other); ("12", Sample.segmented)]
              Sample.wallGuid Sample.segmented) as (_ & _ & Hexample);
    [discriminate|].
  apply Hexample; reflexivity.
Defined.

(** C3 as stated fails for a node with two candidates: the record returned
    is the one that matches the candidate of the name, not the first
    record of the index that contains the candidate of the geometry
    name. *)
Lemma guid_two_candidates_counterexample :
  let index := [("13", Sample.other); ("12", Sample.segmented)] in
  ∃ candidate first,
    candidate ∈ guidCandidates Sample.twoGuids
    ∧ firstContaining index candidate = Some first
    ∧ getElementMetadata (Some index) Sample.twoGuids ≠ Some first.
Proof.
  exists Sample.guidB, Sample.other. split; [|split].
  - vm_compute. apply elem_of_cons. right. apply elem_of_cons. by left.
  - reflexivity.
  - vm_compute. discriminate.
Qed.

End lookup.



(** ** The string records and the stored ones *)

Section stored.

(** A string record is the stored record it was read from. *)
Lemma typedRecord_fields key r record :
  typedRecord key r = Some record →
  raw_externalId r = JStr (externalId record)
  ∧ raw_familyName r = JStr (familyName record)
  ∧ raw_typeName r = JStr (typeName record)
  ∧ raw_category r = JStr (category record)
  ∧ raw_displayName r = JStr (displayName record)
  ∧ elementId record = key.
Proof.
  unfold typedRecord.
  destruct (raw_externalId r), (raw_familyName r), (raw_typeName r),
    (raw_category r), (raw_displayName r); try done.
  by intros [= <-].
Qed.

Lemma typedIndex_entries raw index :
  typedIndex raw = Some index →
  Forall2 (λ kr entry, kr.1 = entry.1 ∧ typedRecord kr.1 kr.2 = Some entry.2)
          raw index.
Proof.
  unfold typedIndex. intros Htyped. apply mapM_Some in Htyped.
  eapply Forall2_impl; [exact Htyped|]. simpl.
  intros [key r] [key' record] Hentry. simpl in *.
  destruct (typedRecord key r) as [record'|]; [|done].
  by injection Hentry as <- <-.
Qed.

Lemma typed_findByGuid raw index guid :
  typedIndex raw = Some index →
  ∃ found, Raw.findByGuid raw guid = Returns found
           ∧ option_Forall2 (λ r record, ∃ key, typedRecord key r = Some record)
                            found (findByGuid index guid).
Proof.
  intros Htyped. apply typedIndex_entries in Htyped.
  induction Htyped as [|[key r] [key' record] raw index [_ Hentry] _ IH].
  { exists None. split; [done|constructor]. }
  simpl in Hentry. cbn [Raw.findByGuid findByGuid].
  destruct (typedRecord_fields _ _ _ Hentry) as (Hext & _).
  unfold Raw.externalIdIncludes. rewrite Hext. simpl.
  destruct (Js.truthy (externalId record)
            && Js.includes (Js.toLowerCase (externalId record)) guid).
  - exists (Some r). split; [done|]. constructor. by exists key.
  - exact IH.
Qed.

Lemma typed_guidLoop raw index strs :
  typedIndex raw = Some index →
  ∃ found, Raw.guidLoop raw strs = Returns found
           ∧ option_Forall2 (λ r record, ∃ key, typedRecord key r = Some record)
                            found (guidLoop index strs).
Proof.
  intros Htyped. induction strs as [|str strs IH].
  { exists None. split; [done|constructor]. }
  cbn [Raw.guidLoop guidLoop]. destruct (matchGuid str) as [guidMatch|]; [|done].
  destruct (typed_findByGuid raw index (Js.toLowerCase guidMatch) Htyped)
    as (found & -> & Hfound).
  simpl. destruct Hfound as [r record Hrec|]; [|done].
  exists (Some r). split; [done|]. by constructor.
Qed.

Lemma typed_mapGet raw index key :
  typedIndex raw = Some index →
  option_Forall2 (λ r record, ∃ key, typedRecord key r = Some record)
                 (mapGet raw key) (mapGet index key).
Proof.
  intros Htyped. apply typedIndex_entries in Htyped.
  induction Htyped as [|[k r] [k' record] raw index [Hkey Hentry] _ IH];
    [constructor|].
  simpl in Hkey, Hentry. subst k'. cbn [mapGet].
  destruct (bool_decide (k = key)); [|done]. constructor. by exists k.
Qed.

(** On an index whose stored values are strings the engine's lookup
    returns, and what it finds is the record that the lookup over the
    string records finds. *)
Lemma getElementMetadata_stored raw index node :
  typedIndex raw = Some index →
  ∃ found, Raw.getElementMetadata (Some raw) node = Returns found
           ∧ option_Forall2 (λ r record, ∃ key, typedRecord key r = Some record)
                            found (getElementMetadata (Some index) node).
Proof.
  intros Htyped. unfold Raw.getElementMetadata, getElementMetadata.
  rewrite (Forall2_length _ _ _ (typedIndex_entries _ _ Htyped)).
  destruct (length index =? 0)%nat.
  { exists None. split; [done|constructor]. }
  destruct (typed_guidLoop raw index (searchStrings node) Htyped)
    as (found & -> & Hfound).
  simpl. destruct Hfound as [r record Hrec|].
  { exists (Some r). split; [done|]. by constructor. }
  eexists. split; [done|].
  destruct (numericElementId node) as [elementId|]; [|constructor].
  by apply typed_mapGet.
Qed.

(** The display name on the stored records is then the one on the string
    records. *)
Lemma getMeshDisplayName_stored raw index parents node i :
  typedIndex raw = Some index →
  Raw.getMeshDisplayName (Some raw) parents node i
  = Returns (JStr (getMeshDisplayName (Some index) parents node i)).
Proof.
  intros Htyped. unfold Raw.getMeshDisplayName, getMeshDisplayName.
  destruct (getElementMetadata_stored raw index node Htyped)
    as (found & -> & Hfound).
  destruct Hfound as [r record [key Hrec]|]; simpl; [|done].
  destruct (typedRecord_fields _ _ _ Hrec) as (_ & _ & _ & _ & -> & _). done.
Qed.

End stored.

(** ** Parsing *)

Section parsing.

Implicit Types (v obj : JsVal) (elementMap : JsMap RawRecord).

Lemma JsVal_nested_ind (P : JsVal → Prop) :
  P JUndefined → P JNull → (∀ b, P (JBool b)) → (∀ n, P (JNum n)) →
  (∀ s, P (JStr s)) →
  (∀ elems, Forall P elems → P (JArr elems)) →
  (∀ props, Forall (λ kv, P kv.2) props → P (JObj props)) →
  ∀ v, P v.
Proof.
  intros Hu Hn Hb Hz Hs Harr Hobj. fix IH 1. intros [| |b|n|s|elems|props].
  - exact Hu.
  - exact Hn.
  - apply Hb.
  - apply Hz.
  - apply Hs.
  - apply Harr. induction elems as [|x elems IHl]; constructor; [apply IH|exact IHl].
  - apply Hobj. induction props as [|[k x] props IHl]; constructor;
      [apply IH|exact IHl].
Qed.

(** The only error the parser's own steps raise is a [TypeError]. *)
Lemma readProp_error v k e : readProp v k = Throws e → e = "TypeError".
Proof. destruct v; simpl; congruence. Qed.

Lemma joinVals_error str l e :
  Forall (λ x, ∀ e', str x = Throws e' → e' = "TypeError") l →
  joinVals str l = Throws e → e = "TypeError".
Proof.
  revert e. induction l as [|x rest IH]; intros e Hall; simpl; [done|].
  apply Forall_cons in Hall as [Hx Hrest].
  destruct (match x with JUndefined | JNull => Returns "" | _ => str x end)
    as [s|e0] eqn:Hs; simpl.
  - destruct rest as [|y rest]; [done|].
    destruct (joinVals str (y :: rest)) as [r|e1] eqn:Hr; simpl; [done|].
    intros [= <-]. by apply IH.
  - intros [= <-]. destruct x; try done; by apply Hx.
Qed.

Lemma toStringVal_error v e : toStringVal v = Throws e → e = "TypeError".
Proof.
  revert e. induction v as [| | | | |elems IH|props IH] using JsVal_nested_ind;
    intros e; simpl; try congruence.
  - by apply joinVals_error.
  - destruct (ownProp props "toString"); congruence.
Qed.

Lemma bindOutcome_error {A B} (m : Outcome A) (f : A → Outcome B) e :
  (∀ e', m = Throws e' → e' = "TypeError") →
  (∀ a e', f a = Throws e' → e' = "TypeError") →
  bindOutcome m f = Throws e → e = "TypeError".
Proof.
  intros Hm Hf. destruct m as [a|e0]; simpl.
  - apply Hf.
  - intros [= <-]. by apply Hm.
Qed.

Lemma addElement_error obj elementMap e :
  addElement obj elementMap = Throws e → e = "TypeError".
Proof.
  unfold addElement. apply bindOutcome_error.
  - intros e'. destruct (prop obj "properties"); try done.
    destruct (invalidGroupSection elems) as [metadata|]; [|done].
    repeat (apply bindOutcome_error; [try apply readProp_error|intros ? ?]);
      try done.
    + intros e''. apply bindOutcome_error; [apply readProp_error|].
      intros first e3. destruct (truthyVal first); [done|].
      apply bindOutcome_error; [apply readProp_error|done].
    + intros e''. apply bindOutcome_error; [apply readProp_error|].
      intros first e3. destruct (truthyVal first); [done|].
      apply bindOutcome_error; [apply readProp_error|done].
  - intros [[[family type] category] familyAndType] e'.
    apply bindOutcome_error.
    + intros e''. destruct (truthyVal familyAndType); [done|].
      destruct (truthyVal family); [done|]. destruct (truthyVal type); [done|].
      apply bindOutcome_error; [apply toStringVal_error|done].
    + intros displayName e''.
      apply bindOutcome_error; [apply toStringVal_error|]. intros key e3.
      apply bindOutcome_error; [|done]. intros e4.
      destruct (_ <=? _)%nat; [|done].
      repeat (apply bindOutcome_error; [apply toStringVal_error|intros ? ?]).
      apply toStringVal_error.
Qed.

Lemma depthVal_elem elems x :
  x ∈ elems → (depthVal x < depthVal (JArr elems))%nat.
Proof.
  intros Hin. simpl. apply Nat.lt_succ_r.
  induction Hin as [x elems|x y elems Hin IH]; simpl; lia.
Qed.

Lemma depthVal_prop obj k :
  (depthVal (prop obj k) < depthVal obj)%nat ∨ prop obj k = JUndefined.
Proof.
  destruct obj as [| | | | | |props]; try by right.
  simpl. induction props as [|[k' x] props IH]; simpl; [by right|].
  case_bool_decide; simpl.
  - left. lia.
  - destruct IH as [IH|IH]; [left; lia|by right].
Qed.

(** The recursion never runs out of the depth it is given. *)
Lemma traverseJson_error fuel obj elementMap e :
  (depthVal obj < fuel)%nat →
  traverseJson fuel obj elementMap = Throws e → e = "TypeError".
Proof.
  revert obj elementMap e.
  induction fuel as [|fuel IH]; intros obj elementMap e Hdepth; [lia|].
  cbn [traverseJson]. destruct (negb (truthyVal obj)); [done|].
  set (each := fix each (children : list JsVal) (elementMap : JsMap RawRecord) :=
         match children with
         | [] => Returns elementMap
         | child :: rest =>
             bindOutcome (traverseJson fuel child elementMap) (each rest)
         end).
  assert (∀ children m e',
            (∀ child, child ∈ children → (depthVal child < fuel)%nat) →
            each children m = Throws e' → e' = "TypeError") as Heach.
  { induction children as [|child rest IHc]; intros m e' Hsmall; simpl; [done|].
    destruct (traverseJson fuel child m) as [m'|e0] eqn:Hchild; simpl.
    - apply IHc. intros x Hx. apply Hsmall. by right.
    - intros [= <-]. apply (IH child m); [|done]. apply Hsmall. by left. }
  unfold bindOutcome.
  destruct (if truthyVal (prop obj "object") && truthyVal (prop obj "externalId")
            then addElement obj elementMap else Returns elementMap)
    as [m1|e1] eqn:Hadd.
  2:{ intros [= <-]. destruct (_ && _); [|done]. by eapply addElement_error. }
  destruct (match prop obj "objects" with
            | JArr children => each children m1
            | _ => Returns m1
            end) as [m2|e2] eqn:Hobjects.
  2:{ intros [= <-].
      destruct (prop obj "objects") as [| | | | |children|] eqn:Hprop; try done.
      apply (Heach children m1); [|done]. intros child Hchild.
      pose proof (depthVal_elem _ _ Hchild) as Hlt.
      destruct (depthVal_prop obj "objects") as [Hp|Hp];
        rewrite Hprop in Hp; [lia|done]. }
  destruct obj as [| | | | |children|]; try done.
  apply Heach. intros child Hchild.
  pose proof (depthVal_elem _ _ Hchild). lia.
Qed.

(** [parseJsonMetadata] either returns an index or throws a [TypeError]. *)
Lemma parseJsonMetadata_error jsonData e :
  parseJsonMetadata jsonData = Throws e → e = "TypeError".
Proof.
  unfold parseJsonMetadata.
  destruct (truthyVal jsonData && truthyVal (prop jsonData "data")).
  - apply traverseJson_error.
    destruct (depthVal_prop jsonData "data") as [Hp|Hp]; [lia|].
    rewrite Hp. simpl. lia.
  - destruct (truthyVal jsonData && truthyVal (prop jsonData "objects")); [|done].
    apply traverseJson_error. lia.
Qed.

Lemma readProp_returns v k :
  v ≠ JNull → v ≠ JUndefined → readProp v k = Returns (prop v k).
Proof. by destruct v. Qed.

Lemma joinVals_returns str l :
  Forall (λ x, ∃ s, str x = Returns s) l → ∃ s, joinVals str l = Returns s.
Proof.
  induction l as [|x rest IH]; intros Hall; simpl; [by eexists|].
  apply Forall_cons in Hall as [[s Hs] Hrest].
  assert (∃ s', match x with JUndefined | JNull => Returns "" | _ => str x end
                = Returns s') as [s' ->].
  { destruct x; by eexists. }
  simpl. destruct rest as [|y rest]; [by eexists|].
  destruct (IH Hrest) as [r ->]. simpl. by eexists.
Qed.

Lemma toStringVal_returns v :
  printable v = true → ∃ s, toStringVal v = Returns s.
Proof.
  induction v as [| | | | |elems IH|props IH] using JsVal_nested_ind;
    intros Hv; simpl; try by eexists.
  - apply joinVals_returns. simpl in Hv. rewrite forallb_forall in Hv.
    rewrite Forall_forall in IH. apply Forall_forall. intros x Hx.
    apply IH; [done|]. by apply Hv, list_elem_of_In.
  - simpl in Hv. apply negb_true_iff, bool_decide_eq_false in Hv.
    destruct (ownProp props "toString"); [|by eexists].
    by destruct Hv.
Qed.

Lemma printable_orVal a b :
  printable a = true → printable b = true → printable (orVal a b) = true.
Proof. unfold orVal. by destruct (truthyVal a). Qed.

Lemma addElement_returns obj elementMap :
  truthyVal (prop obj "object") && truthyVal (prop obj "externalId") = true →
  elementOk obj = true →
  ∃ elementMap', addElement obj elementMap = Returns elementMap'.
Proof.
  intros Helement Hok. unfold elementOk in Hok. rewrite Helement in Hok.
  apply andb_true_iff in Hok as [Hprint Hsection].
  destruct (toStringVal_returns _ Hprint) as [key Hkey].
  unfold addElement.
  assert (∃ family type category familyAndType,
    match prop obj "properties" with
    | JArr properties =>
        match invalidGroupSection properties with
        | Some metadata =>
            family ←! (a ←! readProp metadata "Family";
                       if truthyVal a then Returns a
                       else b ←! readProp metadata "Family Name";
                            Returns (orVal b (JStr "")));
            type ←! (a ←! readProp metadata "Type";
                     if truthyVal a then Returns a
                     else b ←! readProp metadata "Type Name";
                          Returns (orVal b (JStr "")));
            category ←! readProp metadata "Category";
            familyAndType ←! readProp metadata "Family and Type";
            Returns (family, type, orVal category (JStr ""),
                     orVal familyAndType (JStr ""))
        | None => Returns (JStr "", JStr "", JStr "", JStr "")
        end
    | _ => Returns (JStr "", JStr "", JStr "", JStr "")
    end = Returns (family, type, category, familyAndType)
    ∧ printable family = true ∧ printable type = true
    ∧ printable category = true ∧ printable familyAndType = true)
    as (family & type & category & familyAndType & -> & Hf & Ht & Hc & Hft).
  { destruct (prop obj "properties"); try by eexists _, _, _, _.
    destruct (invalidGroupSection elems) as [metadata|];
      [|by eexists _, _, _, _].
    assert (metadata ≠ JNull ∧ metadata ≠ JUndefined) as [Hnull Hundef].
    { by destruct metadata. }
    assert (∀ label, label ∈ sectionLabels →
                     printable (prop metadata label) = true) as Hlabel.
    { intros label Hin.
      assert (forallb (λ label, printable (prop metadata label)) sectionLabels
              = true) as Hall by (by destruct metadata).
      rewrite forallb_forall in Hall. by apply Hall, list_elem_of_In. }
    assert (∀ label, label ∈ sectionLabels →
              printable (orVal (prop metadata label) (JStr "")) = true)
      as Hor.
    { intros label Hin. apply printable_orVal; [by apply Hlabel|done]. }
    rewrite !readProp_returns by done. simpl.
    destruct (truthyVal (prop metadata "Family"));
      destruct (truthyVal (prop metadata "Type")); simpl;
      eexists _, _, _, _; (split; [reflexivity|]);
      repeat split;
      first [apply Hlabel | apply Hor]; unfold sectionLabels; set_solver. }
  simpl. rewrite Hkey.
  assert (∃ displayName,
    (if truthyVal familyAndType then Returns familyAndType
     else if truthyVal family then Returns family
     else if truthyVal type then Returns type
     else Returns (JStr ("Element_" +:+ key))) = Returns displayName
    ∧ printable displayName = true) as (displayName & Hname & Hd).
  { destruct (truthyVal familyAndType); [by eexists|].
    destruct (truthyVal family); [by eexists|].
    destruct (truthyVal type); by eexists. }
  destruct (toStringVal_returns _ Hd) as [name Hn].
  destruct (toStringVal_returns _ Hc) as [label Hl].
  simpl. rewrite Hname. simpl.
  destruct (_ <=? _)%nat; simpl; [|by eexists].
  rewrite Hn. simpl. rewrite Hl. by eexists.
Qed.

Lemma regular_elementOk v : regular v = true → elementOk v = true.
Proof.
  destruct v; cbn [regular]; intros H; by apply andb_true_iff in H as [? _].
Qed.

Lemma regular_elem elems x :
  regular (JArr elems) = true → x ∈ elems → regular x = true.
Proof.
  cbn [regular]. intros [_ Hall]%andb_true_iff Hin.
  rewrite forallb_forall in Hall. by apply Hall, list_elem_of_In.
Qed.

Lemma regular_prop obj k : regular obj = true → regular (prop obj k) = true.
Proof.
  destruct obj as [| | | | | |props]; try done.
  cbn [regular]. intros [_ Hall]%andb_true_iff.
  cbn [prop]. induction props as [|[k' x] props IH]; [done|].
  cbn [forallb] in Hall. apply andb_true_iff in Hall as [Hx Hrest].
  cbn [ownProp]. case_bool_decide; [done|]. by apply IH.
Qed.

(** On a regular payload the traversal returns an index. *)
Lemma traverseJson_returns fuel obj elementMap :
  (depthVal obj < fuel)%nat → regular obj = true →
  ∃ elementMap', traverseJson fuel obj elementMap = Returns elementMap'.
Proof.
  revert obj elementMap.
  induction fuel as [|fuel IH]; intros obj elementMap Hdepth Hreg; [lia|].
  cbn [traverseJson]. destruct (negb (truthyVal obj)); [by eexists|].
  set (each := fix each (children : list JsVal) (elementMap : JsMap RawRecord) :=
         match children with
         | [] => Returns elementMap
         | child :: rest =>
             bindOutcome (traverseJson fuel child elementMap) (each rest)
         end).
  assert (∀ children m,
            (∀ child, child ∈ children →
                      (depthVal child < fuel)%nat ∧ regular child = true) →
            ∃ m', each children m = Returns m') as Heach.
  { induction children as [|child rest IHc]; intros m Hsmall; simpl; [by eexists|].
    destruct (Hsmall child) as [Hd Hr]; [by left|].
    destruct (IH child m Hd Hr) as [m' ->]. simpl.
    apply IHc. intros x Hx. apply Hsmall. by right. }
  assert (∃ m1, (if truthyVal (prop obj "object")
                    && truthyVal (prop obj "externalId")
                 then addElement obj elementMap else Returns elementMap)
                = Returns m1) as [m1 ->].
  { destruct (_ && _) eqn:Helement; [|by eexists].
    apply addElement_returns; [done|]. by apply regular_elementOk. }
  simpl.
  assert (∃ m2, match prop obj "objects" with
                | JArr children => each children m1
                | _ => Returns m1
                end = Returns m2) as [m2 ->].
  { destruct (prop obj "objects") as [| | | | |children|] eqn:Hprop;
      try by eexists.
    apply Heach. intros child Hchild. split.
    - pose proof (depthVal_elem _ _ Hchild) as Hlt.
      destruct (depthVal_prop obj "objects") as [Hp|Hp];
        rewrite Hprop in Hp; [lia|done].
    - apply (regular_elem children); [|done].
      rewrite <- Hprop. by apply regular_prop. }
  simpl. destruct obj as [| | | | |children|]; try by eexists.
  apply Heach. intros child Hchild. split.
  - pose proof (depthVal_elem _ _ Hchild). lia.
  - by apply (regular_elem children).
Qed.

(** Malformed or partial metadata of that kind gives an index, never an
    error. *)
Lemma parseJsonMetadata_returns jsonData :
  regular jsonData = true →
  ∃ elementMap, parseJsonMetadata jsonData = Returns elementMap.
Proof.
  intros Hreg. unfold parseJsonMetadata.
  destruct (truthyVal jsonData && truthyVal (prop jsonData "data")).
  - apply traverseJson_returns; [|by apply regular_prop].
    destruct (depthVal_prop jsonData "data") as [Hp|Hp]; [lia|].
    rewrite Hp. simpl. lia.
  - destruct (truthyVal jsonData && truthyVal (prop jsonData "objects"));
      [|by eexists].
    apply traverseJson_returns; [lia|done].
Qed.

(** Absent metadata and a payload without the expected root give an empty
    index. *)
Lemma parseJsonMetadata_absent :
  parseJsonMetadata JNull = Returns []
  ∧ parseJsonMetadata (JObj [("version", JNum 2)]) = Returns [].
Proof. split; reflexivity. Qed.

(** A well-formed payload is indexed by element id, a missing label
    giving an empty string. *)
Lemma parseJsonMetadata_payload :
  parseJsonMetadata Sample.payload
  = Returns
      [ ("12", {| raw_elementId := JNum 12;
                  raw_externalId :=
                    JStr "00000000-0000-0000-0000-000000000001-abcdef12";
                  raw_familyName := JStr "Basic Wall";
                  raw_typeName := JStr "Generic 200";
                  raw_category := JStr "OST_Walls";
                  raw_displayName := JStr "Basic Wall" |});
        ("7", {| raw_elementId := JStr "7";
                 raw_externalId := JStr "e7";
                 raw_familyName := JStr "";
                 raw_typeName := JStr "";
                 raw_category := JStr "";
                 raw_displayName := JStr "Element_7" |}) ].
Proof. reflexivity. Qed.

(** C4. Metadata parse totality does not hold of the code: on an element
    whose ['Invalid group'] label is followed by [null], reading
    [metadata['Family']] throws, and [parseJsonMetadata] passes the
    [TypeError] on to its caller instead of an index. *)
Theorem parseJsonMetadata_null_section_throws :
  parseJsonMetadata Sample.nullSection = Throws "TypeError".
Proof. reflexivity. Qed.

End parsing.

(** ** Text-like meshes *)

Section text_like.

Lemma triangles_elementCount g :
  (triangles g == inject_Z (Z.of_N (elementCount g)) / 3)%Q.
Proof. unfold triangles, elementCount. by destruct (geo_index g). Qed.

Lemma third_below_100 (z : Z) : (inject_Z z / 3 < 100)%Q ↔ (z < 300)%Z.
Proof. unfold Qlt, Qdiv, Qmult, Qinv, inject_Z; simpl. lia. Qed.

(** The count that the pass compares is the triangle count of the
    specification. *)
Lemma triangles_triangleCount g : (triangles g == triangleCount g)%Q.
Proof.
  unfold triangles, triangleCount.
  destruct (geo_index g) as [indexCount|], (geo_position g) as [vertexCount|];
    unfold Qeq, Qdiv, Qmult, Qinv, inject_Z; simpl; lia.
Qed.

Lemma prepareMesh_isText child m :
  node_mesh child = Some m →
  isText (node_userData (prepareMesh child))
  = if Qlt_le_dec (triangles (geometry m)) 100 then true
    else isText (node_userData child).
Proof.
  intros Hm. unfold prepareMesh. rewrite Hm. simpl.
  by destruct (Qlt_le_dec _ _).
Qed.

Lemma node_mesh_prepareMesh child :
  node_mesh (prepareMesh child) = node_mesh child.
Proof. unfold prepareMesh. by destruct (node_mesh child) eqn:Hm. Qed.

(** What the callback does to one object. *)
Lemma prepareMesh_flag child :
  match node_mesh child with
  | Some m =>
      node_mesh (prepareMesh child) = Some m
      ∧ (isText (node_userData (prepareMesh child)) = true
         ↔ (triangleCount (geometry m) < 100)%Q
           ∨ isText (node_userData child) = true)
  | None => prepareMesh child = child
  end.
Proof.
  destruct (node_mesh child) as [m|] eqn:Hm.
  - split; [by rewrite node_mesh_prepareMesh|].
    rewrite (prepareMesh_isText _ _ Hm), <- triangles_triangleCount.
    destruct (Qlt_le_dec _ _) as [Hlt|Hge].
    + split; [by left|done].
    + split; [by right|]. intros [Hlt|Hflag]; [|done].
      by destruct (Qle_not_lt _ _ Hge).
  - unfold prepareMesh. by rewrite Hm.
Qed.

(** The pass visits the objects of the scene in the order of the
    traversal and leaves each where it is. *)
Lemma traverse_prepareScene_flags o ref parents parents' :
  Forall2 (λ before after,
             v_ref after = v_ref before
             ∧ match node_mesh (v_node before) with
               | Some m =>
                   node_mesh (v_node after) = Some m
                   ∧ (isText (node_userData (v_node after)) = true
                      ↔ (triangleCount (geometry m) < 100)%Q
                        ∨ isText (node_userData (v_node before)) = true)
               | None => v_node after = v_node before
               end)
          (traverse ref parents o) (traverse ref parents' (prepareScene o)).
Proof.
  revert ref parents parents'.
  induction o as [d cs IH] using Object3D_children_ind.
  intros ref parents parents'. cbn [prepareScene traverse].
  apply Forall2_cons. split.
  - split; [done|]. apply prepareMesh_flag.
  - generalize 0%nat.
    induction cs as [|child cs IHcs]; intros i; [constructor|].
    apply Forall_cons in IH as [Hchild Hcs]. cbn [map forEachChild].
    apply Forall2_app; [apply Hchild|by apply IHcs].
Qed.

Lemma LoadedObject_children_ind (P : LoadedObject → Prop) :
  (∀ d cs, Forall P cs → P (Loaded d cs)) → ∀ o, P o.
Proof.
  intros Hstep. fix IH 1. intros [d cs]. apply Hstep.
  induction cs as [|c cs IHcs]; constructor; [apply IH|exact IHcs].
Qed.

(** No object that the loader delivers carries the flag. *)
Lemma traverse_fromLoader collada ref parents :
  Forall (λ v, isText (node_userData (v_node v)) = false)
         (traverse ref parents (fromLoader collada)).
Proof.
  revert ref parents.
  induction collada as [d cs IH] using LoadedObject_children_ind.
  intros ref parents. cbn [fromLoader traverse]. apply Forall_cons.
  split; [done|]. generalize 0%nat.
  induction cs as [|child cs IHcs]; intros i; [done|].
  apply Forall_cons in IH as [Hchild Hcs]. cbn [map forEachChild].
  apply Forall_app. split; [apply Hchild|by apply IHcs].
Qed.

(** C7. Text-like threshold.  The mesh pass of [loadModel] goes through
    the objects of the scene in traversal order and leaves an object that
    is not a mesh as it is; a mesh keeps its geometry and carries the
    text flag afterwards exactly when its triangle count (the index
    count over 3, or the vertex count over 3 without an index) is below
    100, or when it carried the flag already.  On the scene that the
    loader delivers, where no flag is set, a mesh is flagged exactly when
    its triangle count is below 100.  A flagged node without a metadata
    match is categorised "Text & Annotations", and so is every mesh of
    fewer than 100 triangles of a loaded scene that has no metadata
    match. *)
Theorem text_like_threshold :
  (∀ o ref parents parents',
     Forall2 (λ before after,
                v_ref after = v_ref before
                ∧ match node_mesh (v_node before) with
                  | Some m =>
                      node_mesh (v_node after) = Some m
                      ∧ (isText (node_userData (v_node after)) = true
                         ↔ (triangleCount (geometry m) < 100)%Q
                           ∨ isText (node_userData (v_node before)) = true)
                  | None => v_node after = v_node before
                  end)
             (traverse ref parents o) (traverse ref parents' (prepareScene o)))
  ∧ (∀ collada ref parents child m,
       child ∈ traverse ref parents (prepareScene (fromLoader collada)) →
       node_mesh (v_node child) = Some m →
       isText (node_userData (v_node child)) = true
       ↔ (triangleCount (geometry m) < 100)%Q)
  ∧ (∀ metadataRef parents node displayName,
       isText (node_userData node) = true →
       getElementMetadata metadataRef node = None →
       extractCategory metadataRef parents node displayName
       = "Text & Annotations")
  ∧ (∀ collada ref parents metadataRef child m displayName,
       child ∈ traverse ref parents (prepareScene (fromLoader collada)) →
       node_mesh (v_node child) = Some m →
       (triangleCount (geometry m) < 100)%Q →
       getElementMetadata metadataRef (v_node child) = None →
       extractCategory metadataRef (v_parents child) (v_node child) displayName
       = "Text & Annotations").
Proof.
  assert (∀ collada ref parents child m,
            child ∈ traverse ref parents (prepareScene (fromLoader collada)) →
            node_mesh (v_node child) = Some m →
            isText (node_userData (v_node child)) = true
            ↔ (triangleCount (geometry m) < 100)%Q) as Hloaded.
  { intros collada ref parents child m Hin Hm.
    apply list_elem_of_lookup in Hin as [i Hi].
    destruct (Forall2_lookup_r _ _ _ _ _
                (traverse_prepareScene_flags (fromLoader collada) ref parents parents)
                Hi) as (before & Hbefore & _ & Hflag).
    pose proof (traverse_fromLoader collada ref parents) as Hfresh.
    rewrite Forall_lookup in Hfresh. specialize (Hfresh i before Hbefore).
    destruct (node_mesh (v_node before)) as [m'|] eqn:Hm'.
    - destruct Hflag as [Hsame Hflag]. rewrite Hm in Hsame. injection Hsame as ->.
      rewrite Hflag. split; [|by left]. intros [Hlt|Habs]; [done|congruence].
    - rewrite Hflag, Hm' in Hm. discriminate. }
  assert (∀ metadataRef parents node displayName,
            isText (node_userData node) = true →
            getElementMetadata metadataRef node = None →
            extractCategory metadataRef parents node displayName
            = "Text & Annotations") as Hcategory.
  { intros metadataRef parents node displayName Htext Hnone.
    unfold extractCategory. by rewrite Hnone, Htext. }
  split; [apply traverse_prepareScene_flags|]. split; [exact Hloaded|].
  split; [exact Hcategory|].
  intros collada ref parents metadataRef child m displayName Hin Hm Hlt Hnone.
  apply Hcategory; [|done]. by apply (Hloaded collada ref parents child m).
Qed.

(** The mesh of 30 triangles without an index buffer, as loaded, is
    flagged by the pass and, without metadata, categorised "Text &
    Annotations". *)
Lemma text_like_threshold_witness :
  ∃ child m,
    traverse [] [] (prepareScene (fromLoader Sample.loadedLabel)) !! 1%nat
      = Some child
    ∧ node_mesh (v_node child) = Some m
    ∧ (triangleCount (geometry m) == 30)%Q
    ∧ isText (node_userData (v_node child)) = true
    ∧ extractCategory None (v_parents child) (v_node child) "Label"
      = "Text & Annotations".
Proof.
  destruct text_like_threshold as (_ & Hflag & _ & Hcategory).
  eexists _, (Sample.meshData "" 90 NoMaterial).
  split; [reflexivity|]. split; [reflexivity|]. split; [reflexivity|].
  split.
  - refine (proj2 (Hflag Sample.loadedLabel [] [] _
                     (Sample.meshData "" 90 NoMaterial) _ _) _).
    + apply list_elem_of_lookup. by exists 1%nat.
    + reflexivity.
    + reflexivity.
  - apply (Hcategory Sample.loadedLabel [] [] None _
             (Sample.meshData "" 90 NoMaterial)).
    + apply list_elem_of_lookup. by exists 1%nat.
    + reflexivity.
    + reflexivity.
    + reflexivity.
Defined.

End text_like.

(** ** Building the tree *)

(** A traversal callback that claims meshes not yet claimed and leaves
    everything else alone, as both callbacks of [buildModelTree] do. *)
Section collecting.

Context (metadataRef : option MetadataIndex) (visits : list Visit).
Context (f : Collect → Visit → Collect) (wanted : Visit → Prop).

Hypothesis f_cases : ∀ c items i child,
  f (c, items, i) child = (c, items, i)
  ∨ (isMesh (v_node child)
     ∧ (node_uuid (v_node child) ∉ processedMeshes c)
     ∧ f (c, items, i) child
       = (claim child c, items ++ [treeItem metadataRef child i], S i)).

Hypothesis f_claims : ∀ c items i child,
  wanted child → isMesh (v_node child) →
  node_uuid (v_node child) ∈ processedMeshes (fst (fst (f (c, items, i) child))).

Lemma collect_mono children c items i :
  processedMeshes c ⊆ processedMeshes (fst (fst (fold_left f children (c, items, i)))).
Proof using f_cases.
  clear f_claims wanted.
  revert c items i. induction children as [|child children IH]; intros c items i.
  - done.
  - simpl. destruct (f_cases c items i child) as [->|(_ & _ & ->)]; [apply IH|].
    etrans; [|apply IH]. simpl. set_solver.
Qed.

Lemma collect_claims children c items i child :
  child ∈ children → wanted child → isMesh (v_node child) →
  node_uuid (v_node child)
  ∈ processedMeshes (fst (fst (fold_left f children (c, items, i)))).
Proof.
  revert c items i. induction children as [|x children IH]; intros c items i Hin.
  - by apply elem_of_nil in Hin.
  - intros Hwanted Hmesh. simpl. apply elem_of_cons in Hin as [->|Hin].
    + pose proof (f_claims c items i x Hwanted Hmesh) as Hx.
      destruct (f (c, items, i) x) as [[c1 items1] i1].
      by apply collect_mono.
    + destruct (f (c, items, i) x) as [[c1 items1] i1]. by apply IH.
Qed.

Lemma collect_claimedBy children base c items i :
  (∀ child, child ∈ children → child ∈ visits) →
  claimedBy metadataRef visits c (base ++ items) →
  ∃ c' items' i',
    fold_left f children (c, items, i) = (c', items', i')
    ∧ claimedBy metadataRef visits c' (base ++ items').
Proof using f_cases.
  clear f_claims wanted.
  revert c items i. induction children as [|child children IH];
    intros c items i Hvisits Hinv.
  - by exists c, items, i.
  - simpl.
    assert (∀ x, x ∈ children → x ∈ visits) as Hrest.
    { intros x Hx. apply Hvisits. by right. }
    destruct (f_cases c items i child) as [->|(Hmesh & Hfresh & ->)];
      [by apply IH|].
    apply IH; [done|].
    destruct Hinv as (Hnodup & Hmem & Hentries & Hmaps).
    rewrite app_assoc. split; [|split; [|split]].
    + rewrite fmap_app. apply NoDup_app. split; [done|]. split.
      * intros u Hu Hu'. apply list_elem_of_singleton in Hu'. subst u.
        by apply Hfresh, Hmem.
      * apply NoDup_singleton.
    + intros u. rewrite fmap_app, elem_of_app. simpl.
      rewrite elem_of_union, elem_of_singleton, list_elem_of_singleton, Hmem.
      tauto.
    + apply Forall_app. split; [done|]. apply Forall_singleton.
      exists child, i. split; [|done]. apply Hvisits. by left.
    + apply Forall_app. split.
      * apply Forall_forall. intros item Hitem.
        rewrite Forall_forall in Hmaps. destruct (Hmaps item Hitem) as [Hobj Hvis].
        assert (node_uuid (v_node child) ≠ item_id item) as Hne.
        { intros Heq. apply Hfresh, Hmem. rewrite Heq.
          by apply list_elem_of_fmap_2. }
        simpl. by rewrite !lookup_insert_ne.
      * apply Forall_singleton. simpl. by rewrite !lookup_insert_eq.
Qed.

End collecting.

Section building.

Context (metadataRef : option MetadataIndex).
Context (expandedCategories : gmap string bool) (visits : list Visit).

(** The visits are those of one traversal: what is visited from a visited
    object is visited. *)
Hypothesis visits_closed : ∀ v w, v ∈ visits → w ∈ traverseFrom v → w ∈ visits.

Lemma groupVisit_cases g c items i child :
  groupVisit metadataRef g (c, items, i) child = (c, items, i)
  ∨ (isMesh (v_node child)
     ∧ (node_uuid (v_node child) ∉ processedMeshes c)
     ∧ groupVisit metadataRef g (c, items, i) child
       = (claim child c, items ++ [treeItem metadataRef child i], S i)).
Proof.
  unfold groupVisit. destruct (isMesh (v_node child)); simpl; [|by left].
  case_bool_decide; simpl; [by left|].
  case_bool_decide; simpl; [by left|]. by right.
Qed.

Lemma groupVisit_claims g c items i child :
  v_ref child ≠ v_ref g → isMesh (v_node child) →
  node_uuid (v_node child)
  ∈ processedMeshes (fst (fst (groupVisit metadataRef g (c, items, i) child))).
Proof.
  intros Href Hmesh. unfold groupVisit.
  rewrite (Is_true_true_1 _ Hmesh), (bool_decide_eq_false_2 _ Href). simpl.
  case_bool_decide; simpl; [done|]. set_solver.
Qed.

Lemma uncategorizedVisit_cases c items i child :
  uncategorizedVisit metadataRef (c, items, i) child = (c, items, i)
  ∨ (isMesh (v_node child)
     ∧ (node_uuid (v_node child) ∉ processedMeshes c)
     ∧ uncategorizedVisit metadataRef (c, items, i) child
       = (claim child c, items ++ [treeItem metadataRef child i], S i)).
Proof.
  unfold uncategorizedVisit. destruct (isMesh (v_node child)); simpl; [|by left].
  case_bool_decide; simpl; [by left|]. by right.
Qed.

Lemma uncategorizedVisit_claims c items i child :
  True → isMesh (v_node child) →
  node_uuid (v_node child)
  ∈ processedMeshes (fst (fst (uncategorizedVisit metadataRef (c, items, i) child))).
Proof.
  intros _ Hmesh. unfold uncategorizedVisit.
  rewrite (Is_true_true_1 _ Hmesh). simpl.
  case_bool_decide; simpl; [done|]. set_solver.
Qed.

Lemma treeItems_snoc tree category :
  treeItems (tree ++ [category]) = treeItems tree ++ tn_items category.
Proof. unfold treeItems. by rewrite bind_app, bind_singleton. Qed.

(** One group: the entries stay in step with the claimed set, every entry
    so far is a group entry, and every mesh below the group is claimed
    afterwards. *)
Lemma groupStep_spec c tree groupInfo :
  claimedBy metadataRef visits c (treeItems tree) →
  Forall (λ category, tn_type category = GroupKind) tree →
  ∃ c' tree',
    groupStep metadataRef expandedCategories visits (c, tree) groupInfo
    = (c', tree')
    ∧ claimedBy metadataRef visits c' (treeItems tree')
    ∧ Forall (λ category, tn_type category = GroupKind) tree'
    ∧ processedMeshes c ⊆ processedMeshes c'
    ∧ (∀ g w, findNodeByUuid visits (info_uuid groupInfo) = Some g →
              below g w → isMesh (v_node w) →
              node_uuid (v_node w) ∈ processedMeshes c').
Proof.
  intros Hinv Hkind. unfold groupStep.
  destruct (findNodeByUuid visits (info_uuid groupInfo)) as [g|] eqn:Hfind.
  - apply findNodeByUuid_Some in Hfind as [Hg _].
    destruct (collect_claimedBy metadataRef visits _ (groupVisit_cases g)
                (traverseFrom g) (treeItems tree) c [] 0%nat)
      as (c' & items' & i' & Hfold & Hinv').
    { intros child. by apply visits_closed. }
    { by rewrite app_nil_r. }
    pose proof (collect_mono metadataRef _ (groupVisit_cases g)
                  (traverseFrom g) c [] 0%nat) as Hmono.
    pose proof (λ child, collect_claims metadataRef _ (λ child, v_ref child ≠ v_ref g)
                  (groupVisit_cases g) (groupVisit_claims g)
                  (traverseFrom g) c [] 0%nat child) as Hclaims.
    rewrite Hfold in Hmono, Hclaims. simpl in Hmono, Hclaims.
    rewrite Hfold.
    assert (∀ g' w, Some g = Some g' → below g' w → isMesh (v_node w) →
                    node_uuid (v_node w) ∈ processedMeshes c') as Hbelow.
    { intros g' w [= <-] [Hw Href] Hmesh. by apply Hclaims. }
    destruct (0 <? length items')%nat eqn:Hlen.
    + eexists _, _. split; [done|]. split; [|split; [|done]].
      * by rewrite treeItems_snoc.
      * apply Forall_app. split; [done|]. by apply Forall_singleton.
    + exists c', tree. split; [done|]. split; [|done].
      destruct items'; [|done]. by rewrite app_nil_r in Hinv'.
  - exists c, tree. split; [done|]. split; [done|]. split; [done|].
    split; [done|]. by intros g w [=].
Qed.

Lemma groupFold_spec groupNodes c tree :
  claimedBy metadataRef visits c (treeItems tree) →
  Forall (λ category, tn_type category = GroupKind) tree →
  ∃ c' tree',
    fold_left (groupStep metadataRef expandedCategories visits) groupNodes (c, tree)
    = (c', tree')
    ∧ claimedBy metadataRef visits c' (treeItems tree')
    ∧ Forall (λ category, tn_type category = GroupKind) tree'
    ∧ processedMeshes c ⊆ processedMeshes c'
    ∧ (∀ groupInfo g w,
         groupInfo ∈ groupNodes →
         findNodeByUuid visits (info_uuid groupInfo) = Some g →
         below g w → isMesh (v_node w) →
         node_uuid (v_node w) ∈ processedMeshes c').
Proof.
  revert c tree. induction groupNodes as [|groupInfo groupNodes IH];
    intros c tree Hinv Hkind.
  - exists c, tree. split; [done|]. split; [done|]. split; [done|].
    split; [done|]. by intros groupInfo g w ?%elem_of_nil.
  - cbn [fold_left].
    destruct (groupStep_spec c tree groupInfo Hinv Hkind)
      as (c1 & tree1 & -> & Hinv1 & Hkind1 & Hmono1 & Hclaims1).
    destruct (IH c1 tree1 Hinv1 Hkind1)
      as (c' & tree' & -> & Hinv' & Hkind' & Hmono' & Hclaims').
    exists c', tree'. split; [done|]. split; [done|]. split; [done|].
    split; [by etrans|].
    intros info g w Hin Hfind Hbelow Hmesh.
    apply elem_of_cons in Hin as [->|Hin].
    + by apply Hmono', (Hclaims1 g w).
    + by apply (Hclaims' info g w).
Qed.

Lemma claimedBy_none : claimedBy metadataRef visits noneClaimed [].
Proof.
  split; [apply NoDup_nil_2|]. split; [|done].
  intros u. simpl. set_solver.
Qed.

Lemma groupNode_recorded g :
  g ∈ visits → groupNode g → nodeInfo g ∈ groupNodesOf visits.
Proof.
  intros Hg [Hgroup Hchildren]. apply list_elem_of_filter. split.
  - apply andb_True. split; [done|]. by apply Is_true_true, Nat.ltb_lt.
  - by apply list_elem_of_fmap_2.
Qed.

(** The group pass: it runs when more than one group node is recorded,
    and then claims every mesh below a group node. *)
Lemma groupPass_spec :
  ∃ c groups,
    groupPass metadataRef expandedCategories visits = (c, groups)
    ∧ claimedBy metadataRef visits c (treeItems groups)
    ∧ Forall (λ category, tn_type category = GroupKind) groups
    ∧ ((length (groupNodesOf visits) ≤ 1)%nat → groups = [])
    ∧ ((1 < length (groupNodesOf visits))%nat →
       NoDup ((λ child, node_uuid (v_node child)) <$> visits) →
       ∀ g w, g ∈ visits → groupNode g → below g w → isMesh (v_node w) →
              node_uuid (v_node w) ∈ processedMeshes c).
Proof.
  unfold groupPass. destruct (1 <? length (groupNodesOf visits))%nat eqn:Hlen.
  - apply Nat.ltb_lt in Hlen.
    destruct (groupFold_spec (groupNodesOf visits) noneClaimed []
                claimedBy_none (Forall_nil_2 _))
      as (c & groups & -> & Hinv & Hkind & _ & Hclaims).
    exists c, groups. split; [done|]. split; [done|]. split; [done|].
    split; [lia|]. intros _ Hnodup g w Hg Hgroup Hbelow Hmesh.
    apply (Hclaims (nodeInfo g) g w); [by apply groupNode_recorded| |done|done].
    by apply findNodeByUuid_unique.
  - apply Nat.ltb_ge in Hlen.
    exists noneClaimed, []. split; [done|]. split; [apply claimedBy_none|].
    split; [done|]. split; [done|]. lia.
Qed.

(** The second traversal claims every mesh that is left. *)
Lemma uncategorizedPass_spec c groups :
  claimedBy metadataRef visits c (treeItems groups) →
  ∃ c' uncategorizedMeshes i,
    uncategorizedPass metadataRef visits c = (c', uncategorizedMeshes, i)
    ∧ claimedBy metadataRef visits c' (treeItems groups ++ uncategorizedMeshes)
    ∧ (∀ child, child ∈ visits → isMesh (v_node child) →
                node_uuid (v_node child) ∈ processedMeshes c').
Proof.
  intros Hinv. unfold uncategorizedPass.
  destruct (collect_claimedBy metadataRef visits _ uncategorizedVisit_cases
              visits (treeItems groups) c [] 0%nat)
    as (c' & items' & i' & Hfold & Hinv'); [done|by rewrite app_nil_r|].
  pose proof (λ child, collect_claims metadataRef _ (λ _, True)
                uncategorizedVisit_cases uncategorizedVisit_claims
                visits c [] 0%nat child) as Hclaims.
  rewrite Hfold in Hclaims. simpl in Hclaims. rewrite Hfold.
  exists c', items', i'. split; [done|]. split; [done|].
  intros child Hin Hmesh. by apply Hclaims.
Qed.

End building.

(** ** Grouping by category *)

Section categories.

Implicit Types (categories : JsMap (list TreeItem)) (item : TreeItem).

Lemma pushCategory_items categories k item :
  pushCategory categories k item ≫= snd ≡ₚ (categories ≫= snd) ++ [item].
Proof.
  induction categories as [|[k' items] rest IH]; simpl; [done|].
  case_bool_decide.
  - rewrite !bind_cons. simpl. rewrite <- !app_assoc.
    f_equiv. apply Permutation_app_comm.
  - rewrite !bind_cons, IH. simpl. by rewrite app_assoc.
Qed.

Lemma categorise_fold items categories :
  fold_left (λ categories meshItem,
               pushCategory categories (item_category meshItem) meshItem)
            items categories ≫= snd
  ≡ₚ (categories ≫= snd) ++ items.
Proof.
  revert categories. induction items as [|item items IH]; intros categories; simpl.
  - by rewrite app_nil_r.
  - rewrite IH, pushCategory_items. by rewrite <- app_assoc.
Qed.

(** Every entry is filed once. *)
Lemma categorise_items items : categorise items ≫= snd ≡ₚ items.
Proof. unfold categorise. by rewrite categorise_fold. Qed.

(** An entry of [categories]: a category with the entries of that
    category, at least one. *)
Lemma pushCategory_keyed categories item :
  Forall (λ e, Forall (λ i, item_category i = e.1) e.2 ∧ e.2 ≠ []) categories →
  Forall (λ e, Forall (λ i, item_category i = e.1) e.2 ∧ e.2 ≠ [])
         (pushCategory categories (item_category item) item).
Proof.
  induction categories as [|[k items] rest IH]; intros Hall; simpl.
  - apply Forall_singleton. split; [by apply Forall_singleton|done].
  - apply Forall_cons in Hall as [[Hitems Hne] Hrest]. case_bool_decide as Hk.
    + apply Forall_cons. split; [|done]. simpl in *. split.
      * apply Forall_app. split; [done|]. by apply Forall_singleton.
      * by destruct items.
    + apply Forall_cons. split; [done|]. by apply IH.
Qed.

Lemma categorise_keyed items :
  Forall (λ e, Forall (λ i, item_category i = e.1) e.2 ∧ e.2 ≠ [])
         (categorise items).
Proof.
  unfold categorise. generalize (Forall_nil_2
    (λ e : string * list TreeItem,
       Forall (λ i, item_category i = e.1) e.2 ∧ e.2 ≠ [])).
  generalize (@nil (string * list TreeItem)) as categories.
  induction items as [|item items IH]; intros categories Hall; simpl; [done|].
  apply IH. by apply pushCategory_keyed.
Qed.

Lemma indexed_entries {V} (o : JsMap V) :
  (omap (λ e, (λ n, (n, e)) <$> arrayIndex e.1) o).*2
  = filter (λ e, arrayIndex e.1 ≠ None) o.
Proof.
  induction o as [|e o IH]; [done|].
  rewrite filter_cons. cbn [omap list_omap].
  destruct (decide _) as [Hidx|Hidx].
  - destruct (arrayIndex e.1) as [n|]; [|done].
    cbn [fmap option_fmap option_map]. rewrite fmap_cons. by f_equal.
  - destruct (arrayIndex e.1) as [n|]; [|exact IH]. by destruct Hidx.
Qed.

(** [Object.entries] lists every entry once. *)
Lemma objectEntries_Permutation {V} (o : JsMap V) : objectEntries o ≡ₚ o.
Proof.
  unfold objectEntries.
  rewrite merge_sort_Permutation, indexed_entries, Permutation_app_comm.
  apply filter_app_complement.
Qed.

Lemma treeItems_categoryNodes expandedCategories entries :
  treeItems (categoryNode expandedCategories <$> entries) = entries ≫= snd.
Proof.
  unfold treeItems. induction entries as [|[k items] rest IH]; [done|].
  rewrite fmap_cons, !bind_cons. by rewrite IH.
Qed.

End categories.

(** ** The tree that is built *)

Section tree.

Context (metadataRef : option MetadataIndex).
Context (expandedCategories : gmap string bool).
Context (sceneParents : list NodeData) (modelScene : Object3D).

Abbreviation visits := (traverse [] sceneParents modelScene).
Abbreviation built :=
  (br_modelTree (buildModelTree metadataRef expandedCategories
                                sceneParents modelScene)).

(** The tree is the group entries followed by the category entries of
    the meshes left over; together they hold each claimed mesh once. *)
Lemma buildModelTree_spec :
  ∃ groups c uncategorizedMeshes,
    built
    = (if (0 <? length uncategorizedMeshes)%nat
       then groups ++ (categoryNode expandedCategories
                         <$> objectEntries (categorise uncategorizedMeshes))
       else groups)
    ∧ br_objectsMap (buildModelTree metadataRef expandedCategories
                                    sceneParents modelScene) = objectsMap c
    ∧ br_objectVisibility (buildModelTree metadataRef expandedCategories
                                          sceneParents modelScene)
      = visibilityMap c
    ∧ treeItems built ≡ₚ treeItems groups ++ uncategorizedMeshes
    ∧ Forall (λ category, tn_type category = GroupKind) groups
    ∧ claimedBy metadataRef visits c (treeItems groups ++ uncategorizedMeshes)
    ∧ (∀ child, child ∈ visits → isMesh (v_node child) →
                node_uuid (v_node child) ∈ processedMeshes c)
    ∧ ((length (groupNodesOf visits) ≤ 1)%nat → groups = [])
    ∧ ((1 < length (groupNodesOf visits))%nat →
       NoDup ((λ child, node_uuid (v_node child)) <$> visits) →
       ∀ g w, g ∈ visits → groupNode g → below g w → isMesh (v_node w) →
              node_uuid (v_node w) ∈ item_id <$> treeItems groups).
Proof.
  assert (∀ v w, v ∈ visits → w ∈ traverseFrom v → w ∈ visits) as Hclosed.
  { intros v w. apply traverse_sub. }
  destruct (groupPass_spec metadataRef expandedCategories visits Hclosed)
    as (c1 & groups & Hgroups & Hinv1 & Hkind & Hoff & Hon).
  destruct (uncategorizedPass_spec metadataRef visits Hclosed c1 groups Hinv1)
    as (c & uncats & i & Huncat & Hinv & Hall).
  exists groups, c, uncats.
  assert (built
          = (if (0 <? length uncats)%nat
             then groups ++ (categoryNode expandedCategories
                               <$> objectEntries (categorise uncats))
             else groups)) as Hbuilt.
  { unfold buildModelTree. rewrite Hgroups, Huncat. reflexivity. }
  split; [exact Hbuilt|].
  split; [unfold buildModelTree; by rewrite Hgroups, Huncat|].
  split; [unfold buildModelTree; by rewrite Hgroups, Huncat|].
  split.
  { rewrite Hbuilt. destruct uncats as [|item uncats]; cbn [length Nat.ltb Nat.leb];
      [by rewrite app_nil_r|].
    unfold treeItems at 1. rewrite bind_app.
    f_equiv; [done|].
    pose proof (treeItems_categoryNodes expandedCategories
                  (objectEntries (categorise (item :: uncats)))) as Hcat.
    unfold treeItems in Hcat. rewrite Hcat, objectEntries_Permutation.
    apply categorise_items. }
  split; [exact Hkind|]. split; [exact Hinv|]. split; [exact Hall|].
  split; [exact Hoff|]. intros Hlen Hnodup g w Hg Hgroup Hbelow Hmesh.
  destruct Hinv1 as (_ & Hmem & _). apply Hmem. by apply (Hon Hlen Hnodup g w).
Qed.

Lemma entryOf_mesh items u :
  Forall (entryOf metadataRef visits) items →
  u ∈ item_id <$> items → u ∈ meshUuids visits.
Proof.
  intros Hentries (item & -> & Hin)%list_elem_of_fmap.
  rewrite Forall_forall in Hentries.
  destruct (Hentries item Hin) as (child & index & Hchild & Hmesh & ->).
  unfold meshUuids. simpl.
  apply (list_elem_of_fmap_2 (λ child, node_uuid (v_node child))).
  by apply list_elem_of_filter.
Qed.

(** Every entry of the tree has its object in the object map, and the
    visibility state starts from the object's [visible] flag. *)
Lemma buildModelTree_maps item :
  item ∈ treeItems built →
  br_objectsMap (buildModelTree metadataRef expandedCategories
                                sceneParents modelScene) !! item_id item
  = Some (v_ref (item_object item))
  ∧ br_objectVisibility (buildModelTree metadataRef expandedCategories
                                        sceneParents modelScene) !! item_id item
    = Some (node_visible (v_node (item_object item))).
Proof.
  destruct buildModelTree_spec
    as (groups & c & uncats & _ & -> & -> & Hitems & _ & Hinv & _).
  destruct Hinv as (_ & _ & _ & Hmaps). rewrite Hitems.
  rewrite Forall_forall in Hmaps. apply Hmaps.
Qed.

(** C1. Partition invariant of tree building: the identities listed in
    the built tree have no duplicate and are exactly the identities of the
    mesh nodes of the scene, whichever pass claimed an entry; so with mesh
    identities that are unique, as uuids are, the entries are as many as
    the meshes and each mesh has one. *)
Theorem partition_invariant :
  NoDup (treeIds built)
  ∧ (∀ u, u ∈ treeIds built ↔ u ∈ meshUuids visits)
  ∧ (NoDup (meshUuids visits) →
     treeIds built ≡ₚ meshUuids visits
     ∧ length (treeItems built) = length (meshUuids visits)).
Proof.
  destruct buildModelTree_spec
    as (groups & c & uncats & _ & _ & _ & Hitems & _ & Hinv & Hall & _).
  destruct Hinv as (Hnodup & Hmem & Hentries & _).
  assert (treeIds built ≡ₚ item_id <$> (treeItems groups ++ uncats)) as Hids.
  { unfold treeIds. by rewrite Hitems. }
  assert (NoDup (treeIds built)) as Hnodup'.
  { by rewrite Hids. }
  assert (∀ u, u ∈ treeIds built ↔ u ∈ meshUuids visits) as Hsame.
  { intros u. rewrite Hids. split.
    - by apply entryOf_mesh.
    - unfold meshUuids.
      intros (child & -> & [Hmesh Hchild]%list_elem_of_filter)%list_elem_of_fmap.
      by apply Hmem, Hall. }
  split; [done|]. split; [done|]. intros Hmeshes.
  assert (treeIds built ≡ₚ meshUuids visits) as Hperm.
  { by apply NoDup_Permutation. }
  split; [done|].
  rewrite <- Hperm. unfold treeIds. by rewrite length_fmap.
Qed.

(** The nodes that the first traversal records are the structural
    nodes with a child. *)
Lemma structural_recorded v :
  structural v && match obj_children (v_obj v) with
                  | [] => false
                  | _ :: _ => true
                  end
  = info_isGroup (nodeInfo v) && (0 <? info_childCount (nodeInfo v))%nat.
Proof.
  unfold structural, nodeInfo. simpl.
  destruct (String.eqb_spec (node_type (v_node v)) "Group") as [->|Hgroup].
  - by destruct (obj_children (v_obj v)).
  - rewrite (bool_decide_eq_false_2 _ Hgroup).
    destruct (String.eqb_spec (node_type (v_node v)) "Object3D") as [->|Hobject].
    + by destruct (obj_children (v_obj v)).
    + by rewrite (bool_decide_eq_false_2 _ Hobject).
Qed.

Lemma groupNodesOf_structuralGroups vs :
  groupNodesOf vs = nodeInfo <$> structuralGroups vs.
Proof.
  unfold groupNodesOf, structuralGroups.
  induction vs as [|v vs IH]; [done|].
  rewrite fmap_cons, !filter_cons, IH, <- structural_recorded.
  by destruct (decide _).
Qed.

Lemma structuralGroups_groupNode vs g :
  g ∈ structuralGroups vs → g ∈ vs ∧ groupNode g.
Proof.
  unfold structuralGroups, groupNode.
  intros [Hg Hin]%list_elem_of_filter. split; [done|].
  rewrite structural_recorded in Hg. apply andb_True in Hg as [Hgroup Hchildren].
  split; [done|]. by apply Nat.ltb_lt, Is_true_true.
Qed.

(** C2 (amended). Group-pass trigger: the per-group construction runs
    exactly when the scene has more than one structural node (type Group
    or Object3D) with at least one child, whether or not a mesh lies
    below it.  With at most one such node, every entry of the tree is a
    category entry that is not empty and holds entries built by the
    classifier whose category is the entry's id, and every mesh of the
    scene is in one.  With more than one (uuids being unique), every mesh
    below such a node is listed in a group entry. *)
Theorem group_pass_trigger :
  ((length (structuralGroups visits) ≤ 1)%nat →
     (∀ category, category ∈ built →
        tn_type category = CategoryKind
        ∧ tn_items category ≠ []
        ∧ ∀ item, item ∈ tn_items category →
                  item_category item = tn_id category
                  ∧ entryOf metadataRef visits item)
     ∧ (∀ child, child ∈ visits → isMesh (v_node child) →
          ∃ category item,
            category ∈ built ∧ item ∈ tn_items category
            ∧ item_id item = node_uuid (v_node child)))
  ∧ ((1 < length (structuralGroups visits))%nat →
     NoDup ((λ child, node_uuid (v_node child)) <$> visits) →
     ∀ g w, g ∈ structuralGroups visits → below g w → isMesh (v_node w) →
       ∃ category item,
         category ∈ built ∧ tn_type category = GroupKind
         ∧ item ∈ tn_items category
         ∧ item_id item = node_uuid (v_node w)).
Proof.
  destruct buildModelTree_spec
    as (groups & c & uncats & Hbuilt & _ & _ & Hitems & Hkind & Hinv & Hall
        & Hoff & Hon).
  destruct Hinv as (Hnodup & Hmem & Hentries & _).
  rewrite groupNodesOf_structuralGroups, length_fmap in Hoff, Hon.
  split.
  - intros Hlen. specialize (Hoff Hlen). subst groups.
    rewrite app_nil_l in Hbuilt. simpl in Hitems, Hentries, Hmem. split.
    + intros category Hin. rewrite Hbuilt in Hin.
      destruct (0 <? length uncats)%nat; [|by apply elem_of_nil in Hin].
      apply list_elem_of_fmap in Hin as ([k items] & -> & Hin).
      rewrite objectEntries_Permutation in Hin.
      pose proof (categorise_keyed uncats) as Hkeyed.
      rewrite Forall_forall in Hkeyed.
      destruct (Hkeyed _ Hin) as [Hcat Hne]. simpl in Hcat, Hne.
      split; [done|]. split; [done|]. intros item Hitem. split.
      * rewrite Forall_forall in Hcat. by apply Hcat.
      * rewrite Forall_forall in Hentries. apply Hentries.
        rewrite <- (categorise_items uncats).
        apply list_elem_of_bind. by exists (k, items).
    + intros child Hchild Hmesh.
      pose proof (proj1 (Hmem _) (Hall child Hchild Hmesh)) as Hid.
      apply list_elem_of_fmap in Hid as (item & Hid & Hitem).
      rewrite <- Hitems in Hitem. unfold treeItems in Hitem.
      apply list_elem_of_bind in Hitem as (category & Hitem & Hcategory).
      by exists category, item.
  - intros Hlen Huuids g w Hg Hbelow Hmesh.
    apply structuralGroups_groupNode in Hg as [Hg Hgroup].
    pose proof (Hon Hlen Huuids g w Hg Hgroup Hbelow Hmesh) as Hid.
    apply list_elem_of_fmap in Hid as (item & Hid & Hitem).
    unfold treeItems in Hitem.
    apply list_elem_of_bind in Hitem as (category & Hitem & Hcategory).
    exists category, item. split; [|split; [|done]].
    + rewrite Hbuilt. destruct (0 <? length uncats)%nat; [|done].
      apply elem_of_app. by left.
    + rewrite Forall_forall in Hkind. by apply Hkind.
Qed.

End tree.

Lemma partition_invariant_witness :
  let tree := br_modelTree (buildModelTree None ∅ [] Sample.scene) in
  treeIds tree ≡ₚ ["m1"; "m2"] ∧ length (treeItems tree) = 2%nat.
Proof.
  apply (partition_invariant None ∅ [] Sample.scene).
  change (NoDup ["m1"; "m2"]).
  apply NoDup_cons. split; [|apply NoDup_singleton].
  intros Hin. apply list_elem_of_singleton in Hin. discriminate.
Defined.

Lemma group_pass_trigger_witness :
  (∀ category,
      category ∈ br_modelTree (buildModelTree None ∅ [] Sample.flatScene) →
      tn_type category = CategoryKind)
  ∧ (∃ category item,
       category ∈ br_modelTree (buildModelTree None ∅ [] Sample.scene)
       ∧ tn_type category = GroupKind
       ∧ item ∈ tn_items category
       ∧ item_id item = "m2").
Proof.
  split.
  - destruct (group_pass_trigger None ∅ [] Sample.flatScene) as [Hoff _].
    destruct Hoff as [Hcats _]; [vm_compute; lia|].
    intros category Hin. by destruct (Hcats category Hin).
  - destruct (group_pass_trigger None ∅ [] Sample.scene) as [_ Hon].
    apply (Hon ltac:(vm_compute; lia)
               ltac:(apply (bool_decide_unpack _); by vm_compute)
               Sample.rootVisit Sample.columnVisit).
    + apply list_elem_of_lookup. by exists 0%nat.
    + split; [|discriminate]. apply list_elem_of_lookup. by exists 4%nat.
    + by vm_compute.
Defined.

(** C2 as stated fails on a scene whose second group holds no mesh: one
    structural node only has a mesh below it, and yet the tree is built
    per group, with a group entry that holds entries of other
    categories. *)
Lemma group_trigger_counterexample :
  let visits := traverse [] [] Sample.scene in
  let tree := br_modelTree (buildModelTree None ∅ [] Sample.scene) in
  length (renderableGroups visits) = 1%nat
  ∧ ∃ category item,
      category ∈ tree ∧ tn_type category = GroupKind
      ∧ item ∈ tn_items category
      ∧ item_category item ≠ tn_id category.
Proof.
  split; [reflexivity|].
  assert (∃ category, br_modelTree (buildModelTree None ∅ [] Sample.scene)
                      = [category]) as [category Htree] by (by eexists).
  assert (∃ item rest, tn_items category = item :: rest) as (item & rest & Hitems).
  { injection Htree as <-. by eexists _, _. }
  exists category, item. simpl. rewrite Htree, Hitems.
  split; [by left|]. split; [by injection Htree as <-|]. split; [by left|].
  injection Htree as <-. injection Hitems as <- _. by vm_compute.
Qed.

(** * Further properties of the code *)



(** ** The parser *)

Section parsing_more.

Lemma mapSet_keys {V} (m : JsMap V) k v :
  (mapSet m k v).*1 = if bool_decide (k ∈ m.*1) then m.*1 else m.*1 ++ [k].
Proof.
  induction m as [|[k' v'] m IH]; [done|].
  cbn [mapSet]. destruct (decide (k' = k)) as [->|Hne].
  - rewrite (bool_decide_eq_true_2 (k = k)) by done. rewrite !fmap_cons. simpl.
    rewrite bool_decide_eq_true_2; [done|by left].
  - rewrite (bool_decide_eq_false_2 (k' = k)) by done. rewrite !fmap_cons, IH.
    simpl. destruct (decide (k ∈ m.*1)) as [Hin|Hout].
    + rewrite !bool_decide_eq_true_2; [done| |done]. by right.
    + rewrite !bool_decide_eq_false_2; [done| |done].
      intros [?|?]%elem_of_cons; [by destruct Hne|done].
Qed.

Lemma mapGet_mapSet {V} (m : JsMap V) k v k' :
  mapGet (mapSet m k v) k' = if bool_decide (k = k') then Some v else mapGet m k'.
Proof.
  induction m as [|[k0 v0] m IH]; [done|].
  cbn [mapSet mapGet]. destruct (decide (k0 = k)) as [->|Hne].
  - rewrite (bool_decide_eq_true_2 (k = k)) by done. cbn [mapGet].
    by destruct (bool_decide (k = k')).
  - rewrite (bool_decide_eq_false_2 (k0 = k)) by done. cbn [mapGet]. rewrite IH.
    destruct (decide (k0 = k')) as [->|Hne'].
    + rewrite (bool_decide_eq_true_2 (k' = k')) by done.
      by rewrite (bool_decide_eq_false_2 (k = k')).
    + by rewrite (bool_decide_eq_false_2 (k0 = k')).
Qed.

Lemma Forall_mapSet {V} (P : string * V → Prop) (m : JsMap V) k v :
  Forall P m → P (k, v) → Forall P (mapSet m k v).
Proof.
  intros Hm Hkv. induction m as [|[k' v'] m IH]; [by apply Forall_singleton|].
  apply Forall_cons in Hm as [Hhead Hm]. cbn [mapSet].
  destruct (bool_decide (k' = k)); apply Forall_cons; split; auto.
Qed.

(** What [addElement] stores when it returns. *)
Lemma addElement_inv obj elementMap elementMap' :
  addElement obj elementMap = Returns elementMap' →
  ∃ key record,
    toStringVal (prop obj "object") = Returns key
    ∧ elementMap' = mapSet elementMap key record
    ∧ raw_elementId record = prop obj "object"
    ∧ raw_externalId record = prop obj "externalId"
    ∧ truthyVal (raw_displayName record) = true.
Proof.
  unfold addElement.
  destruct (match prop obj "properties" with
            | JArr properties => _
            | _ => _
            end) as [[[[family type] category] familyAndType]|e]; [|done].
  simpl. destruct (toStringVal (prop obj "object")) as [key|e] eqn:Hkey.
  - destruct (truthyVal familyAndType) eqn:H1; simpl.
    { destruct (if (_ <=? _)%nat then _ else _); simpl; [|done].
      intros [= <-]. by eexists _, _. }
    destruct (truthyVal family) eqn:H2; simpl.
    { destruct (if (_ <=? _)%nat then _ else _); simpl; [|done].
      intros [= <-]. by eexists _, _. }
    destruct (truthyVal type) eqn:H3; simpl.
    { destruct (if (_ <=? _)%nat then _ else _); simpl; [|done].
      intros [= <-]. by eexists _, _. }
    destruct (if (_ <=? _)%nat then _ else _); simpl; [|done].
    intros [= <-]. by eexists _, _.
  - destruct (truthyVal familyAndType); simpl; [done|].
    destruct (truthyVal family); simpl; [done|].
    by destruct (truthyVal type).
Qed.

(** A property of the index that adding an element keeps is kept by the
    whole traversal. *)
Lemma traverseJson_preserves (P : JsMap RawRecord → Prop) :
  (∀ obj m m',
      truthyVal (prop obj "object") && truthyVal (prop obj "externalId") = true →
      P m → addElement obj m = Returns m' → P m') →
  ∀ fuel obj m m', P m → traverseJson fuel obj m = Returns m' → P m'.
Proof.
  intros Hadd. induction fuel as [|fuel IH]; intros obj m m' Hm; [done|].
  cbn [traverseJson]. destruct (negb (truthyVal obj)); [by intros [= <-]|].
  set (each := fix each (children : list JsVal) (elementMap : JsMap RawRecord) :=
         match children with
         | [] => Returns elementMap
         | child :: rest =>
             bindOutcome (traverseJson fuel child elementMap) (each rest)
         end).
  assert (∀ children m m', P m → each children m = Returns m' → P m') as Heach.
  { induction children as [|child rest IHc]; intros m0 m1 Hm0; simpl;
      [by intros [= <-]|].
    destruct (traverseJson fuel child m0) as [m2|e] eqn:Hchild; [|done].
    simpl. apply IHc. by apply (IH child m0). }
  destruct (if truthyVal (prop obj "object") && truthyVal (prop obj "externalId")
            then addElement obj m else Returns m) as [m1|e] eqn:Hstep; [|done].
  assert (P m1) as Hm1.
  { destruct (_ && _) eqn:Helement; [by apply (Hadd obj m)|].
    by injection Hstep as <-. }
  simpl.
  destruct (match prop obj "objects" with
            | JArr children => each children m1
            | _ => Returns m1
            end) as [m2|e] eqn:Hobjects; [|done].
  assert (P m2) as Hm2.
  { destruct (prop obj "objects") as [| | | | |children|];
      try by injection Hobjects as <-.
    by apply (Heach children m1). }
  simpl. destruct obj as [| | | | |children|]; try by intros [= <-].
  by apply Heach.
Qed.

Lemma parseJsonMetadata_preserves (P : JsMap RawRecord → Prop) jsonData index :
  (∀ obj m m',
      truthyVal (prop obj "object") && truthyVal (prop obj "externalId") = true →
      P m → addElement obj m = Returns m' → P m') →
  P [] → parseJsonMetadata jsonData = Returns index → P index.
Proof.
  intros Hadd Hnil. unfold parseJsonMetadata.
  destruct (_ && _); [by apply traverseJson_preserves|].
  destruct (_ && _); [by apply traverseJson_preserves|]. by intros [= <-].
Qed.

Lemma addElement_well_formed obj m m' :
  truthyVal (prop obj "object") && truthyVal (prop obj "externalId") = true →
  Forall wellFormedEntry m → addElement obj m = Returns m' →
  Forall wellFormedEntry m'.
Proof.
  intros [Hobject Hexternal]%andb_true_iff Hall Hadd.
  destruct (addElement_inv _ _ _ Hadd)
    as (key & record & Hkey & -> & Hid & Hext & Hname).
  apply Forall_mapSet; [done|]. unfold wellFormedEntry. simpl.
  by rewrite Hid, Hext.
Qed.

Lemma parseJsonMetadata_well_formed jsonData index :
  parseJsonMetadata jsonData = Returns index → Forall wellFormedEntry index.
Proof.
  apply (parseJsonMetadata_preserves (Forall wellFormedEntry)); [|done].
  apply addElement_well_formed.
Qed.

(** X1. The index the parser returns: no two records are stored under
    the same key, and every record is stored under the string of its
    element pointer, with a pointer, an external id and a display name
    that are not falsy. *)
Theorem parsed_index_well_formed jsonData index :
  parseJsonMetadata jsonData = Returns index →
  NoDup index.*1 ∧ Forall wellFormedEntry index.
Proof.
  intros Hparse. split; [|by apply (parseJsonMetadata_well_formed jsonData)].
  apply (parseJsonMetadata_preserves (λ m, NoDup m.*1) jsonData index);
    [|apply NoDup_nil_2|done].
  intros obj m m' _ Hnodup Hadd.
  destruct (addElement_inv _ _ _ Hadd) as (key & record & _ & -> & _).
  rewrite mapSet_keys. destruct (decide (key ∈ m.*1)) as [Hin|Hout].
  - by rewrite bool_decide_eq_true_2.
  - rewrite bool_decide_eq_false_2 by done. apply NoDup_app.
    split; [done|]. split; [|apply NoDup_singleton].
    by intros k Hk ->%list_elem_of_singleton.
Qed.

Lemma parsed_index_well_formed_witness :
  ∃ index, parseJsonMetadata Sample.payload = Returns index
           ∧ NoDup index.*1 ∧ Forall wellFormedEntry index.
Proof.
  eexists. split; [reflexivity|].
  by apply (parsed_index_well_formed Sample.payload).
Defined.

(** X2. Adding an element to the index: the record goes under the string
    of the element pointer, where a lookup finds it; the records under
    other keys stay; a key already there keeps its place in the order of
    the index and a new one goes last. *)
Theorem addElement_stores obj elementMap elementMap' :
  addElement obj elementMap = Returns elementMap' →
  ∃ key record,
    toStringVal (prop obj "object") = Returns key
    ∧ mapGet elementMap' key = Some record
    ∧ raw_elementId record = prop obj "object"
    ∧ raw_externalId record = prop obj "externalId"
    ∧ (∀ other, other ≠ key → mapGet elementMap' other = mapGet elementMap other)
    ∧ elementMap'.*1
      = if bool_decide (key ∈ elementMap.*1) then elementMap.*1
        else elementMap.*1 ++ [key].
Proof.
  intros Hadd.
  destruct (addElement_inv _ _ _ Hadd)
    as (key & record & Hkey & -> & Hid & Hext & _).
  exists key, record. split; [done|]. split; [|split; [done|split; [done|split]]].
  - by rewrite mapGet_mapSet, bool_decide_eq_true_2.
  - intros other Hne. by rewrite mapGet_mapSet, bool_decide_eq_false_2.
  - apply mapSet_keys.
Qed.

Lemma addElement_stores_witness :
  ∃ key record,
    toStringVal (JNum 12) = Returns key
    ∧ raw_elementId record = JNum 12 ∧ raw_externalId record = JStr "x".
Proof.
  destruct (addElement_stores
              (JObj [("object", JNum 12); ("externalId", JStr "x")]) []
              _ eq_refl)
    as (key & record & Hkey & _ & Hid & Hext & _).
  by exists key, record.
Defined.

End parsing_more.

(** ** Element lookup *)

Section lookup_more.

Lemma mapGet_elem {V} (m : JsMap V) k v : mapGet m k = Some v → (k, v) ∈ m.
Proof.
  induction m as [|[k' v'] m IH]; [done|]. cbn [mapGet].
  case_bool_decide as Hk.
  - intros [= ->]. subst k'. by left.
  - intros Hget. right. by apply IH.
Qed.

Lemma findByGuid_sound index g record :
  findByGuid index g = Some record →
  record ∈ index.*2
  ∧ externalId record ≠ ""
  ∧ Js.includes (Js.toLowerCase (externalId record)) g = true.
Proof.
  induction index as [|[k metadata] index IH]; [done|]. cbn [findByGuid].
  destruct (Js.truthy (externalId metadata)) eqn:Htruthy; cbn [andb].
  - destruct (Js.includes (Js.toLowerCase (externalId metadata)) g) eqn:Hinc.
    + intros [= ->]. split; [by left|]. split; [|done].
      unfold Js.truthy in Htruthy. apply negb_true_iff in Htruthy.
      by apply bool_decide_eq_false in Htruthy.
    + intros Hrest. destruct (IH Hrest) as (Hin & Hext). split; [by right|done].
  - intros Hrest. destruct (IH Hrest) as (Hin & Hext). split; [by right|done].
Qed.

Lemma guidLoop_sound index strs record :
  guidLoop index strs = Some record →
  ∃ str guidMatch,
    str ∈ strs ∧ matchGuid str = Some guidMatch
    ∧ findByGuid index (Js.toLowerCase guidMatch) = Some record.
Proof.
  induction strs as [|str strs IH]; [done|]. cbn [guidLoop].
  destruct (matchGuid str) as [guidMatch|] eqn:Hmatch.
  - destruct (findByGuid index (Js.toLowerCase guidMatch)) as [metadata|] eqn:Hfind.
    + intros [= <-]. exists str, guidMatch. split; [by left|done].
    + intros Hrest. destruct (IH Hrest) as (s & g & Hin & Hrest').
      exists s, g. split; [by right|done].
  - intros Hrest. destruct (IH Hrest) as (s & g & Hin & Hrest').
    exists s, g. split; [by right|done].
Qed.

(** A record that is found is a record of the index. *)
Lemma getElementMetadata_elem metadataRef node record :
  getElementMetadata metadataRef node = Some record →
  ∃ index, metadataRef = Some index ∧ record ∈ index.*2.
Proof.
  unfold getElementMetadata. destruct metadataRef as [index|]; [|done].
  destruct (length index =? 0)%nat; [done|].
  destruct (guidLoop index (searchStrings node)) as [metadata|] eqn:Hguid.
  - intros [= ->]. exists index. split; [done|].
    destruct (guidLoop_sound _ _ _ Hguid) as (str & guidMatch & _ & _ & Hfind).
    by destruct (findByGuid_sound _ _ _ Hfind).
  - destruct (numericElementId node) as [elementId|]; [|done].
    intros Hget. exists index. split; [done|].
    apply mapGet_elem in Hget. exact (list_elem_of_fmap_2 snd _ _ Hget).
Qed.

(** X3. A record that [getElementMetadata] returns is a record of the
    index, and there is a reason for it: either its external id, which is
    not empty, contains the GUID-shaped token of one of the node's
    strings, ignoring case, or it is stored under the numeric element id
    of the node. *)
Theorem getElementMetadata_sound metadataRef node record :
  getElementMetadata metadataRef node = Some record →
  ∃ index,
    metadataRef = Some index
    ∧ record ∈ index.*2
    ∧ ((∃ str guidMatch,
          str ∈ searchStrings node ∧ matchGuid str = Some guidMatch
          ∧ externalId record ≠ ""
          ∧ Js.includes (Js.toLowerCase (externalId record))
                        (Js.toLowerCase guidMatch) = true)
       ∨ (∃ elementId,
            numericElementId node = Some elementId
            ∧ mapGet index elementId = Some record)).
Proof.
  unfold getElementMetadata. destruct metadataRef as [index|]; [|done].
  destruct (length index =? 0)%nat; [done|].
  destruct (guidLoop index (searchStrings node)) as [metadata|] eqn:Hguid.
  - intros [= ->]. exists index. split; [done|].
    destruct (guidLoop_sound _ _ _ Hguid) as (str & guidMatch & Hin & Hmatch & Hfind).
    destruct (findByGuid_sound _ _ _ Hfind) as (Hrecord & Hext & Hinc).
    split; [done|]. left. by exists str, guidMatch.
  - destruct (numericElementId node) as [elementId|] eqn:Hid; [|done].
    intros Hget. exists index. split; [done|]. split.
    + apply mapGet_elem in Hget.
      by apply (list_elem_of_fmap_2 snd) in Hget.
    + right. by exists elementId.
Qed.

Lemma getElementMetadata_sound_witness :
  ∃ index, Some [("13", Sample.other); ("12", Sample.segmented)] = Some index
           ∧ Sample.segmented ∈ index.*2.
Proof.
  destruct (getElementMetadata_sound
              (Some [("13", Sample.other); ("12", Sample.segmented)])
              Sample.wallGuid Sample.segmented)
    as (index & Hindex & Hrecord & _); [by vm_compute|].
  by exists index.
Defined.

Lemma isHex_spec c :
  Js.isHex c = true ↔ c ∈ String.list_ascii_of_string hexChars.
Proof.
  destruct c as [[] [] [] [] [] [] [] []];
    (split;
     [intros H; try discriminate H; apply (bool_decide_unpack _); by vm_compute
     |intros H; try reflexivity; exfalso; revert H;
      apply (bool_decide_unpack _); by vm_compute]).
Qed.

(** [[a-f0-9]{n}] matches exactly a prefix of [n] hexadecimal digits. *)
Lemma hexRun_spec n s rest :
  hexRun n s = Some rest ↔ ∃ a, s = a +:+ rest ∧ hexDigits n a.
Proof.
  unfold hexDigits. revert s. induction n as [|n IH]; intros s; simpl.
  - split.
    + intros [= ->]. exists "". split; [done|]. split; [done|].
      by intros c ?%elem_of_nil.
    + intros (a & -> & Hlen & _). by destruct a.
  - destruct s as [|c s].
    { split; [done|]. intros (a & Ha & Hlen & _).
      destruct a as [|x a]; [done|by rewrite append_cons in Ha]. }
    destruct (Js.isHex c) eqn:Hc.
    + rewrite IH. split.
      * intros (a & -> & Hlen & Hhex). exists (String c a).
        rewrite append_cons. split; [done|]. split; [simpl; by rewrite Hlen|].
        simpl. intros x [->|Hx]%elem_of_cons; [by apply isHex_spec|by apply Hhex].
      * intros (a & Ha & Hlen & Hhex). destruct a as [|x a]; [done|].
        rewrite append_cons in Ha. injection Ha as <- ->. exists a.
        split; [done|]. split; [simpl in Hlen; lia|].
        intros y Hy. apply Hhex. simpl. by right.
    + split; [done|]. intros (a & Ha & Hlen & Hhex).
      destruct a as [|x a]; [done|].
      rewrite append_cons in Ha. injection Ha as <- ->.
      assert (Js.isHex c = true) as Habs; [|congruence].
      apply isHex_spec, Hhex. simpl. by left.
Qed.

Lemma dash_spec s rest : dash s = Some rest ↔ s = "-" +:+ rest.
Proof.
  rewrite append_cons, append_nil. destruct s as [|c s]; simpl; [done|].
  case_bool_decide as Hc.
  - subst c. split; [by intros [= ->]|by intros [= ->]].
  - split; [done|]. intros [= -> _]. done.
Qed.

Lemma hexRun_app n a rest : hexDigits n a → hexRun n (a +:+ rest) = Some rest.
Proof. intros Ha. apply hexRun_spec. by exists a. Qed.

Lemma dash_app rest : dash ("-" +:+ rest) = Some rest.
Proof. by apply dash_spec. Qed.

(** The five groups of the pattern match exactly a prefix that has the
    shape of a GUID. *)
Lemma hexSegments_core s rest :
  hexSegments [8; 4; 4; 4; 12]%nat s = Some rest
  ↔ ∃ core, s = core +:+ rest ∧ guidCore core.
Proof.
  split.
  - cbn [hexSegments]. intros H.
    destruct (hexRun 8 s) as [r1|] eqn:H1; [|done].
    destruct (dash r1) as [r2|] eqn:D1; [|done].
    destruct (hexRun 4 r2) as [r3|] eqn:H2; [|done].
    destruct (dash r3) as [r4|] eqn:D2; [|done].
    destruct (hexRun 4 r4) as [r5|] eqn:H3; [|done].
    destruct (dash r5) as [r6|] eqn:D3; [|done].
    destruct (hexRun 4 r6) as [r7|] eqn:H4; [|done].
    destruct (dash r7) as [r8|] eqn:D4; [|done].
    destruct (hexRun 12 r8) as [r9|] eqn:H5; [|done]. injection H as <-.
    apply hexRun_spec in H1 as (a & -> & Ha). apply dash_spec in D1 as ->.
    apply hexRun_spec in H2 as (b & -> & Hb). apply dash_spec in D2 as ->.
    apply hexRun_spec in H3 as (c & -> & Hc). apply dash_spec in D3 as ->.
    apply hexRun_spec in H4 as (d & -> & Hd). apply dash_spec in D4 as ->.
    apply hexRun_spec in H5 as (e & -> & He).
    exists (a +:+ "-" +:+ b +:+ "-" +:+ c +:+ "-" +:+ d +:+ "-" +:+ e).
    split; [by rewrite !append_assoc|]. by exists a, b, c, d, e.
  - intros (core & -> & a & b & c & d & e & -> & Ha & Hb & Hc & Hd & He).
    rewrite !append_assoc. cbn [hexSegments].
    rewrite (hexRun_app 8 a _ Ha), dash_app, (hexRun_app 4 b _ Hb), dash_app.
    rewrite (hexRun_app 4 c _ Hc), dash_app, (hexRun_app 4 d _ Hd), dash_app.
    by rewrite (hexRun_app 12 e _ He).
Qed.

Lemma guidCore_length core : guidCore core → String.length core = 36%nat.
Proof.
  intros (a & b & c & d & e & -> & [Ha _] & [Hb _] & [Hc _] & [Hd _] & [He _]).
  rewrite !length_append, Ha, Hb, Hc, Hd, He. done.
Qed.

Lemma ninthGroup_length tail : ninthGroup tail → String.length tail = 9%nat.
Proof. intros (h & -> & [Hh _]). by rewrite length_append, Hh. Qed.

Lemma substring0_app n a b :
  String.length a = n → Js.substring0 n (a +:+ b) = a.
Proof.
  revert n. induction a as [|c a IH]; intros n <-; [by destruct b|].
  rewrite append_cons. simpl. by rewrite IH.
Qed.

(** A match at the start of a string: the GUID, with the ninth group
    exactly when one follows. *)
Lemma matchGuidAt_spec s g :
  matchGuidAt s = Some g →
  ∃ core tail post,
    s = core +:+ tail +:+ post ∧ g = core +:+ tail ∧ guidCore core
    ∧ (ninthGroup tail
       ∨ (tail = "" ∧ ∀ t post', post = t +:+ post' → ¬ ninthGroup t)).
Proof.
  unfold matchGuidAt.
  destruct (hexSegments [8; 4; 4; 4; 12]%nat s) as [rest|] eqn:Hsegs; [|done].
  apply hexSegments_core in Hsegs as (core & -> & Hcore).
  pose proof (guidCore_length core Hcore) as Hlen.
  destruct (dash rest ≫= hexRun 8) as [rest'|] eqn:Hlast.
  - intros Hg. apply (inj Some) in Hg. subst g.
    destruct (dash rest) as [r|] eqn:Hd; [|done].
    change (hexRun 8 r = Some rest') in Hlast.
    apply dash_spec in Hd as ->. apply hexRun_spec in Hlast as (h & -> & Hh).
    assert (ninthGroup ("-" +:+ h)) as Hninth by (by exists h).
    exists core, ("-" +:+ h), rest'.
    assert (core +:+ "-" +:+ h +:+ rest' = (core +:+ "-" +:+ h) +:+ rest') as Hs.
    { by rewrite !append_assoc. }
    split; [by rewrite !append_assoc|]. split; [|split; [done|by left]].
    rewrite Hs. apply substring0_app.
    by rewrite length_append, Hlen, (ninthGroup_length _ Hninth).
  - intros Hg. apply (inj Some) in Hg. subst g.
    exists core, "", rest. rewrite append_nil, append_empty_r.
    split; [done|]. split; [by apply substring0_app|]. split; [done|]. right.
    split; [done|]. intros t post' -> (h & -> & Hh).
    rewrite append_assoc, dash_app in Hlast.
    change (hexRun 8 (h +:+ post') = None) in Hlast.
    by rewrite (hexRun_app 8 h _ Hh) in Hlast.
Qed.

(** Where a GUID starts, the pattern matches. *)
Lemma matchGuidAt_complete core post :
  guidCore core → matchGuidAt (core +:+ post) ≠ None.
Proof.
  intros Hcore. unfold matchGuidAt.
  rewrite (proj2 (hexSegments_core (core +:+ post) post)) by (by exists core).
  by destruct (dash post ≫= hexRun 8).
Qed.

(** [match] returns the match at the first position that has one. *)
Lemma matchGuid_leftmost str g :
  matchGuid str = Some g →
  ∃ pre rest,
    str = pre +:+ rest ∧ matchGuidAt rest = Some g
    ∧ ∀ pre' rest', str = pre' +:+ rest' →
                    (String.length pre' < String.length pre)%nat →
                    matchGuidAt rest' = None.
Proof.
  induction str as [|c str IH]; cbn [matchGuid].
  - destruct (matchGuidAt "") as [g'|] eqn:Hat; [|done]. intros [= <-].
    exists "", "". split; [done|]. split; [done|]. simpl. intros; lia.
  - destruct (matchGuidAt (String c str)) as [g'|] eqn:Hat.
    + intros [= <-]. exists "", (String c str). split; [done|]. split; [done|].
      simpl. intros; lia.
    + intros Hrest. destruct (IH Hrest) as (pre & rest & -> & Hhere & Hfirst).
      exists (String c pre), rest. rewrite append_cons. split; [done|].
      split; [done|]. intros pre' rest' Hsplit Hshorter.
      destruct pre' as [|c' pre'].
      * rewrite append_nil in Hsplit. by subst rest'.
      * rewrite append_cons in Hsplit. injection Hsplit as <- Hsplit.
        apply (Hfirst pre' rest' Hsplit). simpl in Hshorter. lia.
Qed.

(** X4. The GUID-shaped token that is taken from a string: it stands in
    the string and is a GUID (five groups of 8, 4, 4, 4 and 12
    hexadecimal digits joined by dashes) followed by the ninth group (a
    dash and 8 more digits) when the string goes on with one, and by
    nothing otherwise; so it has 45 characters exactly with the ninth
    group, and 36 without.  No GUID starts earlier in the string. *)
Theorem matchGuid_shape str guidMatch :
  matchGuid str = Some guidMatch →
  ∃ pre core tail post,
    str = pre +:+ core +:+ tail +:+ post
    ∧ guidMatch = core +:+ tail
    ∧ guidCore core
    ∧ (ninthGroup tail
       ∨ (tail = "" ∧ ∀ t post', post = t +:+ post' → ¬ ninthGroup t))
    ∧ (String.length guidMatch = 45%nat ↔ ninthGroup tail)
    ∧ (String.length guidMatch = 36%nat ↔ tail = "")
    ∧ ∀ pre' core' post',
        str = pre' +:+ core' +:+ post' → guidCore core' →
        (String.length pre ≤ String.length pre')%nat.
Proof.
  intros Hmatch.
  destruct (matchGuid_leftmost _ _ Hmatch) as (pre & rest & -> & Hat & Hfirst).
  destruct (matchGuidAt_spec _ _ Hat) as (core & tail & post & -> & -> & Hcore & Htail).
  exists pre, core, tail, post. split; [done|]. split; [done|]. split; [done|].
  split; [done|].
  pose proof (guidCore_length core Hcore) as Hlen.
  split; [|split].
  - rewrite length_append, Hlen. split.
    + intros Hlong. destruct Htail as [Hninth|[-> _]]; [done|]. simpl in Hlong. lia.
    + intros Hninth. by rewrite (ninthGroup_length _ Hninth).
  - rewrite length_append, Hlen. split.
    + intros Hshort. destruct Htail as [Hninth|[-> _]]; [|done].
      rewrite (ninthGroup_length _ Hninth) in Hshort. lia.
    + by intros ->.
  - intros pre' core' post' Hsplit Hcore'.
    destruct (decide (String.length pre' < String.length pre)%nat) as [Hlt|]; [|lia].
    by destruct (matchGuidAt_complete core' post' Hcore');
      apply (Hfirst pre' _ Hsplit).
Qed.

(** The token of the composite identifier of the specification's example
    has the ninth group; that of a plain GUID has none. *)
Lemma matchGuid_shape_witness :
  (∃ core tail,
     "00000000-0000-0000-0000-000000000001-abcdef12" = core +:+ tail
     ∧ guidCore core ∧ ninthGroup tail)
  ∧ ∃ core,
      matchGuid "Wall [00000000-0000-0000-0000-000000000001]" = Some core
      ∧ guidCore core.
Proof.
  split.
  - destruct (matchGuid_shape
                "id 00000000-0000-0000-0000-000000000001-abcdef12 (wall)"
                "00000000-0000-0000-0000-000000000001-abcdef12")
      as (pre & core & tail & post & _ & Hmatch & Hcore & _ & Hlong & _);
      [reflexivity|].
    exists core, tail. split; [exact Hmatch|]. split; [exact Hcore|].
    apply Hlong. reflexivity.
  - destruct (matchGuid_shape "Wall [00000000-0000-0000-0000-000000000001]"
                Sample.guidA)
      as (pre & core & tail & post & _ & Hmatch & Hcore & _ & _ & Hshort & _);
      [reflexivity|].
    exists core. split; [|exact Hcore].
    assert (tail = "") as Htail by (apply Hshort; reflexivity).
    rewrite Htail, append_empty_r in Hmatch. by rewrite <- Hmatch.
Defined.

End lookup_more.

(** ** Cleaned names *)

Section names_more.

Lemma includes_suffix s a t : s = a +:+ t → Js.includes s t = true.
Proof. intros ->. apply includes_spec. exists a, "". by rewrite append_empty_r. Qed.

Lemma includes_prefix s t b : s = t +:+ b → Js.includes s t = true.
Proof. intros ->. apply includes_spec. exists "", b. by rewrite append_nil. Qed.

Lemma dropWhile_suffix f s : ∃ a, s = a +:+ Js.dropWhile f s.
Proof.
  induction s as [|c s [a IH]]; [by exists ""|]. simpl.
  destruct (f c); [|by exists ""]. exists (String c a).
  by rewrite append_cons, <- IH.
Qed.

Lemma takeWhile_prefix f s : ∃ b, s = Js.takeWhile f s +:+ b.
Proof.
  induction s as [|c s [b IH]]; [by exists ""|]. simpl.
  destruct (f c); [|by exists (String c s)]. exists b.
  by rewrite append_cons, <- IH.
Qed.

Lemma stripPrefixCI_suffix p s rest :
  Js.stripPrefixCI p s = Some rest → ∃ a, s = a +:+ rest.
Proof.
  revert s. induction p as [|x p IH]; intros s; simpl.
  - intros [= ->]. by exists "".
  - destruct s as [|c s]; [done|]. case_bool_decide; [|done].
    intros Hrest. destruct (IH s Hrest) as [a ->]. by exists (String c a).
Qed.

Lemma stripAlt_suffix ps s rest :
  Js.stripAlt ps s = Some rest → ∃ a, s = a +:+ rest.
Proof.
  induction ps as [|p ps IH]; [done|]. simpl.
  destruct (Js.stripPrefixCI p s) as [r|] eqn:Hp; [|done].
  intros [= <-]. by apply (stripPrefixCI_suffix p).
Qed.

Lemma stripLeading_includes ps s :
  Js.includes s (match Js.stripAlt ps s with
                 | Some rest => Js.dropWhile Js.isSep rest
                 | None => s
                 end) = true.
Proof.
  destruct (Js.stripAlt ps s) as [rest|] eqn:Hstrip; [|apply includes_refl].
  destruct (stripAlt_suffix _ _ _ Hstrip) as [a ->].
  destruct (dropWhile_suffix Js.isSep rest) as [b Hb].
  apply (includes_suffix _ (a +:+ b)). by rewrite append_assoc, <- Hb.
Qed.

Lemma stripTrailingToken_prefix s : ∃ b, s = stripTrailingToken s +:+ b.
Proof.
  induction s as [|c s [b IH]]; [by exists ""|]. cbn [stripTrailingToken].
  destruct (matchTrailingAt (String c s)); [by exists (String c s)|].
  exists b. by rewrite append_cons, <- IH.
Qed.

Lemma trimEnd_prefix s : ∃ b, s = Js.trimEnd s +:+ b.
Proof.
  induction s as [|c s [b IH]]; [by exists ""|]. simpl.
  destruct (Js.trimEnd s) as [|x r] eqn:Hr.
  - destruct (Js.isSpace c); [by exists (String c s)|]. exists s. done.
  - exists b. by rewrite append_cons, <- IH.
Qed.

Lemma trim_includes s : Js.includes s (Js.trim s) = true.
Proof.
  unfold Js.trim. destruct (dropWhile_suffix Js.isSpace s) as [a Ha].
  destruct (trimEnd_prefix (Js.dropWhile Js.isSpace s)) as [b Hb].
  apply includes_spec. exists a, b. by rewrite <- Hb.
Qed.

Lemma trimEnd_idem s : Js.trimEnd (Js.trimEnd s) = Js.trimEnd s.
Proof.
  induction s as [|c s IH]; [done|]. simpl.
  destruct (Js.trimEnd s) as [|x r] eqn:Hr.
  - destruct (Js.isSpace c) eqn:Hc; [done|]. simpl. by rewrite Hc.
  - cbn [Js.trimEnd] in IH |- *. by rewrite IH.
Qed.

Lemma trim_idem s : Js.trim (Js.trim s) = Js.trim s.
Proof.
  unfold Js.trim.
  assert (∀ t, Js.dropWhile Js.isSpace t = t →
               Js.dropWhile Js.isSpace (Js.trimEnd t) = Js.trimEnd t) as Hkeep.
  { intros [|c t] Hdrop; [done|]. simpl in Hdrop.
    destruct (Js.isSpace c) eqn:Hc.
    - destruct (dropWhile_suffix Js.isSpace t) as [a Ha].
      rewrite Hdrop in Ha. apply (f_equal String.length) in Ha.
      rewrite length_append in Ha. simpl in Ha. lia.
    - simpl. destruct (Js.trimEnd t); rewrite ?Hc; simpl; by rewrite Hc. }
  assert (Js.dropWhile Js.isSpace (Js.dropWhile Js.isSpace s)
          = Js.dropWhile Js.isSpace s) as Hdrop.
  { induction s as [|c s IH]; [done|]. simpl.
    destruct (Js.isSpace c) eqn:Hc; [done|]. simpl. by rewrite Hc. }
  by rewrite (Hkeep _ Hdrop), trimEnd_idem.
Qed.

Lemma matchDigitRun_includes str run :
  matchDigitRun str = Some run →
  allDigits run = true ∧ (4 ≤ String.length run)%nat
  ∧ Js.includes str run = true.
Proof.
  revert run. induction str as [|c str IH]; intros run; [done|].
  cbn [matchDigitRun].
  destruct (4 <=? String.length (Js.takeWhile Js.isDigit (String c str)))%nat
    eqn:Hlen.
  - intros [= <-]. split; [apply (takeWhile_allDigits (String c str))|].
    split; [by apply Nat.leb_le|].
    destruct (takeWhile_prefix Js.isDigit (String c str)) as [b Hb].
    by apply (includes_prefix _ _ b).
  - intros Hrest. destruct (IH run Hrest) as (Hd & Hl & Hinc).
    split; [done|]. split; [done|]. cbn [Js.includes]. rewrite Hinc.
    apply orb_true_r.
Qed.

(** X5. What a cleaned name can be: either ["Element_"] followed by a run
    of four or more digits of the string, or a piece of the string of
    three characters or more, without white space at either end, that is
    neither "node" nor "unnamed" in any letter case.  The empty string
    gives no name. *)
Theorem extractMeaningfulName_shape str name :
  extractMeaningfulName str = Some name →
  str ≠ ""
  ∧ ((∃ run, name = "Element_" +:+ run ∧ allDigits run = true
             ∧ (4 ≤ String.length run)%nat ∧ Js.includes str run = true)
     ∨ (matchDigitRun str = None
        ∧ (3 ≤ String.length name)%nat
        ∧ Js.trim name = name
        ∧ Js.toLowerCase name ≠ "node"
        ∧ Js.toLowerCase name ≠ "unnamed"
        ∧ Js.includes str name = true)).
Proof.
  unfold extractMeaningfulName. unfold Js.truthy. rewrite negb_involutive.
  case_bool_decide as Hempty; [done|]. intros Hname. split; [done|].
  destruct (matchDigitRun str) as [run|] eqn:Hrun.
  - injection Hname as <-. left. exists run.
    destruct (matchDigitRun_includes _ _ Hrun) as (Hd & Hl & Hinc). done.
  - destruct (_ && _) eqn:Hok in Hname; [|done]. injection Hname as <-. right.
    apply andb_true_iff in Hok as [[Hlen Hnode]%andb_true_iff Hunnamed].
    apply Nat.ltb_lt in Hlen.
    apply negb_true_iff, bool_decide_eq_false in Hnode.
    apply negb_true_iff, bool_decide_eq_false in Hunnamed.
    split; [done|]. split; [lia|]. split; [apply trim_idem|].
    split; [done|]. split; [done|].
    eapply includes_trans; [|apply trim_includes].
    eapply includes_trans; [|apply (stripLeading_includes ["ID"; "id"])].
    eapply includes_trans.
    + apply (stripLeading_includes genericTokens).
    + destruct (stripTrailingToken_prefix (stripLeadingToken str)) as [b Hb].
      by apply (includes_prefix _ _ b).
Qed.

Lemma extractMeaningfulName_shape_witness :
  "Basic Wall_mesh" ≠ ""
  ∧ ((∃ run, "Basic Wall" = "Element_" +:+ run ∧ allDigits run = true
             ∧ (4 ≤ String.length run)%nat
             ∧ Js.includes "Basic Wall_mesh" run = true)
     ∨ (matchDigitRun "Basic Wall_mesh" = None
        ∧ (3 ≤ String.length "Basic Wall")%nat
        ∧ Js.trim "Basic Wall" = "Basic Wall"
        ∧ Js.toLowerCase "Basic Wall" ≠ "node"
        ∧ Js.toLowerCase "Basic Wall" ≠ "unnamed"
        ∧ Js.includes "Basic Wall_mesh" "Basic Wall" = true)).
Proof. by apply (extractMeaningfulName_shape "Basic Wall_mesh" "Basic Wall"). Defined.

End names_more.

(** ** Categories *)

Section categories_more.

(** X6. Translating a category code, for a string that is not one of
    the property names the table inherits from [Object.prototype] (for
    those the source returns the inherited member): a code of the table
    gives its label, any other string is returned as it is; the result
    is again no inherited name, and no label is itself a code, so that
    translating twice is translating once. *)
Theorem getCategoryFromOST_idempotent ostCategory :
  ostCategory ∉ prototypeNames →
  (getCategoryFromOST ostCategory ∉ prototypeNames)
  ∧ getCategoryFromOST (getCategoryFromOST ostCategory)
    = getCategoryFromOST ostCategory
  ∧ (ostCategory ∉ categoryMap.*1 → getCategoryFromOST ostCategory = ostCategory)
  ∧ (ostCategory ∈ categoryMap.*1 →
     getCategoryFromOST ostCategory ∈ categoryMap.*2).
Proof.
  intros Hown. unfold getCategoryFromOST at 1 3 4 5 6.
  destruct (mapGet categoryMap ostCategory) as [label|] eqn:Hget.
  - pose proof (mapGet_elem _ _ _ Hget) as Hin. split; [|split; [|split]].
    + unfold categoryMap in Hin.
      repeat (apply elem_of_cons in Hin as [[= _ ->]|Hin];
              [apply (bool_decide_unpack _); by vm_compute|]).
      by apply elem_of_nil in Hin.
    + unfold categoryMap in Hin.
      repeat (apply elem_of_cons in Hin as [[= _ ->]|Hin]; [by vm_compute|]).
      by apply elem_of_nil in Hin.
    + intros Hout. destruct Hout.
      exact (list_elem_of_fmap_2 fst _ _ Hin).
    + intros _. exact (list_elem_of_fmap_2 snd _ _ Hin).
  - split; [done|]. split; [|split; [done|]].
    + unfold getCategoryFromOST. by rewrite Hget.
    + intros Hin. apply list_elem_of_fmap in Hin as ([k label] & -> & Hin).
      unfold categoryMap in Hin, Hget. simpl in Hget.
      repeat (apply elem_of_cons in Hin as [[= -> _]|Hin]; [by vm_compute in Hget|]).
      by apply elem_of_nil in Hin.
Qed.

Lemma getCategoryFromOST_idempotent_witness :
  getCategoryFromOST "OST_Walls" ∈ categoryMap.*2
  ∧ getCategoryFromOST (getCategoryFromOST "OST_Walls")
    = getCategoryFromOST "OST_Walls"
  ∧ getCategoryFromOST "Casework" = "Casework".
Proof.
  assert ("OST_Walls" ∉ prototypeNames) as Hwalls
    by (apply (bool_decide_unpack _); by vm_compute).
  assert ("Casework" ∉ prototypeNames) as Hcasework
    by (apply (bool_decide_unpack _); by vm_compute).
  destruct (getCategoryFromOST_idempotent "OST_Walls" Hwalls)
    as (_ & Htwice & _ & Hlabel).
  destruct (getCategoryFromOST_idempotent "Casework" Hcasework)
    as (_ & _ & Hsame & _).
  split; [|split; [exact Htwice|]].
  - apply Hlabel. apply (bool_decide_unpack _). by vm_compute.
  - apply Hsame. apply (bool_decide_unpack _). by vm_compute.
Defined.

Ltac scan_patterns H s :=
  repeat match type of H with
         | context [if Js.includes s ?p then _ else _] =>
             let E := fresh "E" in
             destruct (Js.includes s p) eqn:E; [try discriminate H|]
         end;
  try discriminate H.

Lemma includes_keyword s long short :
  Js.includes long short = true →
  Js.includes s short = false → Js.includes s long = false.
Proof.
  intros Hsub Hshort. destruct (Js.includes s long) eqn:Hlong; [|done].
  by rewrite (includes_trans s long short Hlong Hsub) in Hshort.
Qed.

(** X7. Keywords of the pattern table that never decide, the table being
    read in order: a string that contains "panel" is a curtain panel,
    whatever else it contains, so that "Electrical Equipment" is only
    reached through "transformer" ("panel" and "switchboard", which
    contains "switch", are taken before); and "Data Devices", "Cable
    Trays" and "Structural Stiffeners" are never reached through
    "device", "conduit" and "brace". *)
Theorem shadowed_keywords str :
  (Js.includes str "panel" = true →
   patternCategory categoryPatterns str = Some "Curtain Panels")
  ∧ (patternCategory categoryPatterns str = Some "Electrical Equipment" →
     Js.includes str "transformer" = true)
  ∧ (patternCategory categoryPatterns str = Some "Data Devices" →
     Js.includes str "data" = true ∨ Js.includes str "sensor" = true)
  ∧ (patternCategory categoryPatterns str = Some "Cable Trays" →
     Js.includes str "cable" = true ∨ Js.includes str "tray" = true
     ∨ Js.includes str "cavo" = true)
  ∧ (patternCategory categoryPatterns str = Some "Structural Stiffeners" →
     Js.includes str "stiffener" = true ∨ Js.includes str "stiffening" = true).
Proof.
  split; [|split; [|split; [|split]]].
  - intros Hpanel. unfold categoryPatterns. cbn [patternCategory anyPattern].
    rewrite Hpanel. by repeat destruct (Js.includes str _).
  - intros H. unfold categoryPatterns in H. cbn [patternCategory anyPattern] in H.
    scan_patterns H str; [done|].
    match goal with
    | Hlong : Js.includes str "switchboard" = true,
      Hshort : Js.includes str "switch" = false |- _ =>
        by rewrite (includes_keyword str "switchboard" "switch" eq_refl Hshort)
          in Hlong
    end.
  - intros H. unfold categoryPatterns in H. cbn [patternCategory anyPattern] in H.
    scan_patterns H str; [by left|by right].
  - intros H. unfold categoryPatterns in H. cbn [patternCategory anyPattern] in H.
    scan_patterns H str; [by left|by right; left|by right; right].
  - intros H. unfold categoryPatterns in H. cbn [patternCategory anyPattern] in H.
    scan_patterns H str; [by left|by right].
Qed.

(** X8. Where a category comes from: it is the translated category of
    the metadata record found for the node, when that record has one, and
    otherwise one of the fixed labels of the classifier. *)
Theorem extractCategory_range metadataRef parents node displayName :
  (∃ record,
      getElementMetadata metadataRef node = Some record
      ∧ category record ≠ ""
      ∧ extractCategory metadataRef parents node displayName
        = getCategoryFromOST (category record))
  ∨ ((∀ record, getElementMetadata metadataRef node = Some record →
                category record = "")
     ∧ extractCategory metadataRef parents node displayName ∈ fallbackCategories).
Proof.
  unfold extractCategory.
  assert (∀ label, label ∈ categoryPatterns.*1 → label ∈ fallbackCategories)
    as Hkey.
  { intros label Hin. unfold fallbackCategories. right.
    apply elem_of_app. by left. }
  assert ((if isText (node_userData node) then "Text & Annotations"
           else match patternCategory categoryPatterns (searchStr node displayName) with
                | Some category => category
                | None => match parentCategoryLoop parents 0 with
                          | Some category => category
                          | None => "Generic Models"
                          end
                end) ∈ fallbackCategories) as Hfallback.
  { destruct (isText (node_userData node)); [by left|].
    destruct (patternCategory _ _) as [label|] eqn:Hown.
    { by apply Hkey, (patternCategory_key _ _ _ Hown). }
    destruct (parentCategoryLoop parents 0) as [label|] eqn:Hup.
    { by apply Hkey, (parentCategoryLoop_key _ _ _ Hup). }
    unfold fallbackCategories. right. apply elem_of_app. right. by left. }
  destruct (getElementMetadata metadataRef node) as [record|]; [|by right].
  unfold Js.truthy. case_bool_decide as Hempty; simpl.
  - right. split; [|done]. by intros r [= <-].
  - left. by exists record.
Qed.

End categories_more.

(** ** Paths, parent chains and lookup by uuid *)

Section paths.

Lemma pathLoop_named named rest path :
  Forall (λ node, node_name node ≠ "") named →
  match rest with
  | [] => True
  | unnamed :: _ => node_name unnamed = ""
  end →
  pathLoop (named ++ rest) path = reverse (node_name <$> named) ++ path.
Proof.
  revert path. induction named as [|node named IH]; intros path Hnamed Hrest.
  - simpl. destruct rest as [|unnamed rest]; [done|]. simpl. by rewrite Hrest.
  - apply Forall_cons in Hnamed as [Hnode Hnamed]. cbn [app pathLoop].
    unfold Js.truthy. rewrite (bool_decide_eq_false_2 _ Hnode). cbn [negb].
    rewrite IH by done. rewrite fmap_cons, reverse_cons, <- app_assoc. done.
Qed.

(** X9. The path of a node: the names from the node upwards, as far as
    they are not empty, joined root first with [" > "]; the walk stops at
    the first object without a name, so a node without a name has the
    empty path whatever its ancestors are called. *)
Theorem getNodePath_named_prefix parents node named rest :
  node :: parents = named ++ rest →
  Forall (λ node, node_name node ≠ "") named →
  match rest with
  | [] => True
  | unnamed :: _ => node_name unnamed = ""
  end →
  getNodePath parents node
  = String.concat " > " (reverse (node_name <$> named))
  ∧ (node_name node = "" → getNodePath parents node = "").
Proof.
  intros Hchain Hnamed Hrest. unfold getNodePath. split.
  - rewrite Hchain, pathLoop_named by done. by rewrite app_nil_r.
  - intros Hnode. simpl. by rewrite Hnode.
Qed.

Lemma getNodePath_named_prefix_witness :
  getNodePath [obj_data Sample.scene; Sample.unnamed] Sample.wall4821
  = "model > Wall-Element_4821-mesh".
Proof.
  by destruct (getNodePath_named_prefix
                 [obj_data Sample.scene; Sample.unnamed] Sample.wall4821
                 [Sample.wall4821; obj_data Sample.scene] [Sample.unnamed])
    as [Hpath _]; [done|by repeat constructor|done|].
Defined.

Lemma getParentChain_fold parents chain :
  fold_left (λ chain parent,
               (Js.orElse (node_name parent) "unnamed", node_type parent) :: chain)
            parents chain
  = reverse ((λ parent, (Js.orElse (node_name parent) "unnamed",
                         node_type parent)) <$> parents) ++ chain.
Proof.
  revert chain. induction parents as [|parent parents IH]; intros chain; [done|].
  cbn [fold_left]. rewrite IH, fmap_cons, reverse_cons, <- app_assoc. done.
Qed.

(** X10. The parent chain of a node lists its ancestors from the root
    down to the parent, one entry each, so that it is as long as the
    node is deep; an ancestor without a name is listed as "unnamed", and
    no entry has an empty name. *)
Theorem getParentChain_ancestors parents :
  getParentChain parents
  = reverse ((λ parent, (Js.orElse (node_name parent) "unnamed",
                         node_type parent)) <$> parents)
  ∧ length (getParentChain parents) = getNodeDepth parents
  ∧ Forall (λ entry, entry.1 ≠ "") (getParentChain parents).
Proof.
  assert (getParentChain parents
          = reverse ((λ parent, (Js.orElse (node_name parent) "unnamed",
                                 node_type parent)) <$> parents)) as Hchain.
  { unfold getParentChain. by rewrite getParentChain_fold, app_nil_r. }
  split; [done|]. rewrite Hchain. split.
  - by rewrite length_reverse, length_fmap.
  - apply Forall_reverse, Forall_fmap, Forall_forall. intros parent _. simpl.
    unfold Js.orElse, Js.truthy. case_bool_decide; simpl; done.
Qed.

Lemma findNodeByUuid_snoc visits child uuid :
  findNodeByUuid (visits ++ [child]) uuid
  = if bool_decide (node_uuid (v_node child) = uuid) then Some child
    else findNodeByUuid visits uuid.
Proof. unfold findNodeByUuid. by rewrite fold_left_app. Qed.

(** X11. Looking a node up by its uuid gives the last object of the
    traversal that carries the uuid, and nothing exactly when no object
    carries it. *)
Theorem findNodeByUuid_last visits uuid :
  findNodeByUuid visits uuid
  = last (filter (λ child, node_uuid (v_node child) = uuid) visits)
  ∧ (findNodeByUuid visits uuid = None
     ↔ uuid ∉ (λ child, node_uuid (v_node child)) <$> visits).
Proof.
  assert (findNodeByUuid visits uuid
          = last (filter (λ child, node_uuid (v_node child) = uuid) visits))
    as Hlast.
  { induction visits as [|child visits IH] using rev_ind; [done|].
    rewrite findNodeByUuid_snoc, filter_app, IH.
    rewrite filter_cons, filter_nil. case_bool_decide as Huuid.
    - rewrite decide_True by done. by rewrite last_snoc.
    - rewrite decide_False by done. by rewrite app_nil_r. }
  split; [done|]. rewrite Hlast, last_None. split.
  - intros Hnone (child & Huuid & Hin)%list_elem_of_fmap.
    assert (child ∈ filter (λ child, node_uuid (v_node child) = uuid) visits)
      as Hchild by (by apply list_elem_of_filter).
    rewrite Hnone in Hchild. by apply elem_of_nil in Hchild.
  - intros Hout.
    destruct (filter (λ child, node_uuid (v_node child) = uuid) visits)
      as [|child rest] eqn:Hfilter; [done|].
    assert (child ∈ filter (λ child, node_uuid (v_node child) = uuid) visits)
      as [Huuid Hin]%list_elem_of_filter by (rewrite Hfilter; by left).
    destruct Hout. rewrite <- Huuid.
    by apply (list_elem_of_fmap_2 (λ child, node_uuid (v_node child))).
Qed.

End paths.

(** ** The two passes of the tree builder *)

Lemma claim_registered visits c child :
  child ∈ visits → isMesh (v_node child) →
  registered visits c → registered visits (claim child c).
Proof.
  intros Hin Hmesh (Hobj & Hvis & Hreg). split; [|split].
  - simpl. rewrite dom_insert_L. by rewrite Hobj.
  - simpl. rewrite dom_insert_L. by rewrite Hvis.
  - intros objectId. simpl.
    destruct (decide (objectId = node_uuid (v_node child))) as [->|Hne].
    + intros _. exists child. by rewrite !lookup_insert_eq.
    + intros Hid. apply elem_of_union in Hid as [Hid|Hid]; [set_solver|].
      destruct (Hreg objectId Hid) as (w & Hw & Hwm & Hwu & Hwo & Hwv).
      exists w. by rewrite !lookup_insert_ne.
Qed.

Section tracing.

Context (metadataRef : option MetadataIndex) (visits : list Visit).
Context (f : Collect → Visit → Collect) (wanted : Visit → Prop).

Hypothesis f_cases : ∀ c items i child,
  f (c, items, i) child = (c, items, i)
  ∨ (wanted child ∧ isMesh (v_node child)
     ∧ (node_uuid (v_node child) ∉ processedMeshes c)
     ∧ f (c, items, i) child
       = (claim child c, items ++ [treeItem metadataRef child i], S i)).

Hypothesis f_claims : ∀ c items i child,
  wanted child → isMesh (v_node child) →
  node_uuid (v_node child) ∈ processedMeshes (fst (fst (f (c, items, i) child))).

(** What one mesh-collecting traversal does: it appends the entries of
    the meshes it claims, which are wanted meshes among the children not
    claimed before, and afterwards every wanted mesh is claimed. *)
Lemma collect_trace children c items i :
  (∀ child, child ∈ children → child ∈ visits) →
  ∃ c' new i',
    fold_left f children (c, items, i) = (c', items ++ new, i')
    ∧ Forall (λ item, ∃ child index,
                 child ∈ children ∧ wanted child ∧ isMesh (v_node child)
                 ∧ (node_uuid (v_node child) ∉ processedMeshes c)
                 ∧ item = treeItem metadataRef child index) new
    ∧ (∀ u, u ∈ processedMeshes c'
            ↔ u ∈ processedMeshes c ∨ u ∈ item_id <$> new)
    ∧ (∀ child, child ∈ children → wanted child → isMesh (v_node child) →
                node_uuid (v_node child) ∈ processedMeshes c')
    ∧ (registered visits c → registered visits c').
Proof.
  revert c items i. induction children as [|child children IH];
    intros c items i Hvisits.
  - exists c, [], i. rewrite app_nil_r. split; [done|]. split; [done|].
    split; [|split; [|done]].
    + intros u. rewrite fmap_nil, elem_of_nil. tauto.
    + by intros child ?%elem_of_nil.
  - assert (∀ x, x ∈ children → x ∈ visits) as Hrest.
    { intros x Hx. apply Hvisits. by right. }
    cbn [fold_left]. pose proof (f_claims c items i child) as Hclaims.
    destruct (f_cases c items i child) as [Hf|(Hw & Hmesh & Hfresh & Hf)];
      rewrite Hf in Hclaims |- *; simpl in Hclaims.
    + destruct (IH c items i Hrest) as (c' & new & i' & Hfold & Hnew & Hmem & Hall & Hreg).
      exists c', new, i'. split; [done|]. split; [|split; [done|split; [|done]]].
      * eapply Forall_impl; [exact Hnew|]. simpl.
        intros item (w & index & Hin & Hrest'). exists w, index.
        split; [by right|done].
      * intros w Hin Hwanted Hwm. apply elem_of_cons in Hin as [->|Hin].
        -- apply Hmem. left. by apply Hclaims.
        -- by apply Hall.
    + destruct (IH (claim child c) (items ++ [treeItem metadataRef child i]) (S i) Hrest)
        as (c' & new & i' & Hfold & Hnew & Hmem & Hall & Hreg).
      exists c', (treeItem metadataRef child i :: new), i'.
      split; [by rewrite Hfold, <- app_assoc|]. split; [|split; [|split]].
      * apply Forall_cons. split.
        -- exists child, i. split; [by left|done].
        -- eapply Forall_impl; [exact Hnew|]. simpl.
           intros item (w & index & Hin & Hww & Hwm & Hwf & ->). exists w, index.
           split; [by right|]. split; [done|]. split; [done|]. split; [|done].
           intros Hu. apply Hwf. simpl. apply elem_of_union. by right.
      * intros u. rewrite Hmem. simpl. rewrite elem_of_union, elem_of_singleton.
        rewrite elem_of_cons. tauto.
      * intros w Hin Hwanted Hwm. apply elem_of_cons in Hin as [->|Hin].
        -- apply Hmem. left. simpl. apply elem_of_union. left.
           by apply elem_of_singleton.
        -- by apply Hall.
      * intros Hc. apply Hreg, claim_registered; [|done|done].
        apply Hvisits. by left.
Qed.

End tracing.

Section grouping.

Context (metadataRef : option MetadataIndex).
Context (expandedCategories : gmap string bool) (visits : list Visit).

Hypothesis visits_closed : ∀ v w, v ∈ visits → w ∈ traverseFrom v → w ∈ visits.

Lemma groupVisit_wanted g c items i child :
  groupVisit metadataRef g (c, items, i) child = (c, items, i)
  ∨ (v_ref child ≠ v_ref g ∧ isMesh (v_node child)
     ∧ (node_uuid (v_node child) ∉ processedMeshes c)
     ∧ groupVisit metadataRef g (c, items, i) child
       = (claim child c, items ++ [treeItem metadataRef child i], S i)).
Proof using Type.
  unfold groupVisit.
  destruct (isMesh (v_node child)) eqn:Hmesh; [|by left].
  destruct (decide (v_ref child = v_ref g)) as [Href|Href].
  { rewrite (bool_decide_eq_true_2 _ Href). by left. }
  rewrite (bool_decide_eq_false_2 _ Href).
  destruct (decide (node_uuid (v_node child) ∈ processedMeshes c)) as [Hin|Hin].
  { rewrite (bool_decide_eq_true_2 _ Hin). by left. }
  rewrite (bool_decide_eq_false_2 _ Hin). right. by repeat split.
Qed.

(** One step of [groupNodes.forEach]. *)
Lemma groupStep_trace done c tree groupInfo :
  registered visits c → claimedBelow visits done c →
  ∃ c' tree',
    groupStep metadataRef expandedCategories visits (c, tree) groupInfo
    = (c', tree')
    ∧ registered visits c'
    ∧ claimedBelow visits (done ++ [groupInfo]) c'
    ∧ (tree' = tree
       ∨ ∃ entry, tree' = tree ++ [entry]
                  ∧ groupEntry metadataRef expandedCategories visits
                               groupInfo entry)
    ∧ (∀ g w, findNodeByUuid visits (info_uuid groupInfo) = Some g →
              below g w → isMesh (v_node w) →
              node_uuid (v_node w) ∉ processedMeshes c →
              ∃ entry item,
                tree' = tree ++ [entry]
                ∧ groupEntry metadataRef expandedCategories visits
                             groupInfo entry
                ∧ item ∈ tn_items entry
                ∧ item_id item = node_uuid (v_node w)).
Proof.
  intros Hreg Hbelow. unfold groupStep.
  destruct (findNodeByUuid visits (info_uuid groupInfo)) as [g|] eqn:Hfind.
  2:{ exists c, tree. split; [done|]. split; [done|]. split; [|split; [by left|]].
      - intros u Hu. destruct (Hbelow u Hu) as (info & g & w & Hin & Hrest).
        exists info, g, w. split; [|done]. apply elem_of_app. by left.
      - by intros g w [=]. }
  pose proof (findNodeByUuid_Some _ _ _ Hfind) as [Hg _].
  destruct (collect_trace metadataRef visits _ (λ child, v_ref child ≠ v_ref g)
              (groupVisit_wanted g)
              (groupVisit_claims metadataRef visits visits_closed g)
              (traverseFrom g) c [] 0%nat)
    as (c' & items & i' & Hfold & Hnew & Hmem & Hall & Hreg').
  { intros child. by apply visits_closed. }
  rewrite Hfold. rewrite app_nil_l.
  assert (Forall (λ item, ∃ child index,
                    below g child ∧ isMesh (v_node child)
                    ∧ item = treeItem metadataRef child index) items) as Hitems.
  { eapply Forall_impl; [exact Hnew|]. simpl.
    intros item (w & index & Hin & Href & Hmesh & _ & ->). by exists w, index. }
  assert (claimedBelow visits (done ++ [groupInfo]) c') as Hbelow'.
  { intros u Hu. apply Hmem in Hu as [Hu|Hu].
    - destruct (Hbelow u Hu) as (info & g' & w & Hin & Hrest).
      exists info, g', w. split; [|done]. apply elem_of_app. by left.
    - apply list_elem_of_fmap in Hu as (item & -> & Hitem).
      rewrite Forall_forall in Hitems.
      destruct (Hitems item Hitem) as (w & index & Hw & Hmesh & ->).
      exists groupInfo, g, w. split; [|done]. apply elem_of_app. right. by left. }
  destruct items as [|firstChild rest].
  - exists c', tree. split; [done|]. split; [by apply Hreg'|]. split; [done|].
    split; [by left|]. intros g' w [= <-] [Hw Href] Hmesh Hfresh.
    pose proof (Hall w Hw Href Hmesh) as Hin. apply Hmem in Hin as [Hin|Hin];
      [done|by apply elem_of_nil in Hin].
  - cbn [length Nat.ltb Nat.leb].
    eexists c', (tree ++ [_]). split; [reflexivity|]. split; [by apply Hreg'|].
    split; [done|].
    match goal with
    | |- (_ ∨ ∃ entry, _ ++ [?e] = _ ++ [entry] ∧ _) ∧ _ =>
        assert (groupEntry metadataRef expandedCategories visits groupInfo e)
          as Hentry
    end.
    { split; [done|]. split; [done|]. split; [done|]. split; [done|].
      split; [done|]. split; [done|]. by exists g. }
    split.
    + right. eexists. by split; [reflexivity|].
    + intros g' w [= <-] [Hw Href] Hmesh Hfresh.
      pose proof (Hall w Hw Href Hmesh) as Hin. apply Hmem in Hin as [Hin|Hin];
        [done|].
      apply list_elem_of_fmap in Hin as (item & Hid & Hitem).
      eexists _, item. split; [reflexivity|]. by split.
Qed.

Lemma groupFold_trace groupNodes done c tree :
  registered visits c → claimedBelow visits done c →
  ∃ c' added,
    fold_left (groupStep metadataRef expandedCategories visits) groupNodes (c, tree)
    = (c', tree ++ added)
    ∧ registered visits c'
    ∧ claimedBelow visits (done ++ groupNodes) c'
    ∧ Forall (λ entry, ∃ groupInfo,
                 groupInfo ∈ groupNodes
                 ∧ groupEntry metadataRef expandedCategories visits
                              groupInfo entry) added
    ∧ tn_id <$> added `sublist_of` info_uuid <$> groupNodes.
Proof.
  revert done c tree. induction groupNodes as [|groupInfo groupNodes IH];
    intros done c tree Hreg Hbelow.
  - exists c, []. rewrite !app_nil_r. split; [done|]. split; [done|].
    split; [done|]. split; [apply Forall_nil_2|]. simpl. constructor.
  - cbn [fold_left].
    destruct (groupStep_trace done c tree groupInfo Hreg Hbelow)
      as (c1 & tree1 & -> & Hreg1 & Hbelow1 & Hstep & _).
    destruct (IH (done ++ [groupInfo]) c1 tree1 Hreg1 Hbelow1)
      as (c' & added & -> & Hreg' & Hbelow' & Hadded & Hsub).
    rewrite <- app_assoc in Hbelow'.
    assert (Forall (λ entry, ∃ info, info ∈ groupInfo :: groupNodes
                      ∧ groupEntry metadataRef expandedCategories visits
                                   info entry) added) as Hadded'.
    { eapply Forall_impl; [exact Hadded|]. simpl.
      intros entry (info & Hin & Hentry). exists info. split; [by right|done]. }
    destruct Hstep as [->|(entry & -> & Hentry)].
    + exists c', added. split; [done|]. split; [done|]. split; [done|].
      split; [done|]. rewrite fmap_cons. by apply sublist_cons.
    + exists c', (entry :: added). rewrite <- app_assoc.
      split; [done|]. split; [done|]. split; [done|]. split.
      * apply Forall_cons. split; [|done]. exists groupInfo. split; [by left|done].
      * rewrite !fmap_cons. destruct Hentry as [-> _]. by apply sublist_skip.
Qed.

(** The group that comes first claims: a mesh below the group node of
    [groupInfo] that lies below no group node done before is listed in
    the entry of [groupInfo]. *)
Lemma groupFold_first pre groupInfo post g w :
  findNodeByUuid visits (info_uuid groupInfo) = Some g →
  below g w → isMesh (v_node w) →
  (∀ info g' w', info ∈ pre → findNodeByUuid visits (info_uuid info) = Some g' →
                 below g' w' → isMesh (v_node w') →
                 node_uuid (v_node w') ≠ node_uuid (v_node w)) →
  ∃ entry item,
    entry ∈ snd (fold_left (groupStep metadataRef expandedCategories visits)
                           (pre ++ groupInfo :: post) (noneClaimed, []))
    ∧ groupEntry metadataRef expandedCategories visits groupInfo entry
    ∧ item ∈ tn_items entry
    ∧ item_id item = node_uuid (v_node w).
Proof.
  intros Hfind Hw Hmesh Hfirst. rewrite fold_left_app. cbn [fold_left].
  assert (registered visits noneClaimed) as Hreg0.
  { split; [|split]; simpl; [by rewrite dom_empty_L..|].
    by intros u ?%elem_of_empty. }
  assert (claimedBelow visits [] noneClaimed) as Hbelow0.
  { by intros u ?%elem_of_empty. }
  destruct (groupFold_trace pre [] noneClaimed [] Hreg0 Hbelow0)
    as (c1 & tree1 & -> & Hreg1 & Hbelow1 & _).
  destruct (groupStep_trace ([] ++ pre) c1 ([] ++ tree1) groupInfo Hreg1 Hbelow1)
    as (c2 & tree2 & -> & Hreg2 & Hbelow2 & _ & Hclaims).
  destruct (Hclaims g w Hfind Hw Hmesh) as (entry & item & -> & Hentry & Hitem).
  { intros Hin. destruct (Hbelow1 _ Hin) as (info & g' & w' & Hinfo & Hg' & Hw' & Hm' & Hu).
    by apply (Hfirst info g' w'). }
  destruct (groupFold_trace post _ c2 (([] ++ tree1) ++ [entry]) Hreg2 Hbelow2)
    as (c3 & added & -> & _).
  exists entry, item. split; [|done]. simpl.
  rewrite !elem_of_app, list_elem_of_singleton. tauto.
Qed.

(** The group pass as a whole. *)
Lemma groupPass_trace :
  ∃ c groups,
    groupPass metadataRef expandedCategories visits = (c, groups)
    ∧ registered visits c
    ∧ Forall (λ entry, ∃ groupInfo,
                 groupInfo ∈ groupNodesOf visits
                 ∧ groupEntry metadataRef expandedCategories visits
                              groupInfo entry) groups
    ∧ tn_id <$> groups `sublist_of` info_uuid <$> groupNodesOf visits.
Proof.
  assert (registered visits noneClaimed) as Hreg0.
  { split; [|split]; simpl; [by rewrite dom_empty_L..|].
    by intros u ?%elem_of_empty. }
  unfold groupPass. destruct (1 <? length (groupNodesOf visits))%nat.
  - destruct (groupFold_trace (groupNodesOf visits) [] noneClaimed [] Hreg0)
      as (c & groups & -> & Hreg & _ & Hentries & Hsub).
    { by intros u ?%elem_of_empty. }
    by exists c, groups.
  - exists noneClaimed, []. split; [done|]. split; [done|].
    split; [apply Forall_nil_2|]. apply sublist_nil_l.
Qed.

(** The second traversal. *)
Lemma uncategorizedPass_trace c :
  registered visits c →
  ∃ c' uncategorizedMeshes i,
    uncategorizedPass metadataRef visits c = (c', uncategorizedMeshes, i)
    ∧ registered visits c'
    ∧ (∀ child, child ∈ visits → isMesh (v_node child) →
                node_uuid (v_node child) ∈ processedMeshes c').
Proof.
  intros Hreg. unfold uncategorizedPass.
  destruct (collect_trace metadataRef visits _ (λ _, True)
              (λ c items i child,
                 match uncategorizedVisit_cases metadataRef c items i child with
                 | or_introl H => or_introl H
                 | or_intror H => or_intror (conj I H)
                 end)
              (uncategorizedVisit_claims metadataRef visits visits_closed)
              visits c [] 0%nat)
    as (c' & items & i' & Hfold & _ & _ & Hall & Hreg'); [done|].
  exists c', items, i'. split; [done|]. split; [by apply Hreg'|].
  intros child Hin Hmesh. by apply Hall.
Qed.

End grouping.

Section tree_more.

Context (metadataRef : option MetadataIndex).
Context (expandedCategories : gmap string bool).
Context (sceneParents : list NodeData) (modelScene : Object3D).

Abbreviation visits := (traverse [] sceneParents modelScene).
Abbreviation result :=
  (buildModelTree metadataRef expandedCategories sceneParents modelScene).
Abbreviation built := (br_modelTree result).

Lemma traverse_closed v w : v ∈ visits → w ∈ traverseFrom v → w ∈ visits.
Proof. apply traverse_sub. Qed.

(** [buildModelTree] in terms of its two passes. *)
Lemma buildModelTree_trace :
  ∃ groups c uncategorizedMeshes,
    built
    = (if (0 <? length uncategorizedMeshes)%nat
       then groups ++ (categoryNode expandedCategories
                         <$> objectEntries (categorise uncategorizedMeshes))
       else groups)
    ∧ br_objectsMap result = objectsMap c
    ∧ br_objectVisibility result = visibilityMap c
    ∧ br_expandedCategories result
      = fold_left (λ initialExpanded category,
                     <[tn_id category := tn_expanded category]> initialExpanded)
                  built ∅
    ∧ registered visits c
    ∧ (∀ u, u ∈ processedMeshes c ↔ u ∈ meshUuids visits)
    ∧ Forall (λ entry, ∃ groupInfo,
                 groupInfo ∈ groupNodesOf visits
                 ∧ groupEntry metadataRef expandedCategories visits
                              groupInfo entry) groups
    ∧ tn_id <$> groups `sublist_of` info_uuid <$> groupNodesOf visits
    ∧ ((1 < length (groupNodesOf visits))%nat →
       groups = snd (fold_left (groupStep metadataRef expandedCategories visits)
                               (groupNodesOf visits) (noneClaimed, []))).
Proof.
  destruct (groupPass_trace metadataRef expandedCategories visits traverse_closed)
    as (c1 & groups & Hgroups & Hreg1 & Hentries & Hsub).
  destruct (uncategorizedPass_trace metadataRef visits traverse_closed c1 Hreg1)
    as (c & uncats & i & Huncat & Hreg & Hall).
  exists groups, c, uncats. unfold buildModelTree. rewrite Hgroups, Huncat.
  cbn [br_modelTree br_objectsMap br_objectVisibility br_expandedCategories].
  split; [done|]. split; [done|]. split; [done|]. split; [done|].
  split; [done|]. split; [|split; [done|split; [done|]]].
  - intros u. split.
    + intros Hu. destruct Hreg as (_ & _ & Hreg).
      destruct (Hreg u Hu) as (child & Hin & Hmesh & <- & _).
      unfold meshUuids.
      apply (list_elem_of_fmap_2 (λ child, node_uuid (v_node child))).
      by apply list_elem_of_filter.
    + unfold meshUuids.
      intros (child & -> & [Hmesh Hchild]%list_elem_of_filter)%list_elem_of_fmap.
      by apply Hall.
  - intros Hlen. apply Nat.ltb_lt in Hlen. unfold groupPass in Hgroups.
    rewrite Hlen in Hgroups. by rewrite Hgroups.
Qed.


Lemma categoryNodes_counted uncategorizedMeshes :
  Forall (λ category,
            tn_type category = CategoryKind
            ∧ tn_id category = tn_name category
            ∧ tn_depth category = None
            ∧ tn_count category = length (tn_items category)
            ∧ tn_items category ≠ []
            ∧ tn_expanded category
              = isExpanded expandedCategories (tn_name category)
            ∧ Forall (λ item, item_category item = tn_id category)
                     (tn_items category))
         (categoryNode expandedCategories
            <$> objectEntries (categorise uncategorizedMeshes)).
Proof.
  apply Forall_fmap, Forall_forall. intros [k items] Hin.
  rewrite objectEntries_Permutation in Hin.
  pose proof (categorise_keyed uncategorizedMeshes) as Hkeyed.
  rewrite Forall_forall in Hkeyed. destruct (Hkeyed _ Hin) as [Hcat Hne].
  simpl in *. by repeat split.
Qed.

(** X12. Every entry of the built tree shows the number of the entries it
    holds and holds at least one; the search keeps both. *)
Theorem built_entries_counted query :
  Forall (λ category,
            tn_count category = length (tn_items category)
            ∧ tn_items category ≠ []) built
  ∧ Forall (λ category,
              tn_count category = length (tn_items category)
              ∧ tn_items category ≠ []) (filterTree built query).
Proof.
  assert (Forall (λ category,
                    tn_count category = length (tn_items category)
                    ∧ tn_items category ≠ []) built) as Hbuilt.
  { destruct buildModelTree_trace
      as (groups & c & uncats & -> & _ & _ & _ & _ & _ & Hgroups & _).
    assert (Forall (λ category,
                      tn_count category = length (tn_items category)
                      ∧ tn_items category ≠ []) groups) as Hg.
    { eapply Forall_impl; [exact Hgroups|]. simpl.
      by intros entry (info & _ & _ & _ & _ & Hcount & Hne & _). }
    destruct (0 <? length uncats)%nat; [|done].
    apply Forall_app. split; [done|].
    eapply Forall_impl; [apply categoryNodes_counted|]. simpl.
    by intros category (_ & _ & _ & Hcount & Hne & _). }
  split; [done|].
  destruct (decide (Js.trim query = "")) as [Hq|Hq].
  - by rewrite filterTree_blank.
  - rewrite filterTree_query by done. apply Forall_forall.
    intros category [Hne (original & -> & _)%list_elem_of_fmap]%list_elem_of_filter.
    split; [done|]. apply Is_true_true, Nat.ltb_lt in Hne.
    intros Hnil. rewrite Hnil in Hne. simpl in Hne. lia.
Qed.

(** X13. The object map and the visibility state have exactly the uuids of
    the meshes of the scene as keys; under each, the map holds a mesh
    that carries the uuid, and the state the [visible] flag of that
    mesh. *)
Theorem built_maps_keys :
  dom (br_objectsMap result) = list_to_set (meshUuids visits)
  ∧ dom (br_objectVisibility result) = list_to_set (meshUuids visits)
  ∧ ∀ objectId, objectId ∈ meshUuids visits →
      ∃ child, child ∈ visits ∧ isMesh (v_node child)
               ∧ node_uuid (v_node child) = objectId
               ∧ br_objectsMap result !! objectId = Some (v_ref child)
               ∧ br_objectVisibility result !! objectId
                 = Some (node_visible (v_node child)).
Proof.
  destruct buildModelTree_trace
    as (groups & c & uncats & _ & -> & -> & _ & Hreg & Hmem & _).
  destruct Hreg as (Hobj & Hvis & Hreg).
  assert (processedMeshes c = list_to_set (meshUuids visits)) as Hset.
  { apply set_eq. intros u. by rewrite Hmem, elem_of_list_to_set. }
  split; [by rewrite Hobj|]. split; [by rewrite Hvis|].
  intros objectId Hid. by apply Hreg, Hmem.
Qed.


Lemma groupInfo_visit groupInfo vs :
  groupInfo ∈ groupNodesOf vs →
  ∃ v, v ∈ vs ∧ groupInfo = nodeInfo v ∧ groupNode v.
Proof.
  unfold groupNodesOf.
  intros [Hgroup (v & -> & Hv)%list_elem_of_fmap]%list_elem_of_filter.
  apply andb_True in Hgroup as [Hgroup Hchildren].
  exists v. split; [done|]. split; [done|]. split; [done|].
  by apply Nat.ltb_lt, Is_true_true.
Qed.

Lemma uuid_inj (vs : list Visit) v w :
  NoDup ((λ child, node_uuid (v_node child)) <$> vs) →
  v ∈ vs → w ∈ vs → node_uuid (v_node v) = node_uuid (v_node w) → v = w.
Proof.
  induction vs as [|x vs IH]; [by intros _ ?%elem_of_nil|].
  rewrite fmap_cons, NoDup_cons. intros [Hx Hnodup] Hv Hw Heq.
  apply elem_of_cons in Hv as [->|Hv]; apply elem_of_cons in Hw as [->|Hw].
  - done.
  - destruct Hx. rewrite Heq.
    by apply (list_elem_of_fmap_2 (λ child, node_uuid (v_node child))).
  - destruct Hx. rewrite <- Heq.
    by apply (list_elem_of_fmap_2 (λ child, node_uuid (v_node child))).
  - by apply IH.
Qed.

(** X14. What the entries are (uuids being unique): a group entry stands
    for a group node of the scene, whose uuid is the entry's id and whose
    depth it records, and holds only meshes below that node; a category
    entry is named by its id and holds only entries of that category. *)
Theorem built_entry_kinds category :
  NoDup ((λ child, node_uuid (v_node child)) <$> visits) →
  category ∈ built →
  match tn_type category with
  | GroupKind =>
      ∃ g, g ∈ visits ∧ groupNode g
           ∧ tn_id category = node_uuid (v_node g)
           ∧ tn_depth category = Some (getNodeDepth (v_parents g))
           ∧ ∀ item, item ∈ tn_items category →
                     below g (item_object item)
                     ∧ isMesh (v_node (item_object item))
                     ∧ item_id item = node_uuid (v_node (item_object item))
  | CategoryKind =>
      tn_name category = tn_id category
      ∧ tn_depth category = None
      ∧ ∀ item, item ∈ tn_items category →
                item_category item = tn_id category
  end.
Proof.
  intros Hnodup Hin.
  destruct buildModelTree_trace
    as (groups & c & uncats & Hbuilt & _ & _ & _ & _ & _ & Hgroups & _).
  assert (category ∈ groups
          ∨ category ∈ categoryNode expandedCategories
                         <$> objectEntries (categorise uncats)) as [Hg|Hc].
  { rewrite Hbuilt in Hin. destruct (0 <? length uncats)%nat; [|by left].
    by apply elem_of_app in Hin. }
  - rewrite Forall_forall in Hgroups.
    destruct (Hgroups _ Hg)
      as (info & Hinfo & Hid & -> & Hdepth & _ & _ & _ & g & Hfind & Hitems).
    destruct (groupInfo_visit _ _ Hinfo) as (v & Hv & -> & Hgroup).
    change (info_uuid (nodeInfo v)) with (node_uuid (v_node v)) in Hfind, Hid.
    rewrite (findNodeByUuid_unique visits v Hnodup Hv) in Hfind.
    injection Hfind as <-. exists v.
    split; [done|]. split; [done|]. split; [done|]. split; [done|].
    intros item Hitem. rewrite Forall_forall in Hitems.
    by destruct (Hitems item Hitem) as (child & index & Hbelow & Hmesh & ->).
  - pose proof (categoryNodes_counted uncats) as Hcats.
    rewrite Forall_forall in Hcats.
    destruct (Hcats _ Hc) as (-> & Hname & Hdepth & _ & _ & _ & Hitems).
    split; [done|]. split; [done|]. by apply Forall_forall.
Qed.

(** X15. First claim wins (uuids being unique, and the group pass
    running): a mesh below a group node, and below none of the group
    nodes visited before it, is listed in the entry of that group node.
    The root is visited first: when it is a group node, every mesh below
    it is listed in its entry. *)
Theorem first_group_claims :
  (1 < length (groupNodesOf visits))%nat →
  NoDup ((λ child, node_uuid (v_node child)) <$> visits) →
  (∀ before g after w,
      visits = before ++ g :: after →
      groupNode g → below g w → isMesh (v_node w) →
      (∀ g', g' ∈ before → groupNode g' → ¬ below g' w) →
      ∃ category item,
        category ∈ built ∧ tn_type category = GroupKind
        ∧ tn_id category = node_uuid (v_node g)
        ∧ item ∈ tn_items category
        ∧ item_id item = node_uuid (v_node w))
  ∧ (∀ root w,
      head visits = Some root →
      groupNode root → below root w → isMesh (v_node w) →
      ∃ category item,
        category ∈ built ∧ tn_type category = GroupKind
        ∧ tn_id category = node_uuid (v_node root)
        ∧ item ∈ tn_items category
        ∧ item_id item = node_uuid (v_node w)).
Proof.
  intros Hlen Hnodup.
  assert (∀ before g after w,
            visits = before ++ g :: after →
            groupNode g → below g w → isMesh (v_node w) →
            (∀ g', g' ∈ before → groupNode g' → ¬ below g' w) →
            ∃ category item,
              category ∈ built ∧ tn_type category = GroupKind
              ∧ tn_id category = node_uuid (v_node g)
              ∧ item ∈ tn_items category
              ∧ item_id item = node_uuid (v_node w)) as Hfirst.
  { intros before g after w Hvisits Hgroup Hw Hmesh Hbefore.
    destruct buildModelTree_trace
      as (groups & c & uncats & Hbuilt & _ & _ & _ & _ & _ & _ & _ & Hfold).
    specialize (Hfold Hlen).
    assert (g ∈ visits) as Hg.
    { rewrite Hvisits. apply elem_of_app. right. by left. }
    assert (groupNodesOf visits
            = groupNodesOf before ++ nodeInfo g :: groupNodesOf after) as Hsplit.
    { rewrite Hvisits. unfold groupNodesOf.
      rewrite fmap_app, filter_app, fmap_cons, filter_cons_True; [done|].
      destruct Hgroup as [Hgroup Hchildren].
      apply andb_True. split; [done|]. by apply Is_true_true, Nat.ltb_lt. }
    destruct (groupFold_first metadataRef expandedCategories visits traverse_closed
                (groupNodesOf before) (nodeInfo g) (groupNodesOf after) g w)
      as (entry & item & Hentry & Hshape & Hitem & Hid); [|done|done| |].
    { by apply findNodeByUuid_unique. }
    { intros info g' w' Hinfo Hfind Hw' Hmesh' Heq.
      destruct (groupInfo_visit _ _ Hinfo) as (v & Hv & -> & Hvgroup).
      assert (v ∈ visits) as Hv'.
      { rewrite Hvisits. apply elem_of_app. by left. }
      change (info_uuid (nodeInfo v)) with (node_uuid (v_node v)) in Hfind.
      rewrite (findNodeByUuid_unique visits v Hnodup Hv') in Hfind.
      injection Hfind as <-.
      assert (w' = w) as ->.
      { apply (uuid_inj visits); [done| | |done].
        - apply (traverse_closed v); [done|]. by destruct Hw'.
        - apply (traverse_closed g); [done|]. by destruct Hw. }
      by apply (Hbefore v). }
    exists entry, item. rewrite <- Hsplit, <- Hfold in Hentry.
    destruct Hshape as (Hid' & Hkind & _).
    split; [|done]. rewrite Hbuilt. destruct (0 <? length uncats)%nat; [|done].
    apply elem_of_app. by left. }
  split; [exact Hfirst|].
  intros root w Hroot Hgroup Hw Hmesh.
  destruct visits as [|first rest] eqn:Hvisits; [done|].
  injection Hroot as ->.
  apply (Hfirst [] root rest w); [done|done|done|done|].
  by intros g' ?%elem_of_nil.
Qed.


Lemma pushCategory_keys categories k item :
  (pushCategory categories k item).*1
  = if bool_decide (k ∈ categories.*1) then categories.*1 else categories.*1 ++ [k].
Proof.
  induction categories as [|[k' items] categories IH]; [done|].
  cbn [pushCategory]. destruct (decide (k' = k)) as [->|Hne].
  - rewrite (bool_decide_eq_true_2 (k = k)) by done. rewrite !fmap_cons. simpl.
    rewrite bool_decide_eq_true_2; [done|by left].
  - rewrite (bool_decide_eq_false_2 (k' = k)) by done. rewrite !fmap_cons, IH.
    simpl. destruct (decide (k ∈ categories.*1)) as [Hin|Hout].
    + rewrite !bool_decide_eq_true_2; [done| |done]. by right.
    + rewrite !bool_decide_eq_false_2; [done| |done].
      intros [?|?]%elem_of_cons; [by destruct Hne|done].
Qed.

Lemma categorise_keys_NoDup items : NoDup (categorise items).*1.
Proof.
  unfold categorise.
  assert (∀ categories,
            NoDup categories.*1 →
            NoDup (fold_left (λ categories meshItem,
                                pushCategory categories (item_category meshItem)
                                             meshItem)
                             items categories).*1) as Hfold.
  { induction items as [|item items IH]; [done|]. intros categories Hnodup.
    simpl. apply IH. rewrite pushCategory_keys.
    destruct (decide (item_category item ∈ categories.*1)) as [Hin|Hout].
    - by rewrite bool_decide_eq_true_2.
    - rewrite bool_decide_eq_false_2 by done. apply NoDup_app.
      split; [done|]. split; [|apply NoDup_singleton].
      intros k Hk ->%list_elem_of_singleton. done. }
  apply Hfold. simpl. apply NoDup_nil_2.
Qed.

(** X16. The tree is the group entries followed by the category entries.
    No two category entries have the same id, and (uuids being unique)
    no two group entries have, so an id picks one entry of its kind. *)
Theorem built_ids_distinct :
  ∃ groups categories,
    built = groups ++ categories
    ∧ Forall (λ category, tn_type category = GroupKind) groups
    ∧ Forall (λ category, tn_type category = CategoryKind) categories
    ∧ NoDup (tn_id <$> categories)
    ∧ (NoDup ((λ child, node_uuid (v_node child)) <$> visits) →
       NoDup (tn_id <$> groups)).
Proof.
  destruct buildModelTree_trace
    as (groups & c & uncats & Hbuilt & _ & _ & _ & _ & _ & Hgroups & Hsub & _).
  exists groups,
    (if (0 <? length uncats)%nat
     then categoryNode expandedCategories <$> objectEntries (categorise uncats)
     else []).
  split; [|split; [|split; [|split]]].
  - rewrite Hbuilt. destruct (0 <? length uncats)%nat; [done|].
    by rewrite app_nil_r.
  - eapply Forall_impl; [exact Hgroups|]. simpl.
    by intros entry (info & _ & _ & Hkind & _).
  - destruct (0 <? length uncats)%nat; [|done].
    eapply Forall_impl; [apply categoryNodes_counted|]. simpl.
    by intros category (Hkind & _).
  - destruct (0 <? length uncats)%nat; [|apply NoDup_nil_2].
    assert (∀ entries,
              tn_id <$> (categoryNode expandedCategories <$> entries)
              = entries.*1) as ->.
    { induction entries as [|[k items] entries IH]; [done|].
      by rewrite !fmap_cons, IH. }
    rewrite objectEntries_Permutation. apply categorise_keys_NoDup.
  - intros Hnodup. eapply sublist_NoDup; [|exact Hsub].
    eapply sublist_NoDup; [exact Hnodup|].
    unfold groupNodesOf.
    assert ((λ child, node_uuid (v_node child)) <$> visits
            = info_uuid <$> (nodeInfo <$> visits)) as ->.
    { by rewrite <- list_fmap_compose. }
    apply fmap_sublist, sublist_filter.
Qed.

Lemma expanded_fold tree (initialExpanded : gmap string bool) :
  dom (fold_left (λ initialExpanded category,
                    <[tn_id category := tn_expanded category]> initialExpanded)
                 tree initialExpanded)
  = (list_to_set (tn_id <$> tree) ∪ dom initialExpanded : gset string).
Proof.
  revert initialExpanded. induction tree as [|category tree IH];
    intros initialExpanded.
  - simpl. by rewrite (left_id_L ∅ (∪)).
  - cbn [fold_left]. rewrite IH, dom_insert_L, fmap_cons. simpl.
    by rewrite (assoc_L (∪)), (comm_L (∪) (list_to_set _) {[_]}).
Qed.

(** X17. The expansion state the build stores has the ids of the tree's
    entries as keys.  An entry is expanded exactly when the previous
    state shows its name expanded: by the flag the state holds under the
    name, and, when it holds none, exactly for the names that every
    object inherits (such as "constructor"), which read as a function.
    So after the first build, from the empty state, an entry is collapsed
    unless its name is such a name. *)
Theorem built_expanded_state :
  dom (br_expandedCategories
         (buildModelTree metadataRef expandedCategories sceneParents modelScene))
  = list_to_set (tn_id <$> built)
  ∧ Forall (λ category,
              tn_expanded category
              = match expandedCategories !! tn_name category with
                | Some flag => flag
                | None => bool_decide (tn_name category ∈ prototypeNames)
                end) built
  ∧ (expandedCategories = ∅ →
     Forall (λ category,
               tn_expanded category = true ↔ tn_name category ∈ prototypeNames)
            built).
Proof.
  destruct buildModelTree_trace
    as (groups & c & uncats & Hbuilt & _ & _ & Hexp & _ & _ & Hgroups & _).
  assert (Forall (λ category,
                    tn_expanded category
                    = isExpanded expandedCategories (tn_name category))
                 built) as Hflags.
  { rewrite Hbuilt.
    assert (Forall (λ category,
                      tn_expanded category
                      = isExpanded expandedCategories (tn_name category))
                   groups) as Hg.
    { eapply Forall_impl; [exact Hgroups|]. simpl.
      by intros entry (info & _ & _ & _ & _ & _ & _ & Hflag & _). }
    destruct (0 <? length uncats)%nat; [|done].
    apply Forall_app. split; [done|].
    eapply Forall_impl; [apply categoryNodes_counted|]. simpl.
    by intros category (_ & _ & _ & _ & _ & Hflag & _). }
  split; [|split; [done|]].
  - by rewrite Hexp, expanded_fold, dom_empty_L, (right_id_L ∅ (∪)).
  - intros Hempty. eapply Forall_impl; [exact Hflags|]. simpl.
    intros category ->. unfold isExpanded. rewrite Hempty, lookup_empty.
    by rewrite bool_decide_eq_true.
Qed.

(** X18. The toggles work on the tree that was built: for a state that
    holds the object map of the build, toggling the visibility of an
    entry of the tree returns, flips the [visible] flag of the entry's own
    object and records the new flag under the entry's id. *)
Theorem toggle_built_entry st item :
  objectsMapRef st = br_objectsMap result →
  item ∈ treeItems built →
  let object := v_ref (item_object item) in
  ∃ st', toggleObjectVisibility (item_id item) st = Returns st'
         ∧ visible st' object = negb (visible st object)
         ∧ objectVisibility st' !! item_id item
           = Some (negb (visible st object)).
Proof.
  intros Hmap Hitem.
  destruct (buildModelTree_maps metadataRef expandedCategories sceneParents
              modelScene item Hitem) as [Hobj _].
  simpl. unfold toggleObjectVisibility, lookupObject. rewrite Hmap, Hobj. simpl.
  eexists. split; [reflexivity|]. simpl.
  by rewrite fn_lookup_insert, lookup_insert_eq.
Qed.

End tree_more.

Lemma sample_uuids_NoDup :
  NoDup ((λ child, node_uuid (v_node child)) <$> traverse [] [] Sample.scene).
Proof. apply (bool_decide_unpack _). by vm_compute. Qed.

Lemma built_entry_kinds_witness :
  ∃ category g,
    category ∈ br_modelTree (buildModelTree None ∅ [] Sample.scene)
    ∧ g ∈ traverse [] [] Sample.scene
    ∧ tn_id category = node_uuid (v_node g)
    ∧ tn_depth category = Some (getNodeDepth (v_parents g)).
Proof.
  assert (∃ category,
            br_modelTree (buildModelTree None ∅ [] Sample.scene) = [category]
            ∧ tn_type category = GroupKind) as (category & Htree & Hkind).
  { eexists. split; reflexivity. }
  pose proof (built_entry_kinds None ∅ [] Sample.scene category
                sample_uuids_NoDup) as Hentry.
  rewrite Hkind, Htree in Hentry.
  destruct Hentry as (g & Hg & _ & Hid & Hdepth & _); [by left|].
  exists category, g. rewrite Htree. split; [by left|done].
Defined.

Lemma first_group_claims_witness :
  ∃ category item,
    category ∈ br_modelTree (buildModelTree None ∅ [] Sample.scene)
    ∧ tn_type category = GroupKind
    ∧ tn_id category = "g1"
    ∧ item ∈ tn_items category
    ∧ item_id item = "m2".
Proof.
  destruct (first_group_claims None ∅ [] Sample.scene) as [_ Hroot];
    [vm_compute; lia|exact sample_uuids_NoDup|].
  apply (Hroot Sample.rootVisit Sample.columnVisit).
  - reflexivity.
  - split; [by vm_compute|simpl; lia].
  - split; [|discriminate]. apply list_elem_of_lookup. by exists 4%nat.
  - by vm_compute.
Defined.

Lemma toggle_built_entry_witness :
  let built := buildModelTree None ∅ [] Sample.scene in
  let st := {| modelTree := br_modelTree built;
               objectsMapRef := br_objectsMap built;
               objectVisibility := br_objectVisibility built;
               visible := λ _, true;
               builtinVisible := ∅;
               modelBrowserSearch := "" |} in
  ∃ st', toggleObjectVisibility "m2" st = Returns st'
         ∧ visible st' [2]%nat = false.
Proof.
  intros built st.
  destruct (toggle_built_entry None ∅ [] Sample.scene st
              (treeItem None Sample.columnVisit 1)) as (st' & Hreturns & Hflag & _);
    [reflexivity| |by exists st'].
  apply list_elem_of_lookup. by exists 1%nat.
Defined.

(** ** Names in the browser *)

Section naming.

Lemma getMeshDisplayName_nonempty metadataRef parents node index :
  (∀ record, getElementMetadata metadataRef node = Some record →
             displayName record ≠ "") →
  getMeshDisplayName metadataRef parents node index ≠ "".
Proof.
  intros Hrecord. unfold getMeshDisplayName.
  destruct (getElementMetadata metadataRef node) as [record|];
    [by apply Hrecord|apply fallbackName_nonempty].
Qed.

Lemma typedIndex_named raw index :
  Forall wellFormedEntry raw → typedIndex raw = Some index →
  Forall (λ record, displayName record ≠ "") index.*2.
Proof.
  unfold typedIndex. intros Hraw Htyped. apply mapM_Some in Htyped.
  induction Htyped as [|[key r] [key' record] raw index Hentry Hrest IH];
    [done|].
  apply Forall_cons in Hraw as [(_ & _ & _ & Hname) Hraw].
  rewrite fmap_cons. apply Forall_cons. split; [|by apply IH].
  simpl in *. unfold typedRecord in Hentry.
  destruct (raw_externalId r), (raw_familyName r), (raw_typeName r),
    (raw_category r), (raw_displayName r) as [| | | |disp| |];
    try done.
  injection Hentry as _ <-. simpl. intros ->. done.
Qed.

(** X30. No entry of the browser is without a name: with the index
    that the parser returns for a payload, read as the string records
    the engine works on, or without any index, the display name of a
    node is never empty, and so is the name of every entry of the tree
    that is built. *)
Theorem display_name_never_empty jsonData raw index :
  parseJsonMetadata jsonData = Returns raw →
  typedIndex raw = Some index →
  ∀ metadataRef, metadataRef = Some index ∨ metadataRef = None →
    (∀ parents node i, getMeshDisplayName metadataRef parents node i ≠ "")
    ∧ ∀ expandedCategories sceneParents modelScene,
        Forall (λ item, item_name item ≠ "")
               (treeItems (br_modelTree
                  (buildModelTree metadataRef expandedCategories
                                  sceneParents modelScene))).
Proof.
  intros Hparse Htyped metadataRef Hindex.
  pose proof (parseJsonMetadata_well_formed jsonData raw Hparse) as Hraw.
  pose proof (typedIndex_named raw index Hraw Htyped) as Hnamed.
  assert (∀ parents node i, getMeshDisplayName metadataRef parents node i ≠ "")
    as Hname.
  { intros parents node i. apply getMeshDisplayName_nonempty.
    intros record Hfound. destruct Hindex as [-> | ->].
    - destruct (getElementMetadata_elem _ _ _ Hfound) as (index' & Heq & Hin).
      injection Heq as <-. rewrite Forall_forall in Hnamed. by apply Hnamed.
    - by destruct (getElementMetadata_no_index node) as [Hnone _];
        rewrite Hnone in Hfound. }
  split; [done|]. intros expandedCategories sceneParents modelScene.
  destruct (buildModelTree_spec metadataRef expandedCategories sceneParents
              modelScene)
    as (groups & c & uncats & _ & _ & _ & Hitems & _ & Hinv & _).
  destruct Hinv as (_ & _ & Hentries & _). rewrite Hitems.
  eapply Forall_impl; [exact Hentries|]. simpl.
  intros item (child & i & _ & _ & ->). apply Hname.
Qed.

End naming.

Lemma display_name_never_empty_witness :
  getMeshDisplayName
    (Some [ ("12", {| elementId := "12";
                      externalId := "00000000-0000-0000-0000-000000000001-abcdef12";
                      familyName := "Basic Wall"; typeName := "Generic 200";
                      category := "OST_Walls"; displayName := "Basic Wall" |});
            ("7", {| elementId := "7"; externalId := "e7"; familyName := "";
                     typeName := ""; category := "";
                     displayName := "Element_7" |}) ])
    [] Sample.wallGuid 0 ≠ "".
Proof.
  destruct (display_name_never_empty Sample.payload _ _
              parseJsonMetadata_payload eq_refl _ (or_introl eq_refl))
    as [Hname _].
  apply Hname.
Defined.

(** ** The load pass *)

Section loading.

Lemma prepareMesh_prepared child : prepared (prepareMesh child).
Proof.
  unfold prepared. destruct (node_mesh child) as [m|] eqn:Hm.
  - assert (node_mesh (prepareMesh child) = Some m) as Hm'.
    { unfold prepareMesh. by rewrite Hm. }
    rewrite Hm'. split.
    + unfold prepareMesh. by rewrite Hm.
    + intros Hcount. rewrite (prepareMesh_isText _ _ Hm).
      destruct (Qlt_le_dec _ _) as [|Hge]; [done|].
      destruct (Qle_not_lt _ _ Hge).
      rewrite triangles_elementCount. apply third_below_100. lia.
  - unfold prepareMesh. by rewrite Hm, Hm.
Qed.

Lemma nodeInfo_prepared ref parents parents' o :
  length parents = length parents' →
  nodeInfo {| v_ref := ref; v_parents := parents'; v_obj := prepareScene o |}
  = nodeInfo {| v_ref := ref; v_parents := parents; v_obj := o |}.
Proof.
  intros Hlen. destruct o as [d cs]. unfold nodeInfo, v_node, getNodeDepth. simpl.
  rewrite length_map, Hlen.
  assert (node_name (prepareMesh d) = node_name d
          ∧ node_uuid (prepareMesh d) = node_uuid d
          ∧ node_type (prepareMesh d) = node_type d) as (-> & -> & ->); [|done].
  unfold prepareMesh. by destruct (node_mesh d).
Qed.

(** The pass keeps what the traversals read of the shape of the scene:
    the same objects in the same order, with their uuids, names, types,
    child counts and their being a mesh or not. *)
Lemma traverse_prepareScene o ref parents parents' :
  length parents = length parents' →
  (λ v, (v_ref v, nodeInfo v, isMesh (v_node v)))
    <$> traverse ref parents' (prepareScene o)
  = (λ v, (v_ref v, nodeInfo v, isMesh (v_node v)))
    <$> traverse ref parents o.
Proof.
  revert ref parents parents'.
  induction o as [d cs IH] using Object3D_children_ind.
  intros ref parents parents' Hlen. cbn [prepareScene traverse]. rewrite !fmap_cons.
  f_equal.
  - f_equal; [f_equal|].
    + apply (nodeInfo_prepared ref parents parents' (Obj d cs) Hlen).
    + unfold v_node, isMesh. simpl. by rewrite node_mesh_prepareMesh.
  - generalize 0%nat.
    induction cs as [|child cs IHcs]; intros i; [done|].
    apply Forall_cons in IH as [Hchild Hcs]. cbn [map forEachChild].
    rewrite !fmap_app. f_equal.
    + apply Hchild. simpl. by rewrite Hlen.
    + by apply IHcs.
Qed.

Lemma traverse_prepared o ref parents :
  Forall (λ v, prepared (v_node v)) (traverse ref parents (prepareScene o)).
Proof.
  revert ref parents. induction o as [d cs IH] using Object3D_children_ind.
  intros ref parents. cbn [prepareScene traverse]. apply Forall_cons. split.
  - apply prepareMesh_prepared.
  - generalize 0%nat.
    induction cs as [|child cs IHcs]; intros i; [done|].
    apply Forall_cons in IH as [Hchild Hcs]. cbn [map forEachChild].
    apply Forall_app. split; [apply Hchild|by apply IHcs].
Qed.

(** X19. The load pass over the meshes: afterwards every mesh of the
    scene is visible, and flagged text-like when its element count is
    below 300; the pass keeps the shape of the scene that the tree is
    built from: the same objects in the same order, with their uuids,
    names, types, child counts, depths and their being a mesh or not. *)
Theorem load_pass_prepares o ref parents :
  Forall (λ v, prepared (v_node v)) (traverse ref parents (prepareScene o))
  ∧ (λ v, (v_ref v, nodeInfo v, isMesh (v_node v)))
      <$> traverse ref parents (prepareScene o)
    = (λ v, (v_ref v, nodeInfo v, isMesh (v_node v))) <$> traverse ref parents o.
Proof.
  split; [apply traverse_prepared|]. by apply traverse_prepareScene.
Qed.

Context (metadataRef : option MetadataIndex).
Context (expandedCategories : gmap string bool).
Context (sceneParents : list NodeData) (modelScene : Object3D).

Abbreviation loaded :=
  (buildModelTree metadataRef expandedCategories sceneParents
                  (prepareScene modelScene)).

(** X20. The tree built after the load pass: the visibility state holds
    [true] for every mesh, and an entry whose mesh has an element count
    below 300 is typed as text. *)
Theorem built_after_load :
  map_Forall (λ _ shown, shown = true) (br_objectVisibility loaded)
  ∧ Forall (λ item,
              match node_mesh (v_node (item_object item)) with
              | Some m =>
                  (elementCount (geometry m) < 300)%N → item_type item = TextItem
              | None => False
              end)
           (treeItems (br_modelTree loaded)).
Proof.
  pose proof (traverse_prepared modelScene [] sceneParents) as Hprep.
  rewrite Forall_forall in Hprep. split.
  - destruct (buildModelTree_trace metadataRef expandedCategories sceneParents
                (prepareScene modelScene))
      as (groups & c & uncats & _ & _ & -> & _ & Hreg & _).
    destruct Hreg as (_ & Hdom & Hreg). intros objectId shown Hshown.
    assert (objectId ∈ processedMeshes c) as Hid.
    { rewrite <- Hdom. apply elem_of_dom. by eexists. }
    destruct (Hreg objectId Hid) as (child & Hin & Hmesh & _ & _ & Hvis).
    rewrite Hvis in Hshown. injection Hshown as <-.
    specialize (Hprep child Hin). unfold prepared in Hprep.
    unfold isMesh in Hmesh. apply bool_decide_unpack in Hmesh as [m Hm].
    rewrite Hm in Hprep. by destruct Hprep.
  - destruct (buildModelTree_spec metadataRef expandedCategories sceneParents
                (prepareScene modelScene))
      as (groups & c & uncats & _ & _ & _ & Hitems & _ & Hinv & _).
    destruct Hinv as (_ & _ & Hentries & _). rewrite Hitems.
    eapply Forall_impl; [exact Hentries|]. simpl.
    intros item (child & index & Hin & Hmesh & ->). simpl.
    specialize (Hprep child Hin). unfold prepared in Hprep.
    unfold isMesh in Hmesh. apply bool_decide_unpack in Hmesh as [m Hm].
    unfold v_node in *. rewrite Hm in Hprep |- *. destruct Hprep as [_ Hflag].
    intros Hcount. by rewrite (Hflag Hcount).
Qed.

End loading.

(** ** More on the toggles *)

Section toggles_more.

Implicit Types (st : ViewerState) (category : TreeNode) (item : TreeItem).

(** X21. Toggling the visibility of the same object twice.  For an id
    of the object map both toggles return; the first flips the [visible]
    flag of the object, the second brings back every flag of the scene
    and leaves in the visibility state the flag the object had; tree,
    map and the objects outside the scene are untouched.  Whatever the id
    is, two toggles that return leave every flag of the scene, the tree
    and the map as they were. *)
Theorem toggleObjectVisibility_twice st objectId :
  (∀ object, objectsMapRef st !! objectId = Some object →
     ∃ st1 st2,
       toggleObjectVisibility objectId st = Returns st1
       ∧ toggleObjectVisibility objectId st1 = Returns st2
       ∧ visible st1 object = negb (visible st object)
       ∧ (∀ other, visible st2 other = visible st other)
       ∧ objectVisibility st2
         = <[objectId := visible st object]> (objectVisibility st)
       ∧ modelTree st2 = modelTree st
       ∧ objectsMapRef st2 = objectsMapRef st
       ∧ builtinVisible st2 = builtinVisible st)
  ∧ (∀ st1 st2,
       toggleObjectVisibility objectId st = Returns st1 →
       toggleObjectVisibility objectId st1 = Returns st2 →
       (∀ other, visible st2 other = visible st other)
       ∧ modelTree st2 = modelTree st
       ∧ objectsMapRef st2 = objectsMapRef st).
Proof.
  assert (∀ object, objectsMapRef st !! objectId = Some object →
     ∃ st1 st2,
       toggleObjectVisibility objectId st = Returns st1
       ∧ toggleObjectVisibility objectId st1 = Returns st2
       ∧ visible st1 object = negb (visible st object)
       ∧ (∀ other, visible st2 other = visible st other)
       ∧ objectVisibility st2
         = <[objectId := visible st object]> (objectVisibility st)
       ∧ modelTree st2 = modelTree st
       ∧ objectsMapRef st2 = objectsMapRef st
       ∧ builtinVisible st2 = builtinVisible st) as Hknown.
  { assert (∀ st object, objectsMapRef st !! objectId = Some object →
              toggleObjectVisibility objectId st
              = Returns (recordVisibility objectId (negb (visible st object))
                  {| modelTree := modelTree st;
                     objectsMapRef := objectsMapRef st;
                     objectVisibility := objectVisibility st;
                     visible := <[object := negb (visible st object)]> (visible st);
                     builtinVisible := builtinVisible st;
                     modelBrowserSearch := modelBrowserSearch st |})) as Hstep.
    { clear. intros st object Hobj.
      unfold toggleObjectVisibility, lookupObject. by rewrite Hobj. }
    intros object Hobj. eexists _, _.
    split; [by apply Hstep|]. split; [by apply Hstep|]. simpl.
    rewrite fn_lookup_insert, negb_involutive, insert_insert_eq.
    split; [done|]. split; [|done]. intros other.
    destruct (decide (object = other)) as [->|Hne].
    + by rewrite fn_lookup_insert.
    + by rewrite !fn_lookup_insert_ne. }
  split; [exact Hknown|]. intros st1 st2 Hfirst Hsecond.
  destruct (objectsMapRef st !! objectId) as [object|] eqn:Hobj.
  { destruct (Hknown object eq_refl)
      as (st1' & st2' & Hfirst' & Hsecond' & _ & Hflags & _ & Htree & Hmap & _).
    rewrite Hfirst in Hfirst'. injection Hfirst' as <-.
    rewrite Hsecond in Hsecond'. by injection Hsecond' as <-. }
  assert (∀ st st', objectsMapRef st !! objectId = None →
            toggleObjectVisibility objectId st = Returns st' →
            visible st' = visible st ∧ modelTree st' = modelTree st
            ∧ objectsMapRef st' = objectsMapRef st) as Hother.
  { clear. intros st st' Hobj. unfold toggleObjectVisibility, lookupObject.
    rewrite Hobj. destruct (bool_decide (objectId ∈ prototypeNames)).
    { simpl. by intros [= <-]. }
    destruct (bool_decide (objectId = "visible")); [|by intros [= <-]].
    destruct (builtinVisible st !! "__proto__") as [[]|]; simpl;
      [done|by intros [= <-]|by intros [= <-]]. }
  destruct (Hother st st1 Hobj Hfirst) as (Hv1 & Ht1 & Hm1).
  destruct (Hother st1 st2) as (Hv2 & Ht2 & Hm2); [by rewrite Hm1|done|].
  split; [|split]; [intros other|..]; congruence.
Qed.

(** After the loop, [every] gives the value that was set, for a group
    that has members, all of them in the map. *)
Lemma allVisible_after b st st' category :
  (∀ item, item ∈ tn_items category →
           is_Some (objectsMapRef st !! item_id item)) →
  tn_items category ≠ [] →
  forEachOutcome (setItemVisible b) (tn_items category) st = Returns st' →
  allVisible st' category = b.
Proof.
  intros Hall Hne Hloop.
  destruct (forEach_setItemVisible _ _ _ _ Hloop) as (_ & Hmap & Hmem & _).
  assert (∀ item, item ∈ tn_items category →
                  is_Some (objectsMapRef st' !! item_id item)) as Hall'.
  { intros item Hin. rewrite Hmap. by apply Hall. }
  destruct b.
  - apply (allVisible_members st' category Hall').
    intros item obj [Hin Hobj]. rewrite Hmap in Hobj.
    by destruct (Hmem item obj Hin Hobj).
  - destruct (tn_items category) as [|item items] eqn:Hitems; [done|].
    destruct (Hall item) as [obj Hobj]; [by left|].
    apply (allVisible_hidden st' category item obj).
    + split; [rewrite Hitems; by left|by rewrite Hmap].
    + by destruct (Hmem item obj ltac:(by left) Hobj).
Qed.

(** X22. A group toggle alternates: for a group that has entries, all of
    them in the object map, the toggle returns and turns "all members
    are visible" into its negation; the next toggle of the group returns
    too, finds the same group and sets every member to what "all members
    are visible" was at the start, so a group that was shown in part is
    hidden as a whole by the second toggle. *)
Theorem toggleCategoryVisibility_alternates st categoryId category :
  List.find (λ cat, bool_decide (tn_id cat = categoryId)) (modelTree st)
    = Some category →
  tn_items category ≠ [] →
  (∀ item, item ∈ tn_items category →
           is_Some (objectsMapRef st !! item_id item)) →
  ∃ st1 st2,
    toggleCategoryVisibility categoryId st = Returns st1
    ∧ toggleCategoryVisibility categoryId st1 = Returns st2
    ∧ allVisible st1 category = negb (allVisible st category)
    ∧ allVisible st2 category = allVisible st category
    ∧ ∀ item object,
        item ∈ tn_items category →
        objectsMapRef st !! item_id item = Some object →
        visible st2 object = allVisible st category
        ∧ objectVisibility st2 !! item_id item = Some (allVisible st category).
Proof.
  intros Hfind Hne Hall.
  destruct (forEach_setItemVisible_returns (negb (allVisible st category))
              (tn_items category) st Hall) as [st1 Hloop1].
  destruct (forEach_setItemVisible _ _ _ _ Hloop1) as (Htree & Hmap & _).
  assert (∀ item, item ∈ tn_items category →
            is_Some (objectsMapRef st1 !! item_id item)) as Hall1.
  { intros item Hin. rewrite Hmap. by apply Hall. }
  pose proof (allVisible_after _ _ _ _ Hall Hne Hloop1) as Hflip.
  destruct (forEach_setItemVisible_returns (negb (allVisible st1 category))
              (tn_items category) st1 Hall1) as [st2 Hloop2].
  pose proof (allVisible_after _ _ _ _ Hall1 Hne Hloop2) as Hback.
  destruct (forEach_setItemVisible _ _ _ _ Hloop2) as (_ & _ & Hmem & _).
  rewrite Hflip, negb_involutive in Hback, Hmem, Hloop2.
  exists st1, st2. unfold toggleCategoryVisibility.
  rewrite Htree, Hfind, Hflip, negb_involutive.
  split; [done|]. split; [done|]. split; [done|]. split; [done|].
  intros item object Hin Hobj. apply Hmem; [done|]. by rewrite Hmap.
Qed.

Lemma toggleCategoryVisibility_alternates_witness :
  ∃ st1 st2,
    toggleCategoryVisibility "Walls" Sample.state = Returns st1
    ∧ toggleCategoryVisibility "Walls" st1 = Returns st2
    ∧ visible st2 [0]%nat = false ∧ visible st2 [1]%nat = false
    ∧ visible st2 [2]%nat = false.
Proof.
  destruct (toggleCategoryVisibility_alternates Sample.state "Walls" Sample.walls)
    as (st1 & st2 & Hfirst & Hsecond & _ & _ & Hmembers);
    [reflexivity|discriminate| |].
  { intros item Hin. apply (bool_decide_unpack _).
    repeat (apply elem_of_cons in Hin as [->|Hin]; [by vm_compute|]).
    by apply elem_of_nil in Hin. }
  exists st1, st2. split; [exact Hfirst|]. split; [exact Hsecond|].
  split; [|split].
  - apply (Hmembers (Sample.item "u1" "Wall_1" [0]%nat)); [by left|reflexivity].
  - apply (Hmembers (Sample.item "u2" "Wall_2" [1]%nat));
      [right; by left|reflexivity].
  - apply (Hmembers (Sample.item "u3" "Wall_3" [2]%nat));
      [right; right; by left|reflexivity].
Defined.

Lemma setTextVisible_fold hideText visits visible :
  (∀ child, child ∈ visits → isTextMesh child →
            fold_left (setTextVisible hideText) visits visible (v_ref child)
            = hideText)
  ∧ (∀ object,
       (∀ child, child ∈ visits → isTextMesh child → v_ref child ≠ object) →
       fold_left (setTextVisible hideText) visits visible object = visible object).
Proof.
  revert visible. induction visits as [|x visits IH]; intros visible.
  - split; [by intros child ?%elem_of_nil|done].
  - cbn [fold_left]. destruct (IH (setTextVisible hideText visible x)) as [Hset Hframe].
    split.
    + intros child Hin Htext.
      destruct (decide (Exists (λ later, isTextMesh later
                                         ∧ v_ref later = v_ref child) visits))
        as [Hlater|Hlast].
      * apply Exists_exists in Hlater as (later & Hl & Ht & <-). by apply Hset.
      * apply elem_of_cons in Hin as [->|Hin]; [|by apply Hset].
        rewrite Hframe.
        -- unfold setTextVisible. rewrite (Is_true_true_1 _ Htext).
           by rewrite fn_lookup_insert.
        -- intros later Hl Ht Href. apply Hlast, Exists_exists. by exists later.
    + intros object Hout. rewrite Hframe.
      * unfold setTextVisible. destruct (isTextMesh x) eqn:Hx; [|done].
        rewrite fn_lookup_insert_ne; [done|]. apply Hout; [by left|].
        by rewrite Hx.
      * intros child Hin. apply Hout. by right.
Qed.

(** X23. The text toggle: it flips [hideText] and gives every text-like
    mesh of the scene the old [hideText] as its [visible] flag, so that
    afterwards a text-like mesh is visible exactly when [hideText] is
    off; no other object changes.  Without a scene nothing happens. *)
Theorem toggleTextVisibility_sync visits hideText visible :
  let '(visible', hideText') :=
    toggleTextVisibility (Some visits) hideText visible in
  hideText' = negb hideText
  ∧ (∀ child, child ∈ visits → isTextMesh child →
              visible' (v_ref child) = negb hideText')
  ∧ (∀ object,
       (∀ child, child ∈ visits → isTextMesh child → v_ref child ≠ object) →
       visible' object = visible object)
  ∧ toggleTextVisibility None hideText visible = (visible, hideText).
Proof.
  simpl. destruct (setTextVisible_fold hideText visits visible) as [Hset Hframe].
  split; [done|]. split; [|done]. intros child Hin Htext.
  rewrite negb_involutive. by apply Hset.
Qed.

(** X24. Expanding and collapsing an entry: the toggle negates what the
    browser shows for the entry and leaves every other entry alone; two
    toggles of one entry bring back what is shown, and toggles of two
    entries can be done in either order.  An entry without a flag in the
    state is shown collapsed and becomes expanded, unless its id is one
    of the names every object inherits (such as "toString"): such an
    entry is shown expanded and becomes collapsed. *)
Theorem toggleCategoryExpanded_flips expandedCategories categoryId other :
  isExpanded (toggleCategoryExpanded categoryId expandedCategories) categoryId
  = negb (isExpanded expandedCategories categoryId)
  ∧ (other ≠ categoryId →
     toggleCategoryExpanded categoryId expandedCategories !! other
     = expandedCategories !! other
     ∧ isExpanded (toggleCategoryExpanded categoryId expandedCategories) other
       = isExpanded expandedCategories other)
  ∧ isExpanded (toggleCategoryExpanded categoryId
                  (toggleCategoryExpanded categoryId expandedCategories)) other
    = isExpanded expandedCategories other
  ∧ toggleCategoryExpanded categoryId
      (toggleCategoryExpanded other expandedCategories)
    = toggleCategoryExpanded other
        (toggleCategoryExpanded categoryId expandedCategories)
  ∧ (expandedCategories !! categoryId = None →
     (isExpanded expandedCategories categoryId = true
      ↔ categoryId ∈ prototypeNames)
     ∧ (isExpanded (toggleCategoryExpanded categoryId expandedCategories)
                   categoryId = true
        ↔ categoryId ∉ prototypeNames)).
Proof.
  assert (∀ e id, isExpanded (toggleCategoryExpanded id e) id
                  = negb (isExpanded e id)) as Hflip.
  { intros e id. unfold isExpanded at 1, toggleCategoryExpanded.
    by rewrite lookup_insert_eq. }
  assert (∀ e id x, x ≠ id →
            isExpanded (toggleCategoryExpanded id e) x = isExpanded e x)
    as Hframe.
  { intros e id x Hne. unfold isExpanded, toggleCategoryExpanded.
    by rewrite lookup_insert_ne. }
  split; [apply Hflip|]. split; [|split; [|split]].
  - intros Hne. split; [|by apply Hframe].
    unfold toggleCategoryExpanded. by rewrite lookup_insert_ne.
  - destruct (decide (other = categoryId)) as [->|Hne].
    + by rewrite !Hflip, negb_involutive.
    + by rewrite !Hframe.
  - destruct (decide (categoryId = other)) as [->|Hne]; [done|].
    unfold toggleCategoryExpanded at 1 3.
    rewrite !Hframe by done. unfold toggleCategoryExpanded.
    by rewrite insert_insert_ne.
  - intros Hnone. rewrite Hflip. unfold isExpanded. rewrite Hnone.
    rewrite negb_true_iff, bool_decide_eq_true, bool_decide_eq_false. done.
Qed.

End toggles_more.

(** ** More on the search *)

Section search_more.

Implicit Types (tree : list TreeNode) (category : TreeNode) (item : TreeItem).

Lemma dropWhile_toLowerCase s :
  Js.dropWhile Js.isSpace (Js.toLowerCase s)
  = Js.toLowerCase (Js.dropWhile Js.isSpace s).
Proof.
  induction s as [|c s IH]; [done|]. simpl. rewrite isSpace_lowerChar.
  by destruct (Js.isSpace c).
Qed.

Lemma trim_toLowerCase_blank s : Js.trim (Js.toLowerCase s) = "" ↔ Js.trim s = "".
Proof.
  rewrite !trim_blank, dropWhile_toLowerCase.
  by destruct (Js.dropWhile Js.isSpace s).
Qed.

(** X25. The search ignores the letter case of the query. *)
Theorem search_ignores_query_case tree q1 q2 :
  Js.toLowerCase q1 = Js.toLowerCase q2 → filterTree tree q1 = filterTree tree q2.
Proof.
  intros Hq.
  assert (Js.trim q1 = "" ↔ Js.trim q2 = "") as Hblank.
  { by rewrite <- (trim_toLowerCase_blank q1), Hq, trim_toLowerCase_blank. }
  destruct (decide (Js.trim q1 = "")) as [H1|H1].
  - rewrite !filterTree_blank; [done|by apply Hblank|done].
  - rewrite !filterTree_query; [by rewrite Hq| |done]. by rewrite <- Hblank.
Qed.

Lemma search_ignores_query_case_witness :
  filterTree [Sample.walls] "WALL_2" = filterTree [Sample.walls] "wall_2".
Proof. by apply (search_ignores_query_case [Sample.walls] "WALL_2" "wall_2"). Defined.

Lemma filter_narrow {A} (P Q : A → Prop) `{∀ x, Decision (P x)}
    `{∀ x, Decision (Q x)} (l : list A) :
  (∀ x, P x → Q x) → filter P (filter Q l) = filter P l.
Proof.
  intros HPQ. induction l as [|x l IH]; [done|].
  rewrite (filter_cons Q x l), (filter_cons P x l).
  destruct (decide (Q x)) as [HQ|HQ].
  - rewrite (filter_cons P x _). destruct (decide (P x)); by rewrite IH.
  - destruct (decide (P x)) as [HP|HP]; [by destruct HQ; apply HPQ|done].
Qed.

Lemma searchHit_narrow s1 s2 category item :
  Js.includes s2 s1 = true →
  searchHit s2 category item → searchHit s1 category item.
Proof.
  intros Hsub. unfold searchHit. rewrite !Is_true_true, !orb_true_iff.
  intros [H|H]; [left|right]; by apply (includes_trans _ s2).
Qed.

Lemma tn_items_searched s category :
  tn_items (searched s category)
  = filter (λ item, searchHit s category item) (tn_items category).
Proof. done. Qed.

Lemma searched_narrow s1 s2 category :
  Js.includes s2 s1 = true →
  searched s2 (searched s1 category) = searched s2 category.
Proof.
  intros Hsub.
  pose proof (filter_narrow (λ item, searchHit s2 category item)
                (λ item, searchHit s1 category item) (tn_items category)
                (λ item, searchHit_narrow s1 s2 category item Hsub)) as E.
  unfold searched, withItems; simpl. unfold searchHit in *; simpl. by rewrite E.
Qed.

(** X26. Refining a search: when the query [q1] occurs in the (non-blank)
    query [q2], ignoring case, searching the result of [q1] for [q2]
    gives what searching the whole tree for [q2] gives; nothing that
    [q1] dropped comes back. *)
Theorem search_refines tree q1 q2 :
  Js.trim q2 ≠ "" →
  Js.includes (Js.toLowerCase q2) (Js.toLowerCase q1) = true →
  filterTree (filterTree tree q1) q2 = filterTree tree q2.
Proof.
  intros Hq2 Hsub.
  destruct (decide (Js.trim q1 = "")) as [Hq1|Hq1].
  { by rewrite (filterTree_blank tree q1). }
  rewrite (filterTree_query tree q1), !(filterTree_query _ q2) by done.
  induction tree as [|category tree IH]; [done|].
  rewrite !fmap_cons, !filter_cons.
  destruct (decide (0 <? length (tn_items (searched _ category)))%nat) as [Hne|He].
  - rewrite fmap_cons, searched_narrow, filter_cons by done.
    destruct (decide _); by rewrite IH.
  - rewrite IH. destruct (decide _) as [Hne|]; [|done]. destruct He.
    apply Is_true_true, Nat.ltb_lt. apply Is_true_true, Nat.ltb_lt in Hne.
    rewrite <- (searched_narrow (Js.toLowerCase q1)) in Hne by done.
    rewrite tn_items_searched in Hne.
    destruct (tn_items (searched (Js.toLowerCase q1) category));
      [done|simpl; lia].
Qed.

Lemma search_refines_witness :
  filterTree (filterTree [Sample.walls] "_") "L_2" = filterTree [Sample.walls] "L_2".
Proof. by apply (search_refines [Sample.walls] "_" "L_2"). Defined.

End search_more.

(** ** Uploads *)

Section upload.

Lemma replaceDaeSuffix_spec s replacement :
  (endsWith (Js.toLowerCase s) ".dae" = true →
   ∃ base ext, s = base +:+ ext ∧ Js.toLowerCase ext = ".dae"
               ∧ replaceDaeSuffix s replacement = base +:+ replacement)
  ∧ (endsWith (Js.toLowerCase s) ".dae" = false →
     replaceDaeSuffix s replacement = s).
Proof.
  induction s as [|c s [IHyes IHno]].
  { split; [intros Hends; by vm_compute in Hends|intros _; by vm_compute]. }
  assert (endsWith (Js.toLowerCase (String c s)) ".dae"
          = bool_decide (Js.toLowerCase (String c s) = ".dae")
            || endsWith (Js.toLowerCase s) ".dae") as -> by done.
  cbn [replaceDaeSuffix].
  destruct (decide (Js.toLowerCase (String c s) = ".dae")) as [Heq|Hne].
  - rewrite !(bool_decide_eq_true_2 _ Heq). split; [|done]. intros _.
    exists "", (String c s). by rewrite !append_nil.
  - rewrite !(bool_decide_eq_false_2 _ Hne). cbn [orb]. split.
    + intros Hends. destruct (IHyes Hends) as (base & ext & -> & Hext & ->).
      exists (String c base), ext. by rewrite !append_cons.
    + intros Hends. by rewrite (IHno Hends).
Qed.

(** X27. The metadata file looked for when none is given: for a model
    path that ends in [.dae], in any letter case, the path with that
    ending replaced by [.metadata.json]; for any other model path, the
    model path itself.  A path that is given is taken as it is. *)
Theorem metadataPath_auto modelPath jsonPath :
  (jsonPath ≠ "" → metadataPath modelPath (Some jsonPath) = jsonPath)
  ∧ (endsWith (Js.toLowerCase modelPath) ".dae" = true →
     ∃ base ext, modelPath = base +:+ ext ∧ Js.toLowerCase ext = ".dae"
                 ∧ metadataPath modelPath None = base +:+ ".metadata.json")
  ∧ (endsWith (Js.toLowerCase modelPath) ".dae" = false →
     metadataPath modelPath None = modelPath).
Proof.
  destruct (replaceDaeSuffix_spec modelPath ".metadata.json") as [Hyes Hno].
  split; [|by split].
  intros Hpath. unfold metadataPath, Js.truthy.
  by rewrite (bool_decide_eq_false_2 _ Hpath).
Qed.

Lemma find_first {A} (f : A → bool) (l : list A) x :
  List.find f l = Some x →
  ∃ before after, l = before ++ x :: after ∧ f x = true
                  ∧ Forall (λ y, f y = false) before.
Proof.
  induction l as [|y l IH]; [done|]. simpl. destruct (f y) eqn:Hy.
  - intros [= ->]. by exists [], l.
  - intros Hfind. destruct (IH Hfind) as (before & after & -> & Hx & Hbefore).
    exists (y :: before), after. split; [done|]. split; [done|].
    by apply Forall_cons.
Qed.

Lemma find_none {A} (f : A → bool) (l : list A) :
  List.find f l = None → Forall (λ y, f y = false) l.
Proof.
  induction l as [|y l IH]; [done|]. simpl. destruct (f y) eqn:Hy; [done|].
  intros Hfind. apply Forall_cons. split; [done|]. by apply IH.
Qed.

(** X28. Which files an upload loads: without any file nothing happens;
    without a file whose name ends in [.dae], in any letter case, the
    upload is rejected; otherwise the model is the first such file, and
    the metadata is the first file named after it, by its name without
    the ending followed by [.metadata.json] or by [.json], whichever
    comes first among the files, and none when no file is named so. *)
Theorem handleFileUpload_selects files :
  match handleFileUpload files with
  | Ignored => files = []
  | Rejected message =>
      files ≠ [] ∧ message = "Please select a DAE file"
      ∧ Forall (λ f, isDae f = false) files
  | Chosen daeFile jsonFile =>
      ∃ before after base ext,
        files = before ++ daeFile :: after
        ∧ Forall (λ f, isDae f = false) before
        ∧ file_name daeFile = base +:+ ext ∧ Js.toLowerCase ext = ".dae"
        ∧ match jsonFile with
          | Some json =>
              ∃ before' after',
                files = before' ++ json :: after'
                ∧ (file_name json = base +:+ ".metadata.json"
                   ∨ file_name json = base +:+ ".json")
                ∧ Forall (λ f, file_name f ≠ base +:+ ".metadata.json"
                               ∧ file_name f ≠ base +:+ ".json") before'
          | None =>
              Forall (λ f, file_name f ≠ base +:+ ".metadata.json"
                           ∧ file_name f ≠ base +:+ ".json") files
          end
  end.
Proof.
  unfold handleFileUpload. destruct files as [|file files]; [done|].
  cbn [length Nat.eqb]. set (all := file :: files).
  destruct (List.find isDae all) as [daeFile|] eqn:Hdae.
  2:{ cbv beta iota. split; [done|]. split; [done|]. by apply find_none. }
  destruct (find_first _ _ _ Hdae) as (before & after & Hfiles & Hext & Hbefore).
  destruct (replaceDaeSuffix_spec (file_name daeFile) "") as [Hyes _].
  destruct (Hyes Hext) as (base & ext & Hname & Hlower & Hbase).
  rewrite append_empty_r in Hbase. cbv beta iota zeta. rewrite Hbase.
  exists before, after, base, ext. split; [done|]. split; [done|].
  split; [done|]. split; [done|].
  assert (∀ f, (bool_decide (file_name f = base +:+ ".metadata.json")
                || bool_decide (file_name f = base +:+ ".json")) = false →
               file_name f ≠ base +:+ ".metadata.json"
               ∧ file_name f ≠ base +:+ ".json") as Hno.
  { intros f [H1 H2]%orb_false_iff.
    by apply bool_decide_eq_false in H1, H2. }
  destruct (List.find (λ f, bool_decide (file_name f = base +:+ ".metadata.json")
                            || bool_decide (file_name f = base +:+ ".json")) all)
    as [json|] eqn:Hjson.
  - destruct (find_first _ _ _ Hjson) as (before' & after' & Hfiles' & Hhit & Hmiss).
    exists before', after'. split; [done|]. split.
    + apply orb_true_iff in Hhit as [Hhit|Hhit];
        apply bool_decide_eq_true in Hhit; [by left|by right].
    + eapply Forall_impl; [exact Hmiss|]. apply Hno.
  - eapply Forall_impl; [by apply find_none|]. apply Hno.
Qed.

End upload.

(** ** The file history *)

Section history.



End history.
